(** * Fantasy draft assistant: roster projector and ranking engine

    A shallow embedding of the draft model of [frontend/src/App.tsx]
    (roster derivation, the heuristic ranking engine [rankPlayers], and the
    two snake-draft helpers [getUpcomingPickIndexes]) together with the
    properties the design document states about them, followed by the
    draft board ([getRoundAndSlot], [buildTakenGrid]), the views the
    application derives from the draft log, the earlier version of the
    engine, the engine as a program over the objects the application
    shares with it, and further properties of all of these.

    Numbers.  JavaScript numbers are IEEE doubles.  Counts, pick numbers and
    league sizes are integers and are modelled by [nat] and [Z]; projections,
    weights and scores are modelled by exact rationals [Q], compared with
    [==].  Rounding error of the double arithmetic is therefore not part of
    the model. *)

From Stdlib Require Import ZArith QArith Qminmax Qround Qabs Lia Lqa.
From Stdlib Require Import Permutation Sorted Ascii.
From stdpp Require Import gmap strings list pretty sorting.

Local Open Scope Z_scope.

(** ** Data model *)

(** [type Position = "QB" | "RB" | "WR" | "TE" | "DST" | "K"] *)
Inductive Position : Set := QB | RB | WR | TE | DST | K.

#[global] Instance Position_eq_dec : EqDecision Position.
Proof. solve_decision. Defined.

(** Key order of the position-indexed object literals of the source. *)
Definition all_positions : list Position := [QB; RB; WR; TE; DST; K].

(** [type Player]: the fields read by the roster projector and by the
    engine.  The projected sub-statistics ([proj_rec], [proj_rush], ...,
    [target_share]) are never read by the modelled functions. *)
Record Player : Type := mkPlayer {
  player_id : string;
  player_name : string;
  position : Position;
  team : option string;
  bye : option Z;
  adp : option Q;
  proj_pts : option Q;
  qb_pass_att : option Q;
  qb_rush_share : option Q
}.

Inductive Scoring : Set := standard | half | ppr.

(** [type DraftSettings] *)
Record DraftSettings : Type := mkSettings {
  leagueSize : Z;
  draftSlot : Z;
  rounds : Z;
  scoring : Scoring;
  teamQBInfluence : Q;
  runSensitivity : Q
}.

(** Keys of [ROSTER_TEMPLATE]: the slot categories of a roster. *)
Inductive Slot : Set :=
  | SlotQB | SlotRB | SlotWR | SlotTE | FLEX | SlotDST | SlotK | BENCH | IR.

#[global] Instance Slot_eq_dec : EqDecision Slot.
Proof. solve_decision. Defined.

Definition all_slots : list Slot :=
  [SlotQB; SlotRB; SlotWR; SlotTE; FLEX; SlotDST; SlotK; BENCH; IR].

(** The slot whose key is the position's own name. *)
Definition slotOf (pos : Position) : Slot :=
  match pos with
  | QB => SlotQB | RB => SlotRB | WR => SlotWR
  | TE => SlotTE | DST => SlotDST | K => SlotK
  end.

Definition ROSTER_TEMPLATE (s : Slot) : Z :=
  match s with
  | SlotQB => 1 | SlotRB => 2 | SlotWR => 2 | SlotTE => 1 | FLEX => 1
  | SlotDST => 1 | SlotK => 1 | BENCH => 7 | IR => 1
  end.

Definition FLEX_ELIGIBLE : list Position := [RB; WR; TE].

(** [FLEX_ELIGIBLE.includes(pos)] *)
Definition flexEligible (pos : Position) : bool :=
  bool_decide (pos ∈ FLEX_ELIGIBLE).

(** [Record<string, Player[]>] keyed by slot.  A key that is absent in the
    JavaScript object reads as the empty list everywhere the source reads a
    roster ([by[slot]?.length || 0], [yourRoster[pos] || []]), so a roster
    is a total map from slots to lists. *)
Definition Roster : Type := Slot → list Player.

Definition emptyRoster : Roster := λ _, [].

(** [by[slot].push(p)] *)
Definition push (by_ : Roster) (s : Slot) (p : Player) : Roster :=
  λ s', if decide (s' = s) then by_ s' ++ [p] else by_ s'.

Inductive Owner : Set := me | other.

#[global] Instance Owner_eq_dec : EqDecision Owner.
Proof. solve_decision. Defined.

(** An entry of the draft log: [{ player_id, owner, ts }]. *)
Record Pick : Type := mkPick {
  pick_player_id : string;
  owner : Owner;
  ts : Z
}.

(** ** Roster projector *)

(** [picks.filter((p) => p.owner === "me").map((p) => p.player_id)] *)
Definition yourIds (picks : list Pick) : list string :=
  map pick_player_id (filter (λ p, owner p = me) picks).

(** [new Set(picks.map((p) => p.player_id))] *)
Definition takenSet (picks : list Pick) : gset string :=
  list_to_set (map pick_player_id picks).

(** [players.find((p) => p.id === id)] *)
Definition findPlayer (players : list Player) (i : string) : option Player :=
  List.find (λ p, bool_decide (player_id p = i)) players.

(** [yourIds.map((id) => players.find(...)).filter(Boolean)] *)
Definition chosenPlayers (players : list Player) (ids : list string)
  : list Player :=
  omap (findPlayer players) ids.

(** [const need = (slot, count) => (by[slot]?.length || 0) < count] *)
Definition need (by_ : Roster) (s : Slot) (count : Z) : bool :=
  Z.of_nat (length (by_ s)) <? count.

Definition findSlotForPlayer (p : Player) (by_ : Roster) : Slot :=
  if bool_decide (position p = QB) && need by_ SlotQB (ROSTER_TEMPLATE SlotQB)
  then SlotQB
  else if bool_decide (position p = RB) && need by_ SlotRB (ROSTER_TEMPLATE SlotRB)
  then SlotRB
  else if bool_decide (position p = WR) && need by_ SlotWR (ROSTER_TEMPLATE SlotWR)
  then SlotWR
  else if bool_decide (position p = TE) && need by_ SlotTE (ROSTER_TEMPLATE SlotTE)
  then SlotTE
  else if bool_decide (position p = DST) && need by_ SlotDST (ROSTER_TEMPLATE SlotDST)
  then SlotDST
  else if bool_decide (position p = K) && need by_ SlotK (ROSTER_TEMPLATE SlotK)
  then SlotK
  else if flexEligible (position p) && need by_ FLEX (ROSTER_TEMPLATE FLEX)
  then FLEX
  else BENCH.

(** One iteration of [for (const p of chosen)]. *)
Definition allocate (by_ : Roster) (p : Player) : Roster :=
  push by_ (findSlotForPlayer p by_) p.

(** The [yourRoster] memo: allocate the chosen players in sequence, starting
    from the nine empty buckets. *)
Definition yourRoster (players : list Player) (ids : list string) : Roster :=
  fold_left allocate (chosenPlayers players ids) emptyRoster.

(** *** The greedy rule, in the words of the design document *)

(** Starter-slot counts of the default roster template. *)
Definition starterCapacity (pos : Position) : nat :=
  match pos with
  | QB => 1 | RB => 2 | WR => 2 | TE => 1 | DST => 1 | K => 1
  end%nat.

(** First applicable of: own starter slot with room; FLEX for RB/WR/TE when
    FLEX holds fewer than one player; BENCH. *)
Definition greedySlot (p : Player) (by_ : Roster) : Slot :=
  if decide (length (by_ (slotOf (position p))) < starterCapacity (position p))%nat
  then slotOf (position p)
  else if decide ((position p = RB ∨ position p = WR ∨ position p = TE)
                  ∧ (length (by_ FLEX) < 1)%nat)
  then FLEX
  else BENCH.

(** ** Number helpers *)

Local Open Scope Q_scope.

(** [x < y] on rationals, as a boolean. *)
Definition Qltb (x y : Q) : bool := negb (Qle_bool y x).

(** [x || d] on numbers: [d] replaces a falsy (zero) [x]. *)
Definition orElse (x d : Q) : Q := if Qeq_bool x 0 then d else x.

(** The value of [Math.ceil(a / b)] for integers [a] and [b]: dividing by
    zero yields an infinity or NaN, which the callers then compare. *)
Inductive jsnum : Set := Fin (z : Z) | PosInf | NegInf | NaN.

Definition ceilDiv (a b : Z) : jsnum :=
  if (b =? 0)%Z
  then (if (0 <? a)%Z then PosInf else if (a <? 0)%Z then NegInf else NaN)
  else Fin (- ((- a) / b))%Z.

(** [Math.max(1, r)] *)
Definition jsMax1 (r : jsnum) : jsnum :=
  match r with
  | Fin z => Fin (Z.max 1 z)
  | PosInf => PosInf
  | NegInf => Fin 1
  | NaN => NaN
  end.

(** Stable sort of [l] by decreasing [key]: the result of
    [l.sort((a, b) => key(b) - key(a))], which ECMAScript requires to be
    stable.  [insertDesc x l] puts [x], which precedes every element of [l]
    in the original array, in front of the first element whose key does not
    exceed its own. *)
Fixpoint insertDesc {A : Type} (key : A → Q) (x : A) (l : list A) : list A :=
  match l with
  | [] => [x]
  | y :: l' =>
      if Qle_bool (key y) (key x) then x :: y :: l'
      else y :: insertDesc key x l'
  end.

Definition sortDesc {A : Type} (key : A → Q) (l : list A) : list A :=
  fold_right (insertDesc key) [] l.

(** [n] zero digits. *)
Fixpoint zeros (n : nat) : string :=
  match n with
  | O => ""
  | S n' => String "0"%char (zeros n')
  end.

(** [x.toFixed(d)] for [|x| < 1e21]: the decimal numeral of the integer [n]
    nearest to [|x| * 10^d] (the larger one on a tie) with the point
    inserted before the last [d] digits, after a minus sign when [x < 0].
    The rule is applied to the exact rational; where the rational is a tie
    and the double computed by the source lies just beside it, the last
    digit printed by the source can differ. *)
Definition toFixed (x : Q) (d : nat) : string :=
  let n := Qfloor (Qabs x * inject_Z (10 ^ Z.of_nat d) + 0.5) in
  let m := pretty n in
  let m := zeros (S d - String.length m) +:+ m in
  let k := (String.length m - d)%nat in
  (if Qltb x 0 then "-" else "")
    +:+ String.substring 0 k m
    +:+ (if decide (d = 0%nat) then "" else "." +:+ String.substring k d m).

(** ** Tables of the ranking engine *)

Definition replacementRank (pos : Position) : Z :=
  match pos with
  | QB => 12 | RB => 24 | WR => 30 | TE => 12 | DST => 12 | K => 12
  end.

Definition scoringWeights (s : Scoring) (pos : Position) : Q :=
  match s, pos with
  | standard, QB => 1.0 | standard, RB => 1.05 | standard, WR => 1.0
  | standard, TE => 1.0 | standard, DST => 0.6 | standard, K => 0.5
  | half, QB => 1.0 | half, RB => 1.0 | half, WR => 1.02
  | half, TE => 1.0 | half, DST => 0.6 | half, K => 0.5
  | ppr, QB => 1.0 | ppr, RB => 0.98 | ppr, WR => 1.05
  | ppr, TE => 1.03 | ppr, DST => 0.6 | ppr, K => 0.5
  end.

(** Hard caps; [None] is an absent key (no cap). *)
Definition MAX_BY_POSITION (pos : Position) : option Z :=
  match pos with
  | QB => Some 1%Z | DST => Some 1%Z | K => Some 1%Z | TE => Some 2%Z
  | RB | WR => None
  end.

Definition STARTERS_ONLY (pos : Position) : Z := ROSTER_TEMPLATE (slotOf pos).

Definition evenShare (pos : Position) : Q :=
  match pos with
  | QB => 0.17 | RB => 0.27 | WR => 0.27 | TE => 0.1 | DST => 0.1 | K => 0.09
  end.

(** Early-round positional priority.  On a round that is not a finite
    number only the comparison [round >= 10] can hold (for [+Infinity]);
    every remaining path returns [1.0]. *)
Definition priorityWeight (pos : Position) (round : jsnum) : Q :=
  match round with
  | Fin r =>
      if (r =? 1)%Z then
        match pos with
        | WR | RB => 1.25 | QB => 0.05 | TE => 0.9 | K | DST => 0.05
        end
      else if (r =? 2)%Z then
        match pos with
        | WR | RB => 1.2 | QB => 0.4 | TE => 0.95 | K | DST => 0.1
        end
      else if (3 <=? r)%Z && (r <=? 5)%Z then
        match pos with
        | WR | RB => 1.15 | QB => 0.9 | TE => 1.0 | K | DST => 0.2
        end
      else if (6 <=? r)%Z && (r <=? 9)%Z then
        match pos with
        | WR | RB => 1.05 | QB => 1.0 | TE => 1.0 | K | DST => 0.4
        end
      else if (10 <=? r)%Z then
        match pos with
        | K | DST => 1.0 | _ => 1.0
        end
      else 1.0
  | PosInf => 1.0
  | NegInf | NaN => 1.0
  end.

(** A position-indexed object, [Record<Position, A>], and the assignment
    [m[pos] = v]. *)
Definition pset {A : Type} (m : Position → A) (pos : Position) (v : A)
  : Position → A :=
  λ q, if decide (q = pos) then v else m q.

(** ** Ranking engine *)

(** [type ModelInputs].  [picksByPos] is a [Record<Position, number>] of
    pick counts: it has the six position keys. *)
Record ModelInputs : Type := mkInputs {
  in_settings : DraftSettings;
  in_yourRoster : Roster;
  in_takenIds : gset string;
  in_playerPool : list Player;
  in_picksByPos : Position → nat
}.

(** [p.proj_pts ?? 0] *)
Definition projOf (p : Player) : Q := default 0 (proj_pts p).

(** [String(p.bye ?? "")] *)
Definition byeKey (b : option Z) : string :=
  match b with
  | Some w => pretty w
  | None => ""
  end.

(** [byeCounts[pos][k] = (byeCounts[pos][k] || 0) + 1] *)
Definition tally (m : gmap string nat) (p : Player) : gmap string nat :=
  let k := byeKey (bye p) in
  <[k := (default 0 (m !! k) + 1)%nat]> m.

(** One step of [playerPool.forEach] filling [byPos]. *)
Definition groupStep (taken : gset string) (byPos : Position → list Player)
  (p : Player) : Position → list Player :=
  if decide (player_id p ∈ taken) then byPos
  else pset byPos (position p) (byPos (position p) ++ [p]).

Section Engine.

Variable inp : ModelInputs.

Let settings := in_settings inp.
Let roster := in_yourRoster inp.
Let takenIds := in_takenIds inp.
Let playerPool := in_playerPool inp.
Let picksByPos := in_picksByPos inp.

Definition weights : Position → Q := scoringWeights (scoring settings).

(** Players of a position in the position's own slot, and in FLEX where
    applicable: the list both [countOnRoster] and [byeCounts] range over. *)
Definition rosteredAt (pos : Position) : list Player :=
  roster (slotOf pos)
    ++ (if bool_decide (pos ≠ DST) && bool_decide (pos ≠ K)
        then filter (λ p, position p = pos) (roster FLEX)
        else []).

Definition countOnRoster (pos : Position) : Z :=
  (Z.of_nat (length (roster (slotOf pos)))
   + (if bool_decide (pos ≠ DST) && bool_decide (pos ≠ K)
      then Z.of_nat (length (filter (λ p, position p = pos) (roster FLEX)))
      else 0))%Z.

Definition startersRemaining (pos : Position) : Z :=
  let have := Z.of_nat (length (roster (slotOf pos))) in
  let need := STARTERS_ONLY pos in
  Z.max 0 (need - have).

Definition flexOpen : Z :=
  Z.max 0 (ROSTER_TEMPLATE FLEX - Z.of_nat (length (roster FLEX))).

Definition byeCounts (pos : Position) : gmap string nat :=
  fold_left tally (rosteredAt pos) ∅.

(** [byPos] after grouping the untaken players and sorting each group. *)
Definition grouped : Position → list Player :=
  fold_left (groupStep takenIds) playerPool (λ _, []).

Definition byPos (pos : Position) : list Player :=
  sortDesc projOf (grouped pos).

(** [byPos[pos][idx]] is always in range when [idx >= 0]; the [None]
    branch is never taken. *)
Definition replacementValue (pos : Position) : Q :=
  let idx := Z.min (replacementRank pos - 1)
                   (Z.of_nat (length (byPos pos)) - 1) in
  if (0 <=? idx)%Z
  then match byPos pos !! Z.to_nat idx with
       | Some p => projOf p
       | None => 0
       end
  else 0.

(** [Object.values(picksByPos).reduce((a, b) => a + b, 0)] *)
Definition totalPicksMade : Z :=
  fold_left (λ a pos, (a + Z.of_nat (picksByPos pos))%Z) all_positions 0%Z.

Definition totalTaken : Z :=
  if (totalPicksMade =? 0)%Z then 1%Z else totalPicksMade.

Definition runBias : Position → Q :=
  fold_left
    (λ rb pos,
       let actual := inject_Z (Z.of_nat (picksByPos pos)) / inject_Z totalTaken in
       pset rb pos (runSensitivity settings * (actual - orElse (evenShare pos) 0)))
    all_positions (λ _, 0).

Definition currentRound : jsnum :=
  jsMax1 (ceilDiv (totalPicksMade + 1) (leagueSize settings)).

(** *** Body of the scoring loop, for a candidate [p] *)

Definition capped (p : Player) : bool :=
  match MAX_BY_POSITION (position p) with
  | Some cap => (cap <=? countOnRoster (position p))%Z
  | None => false
  end.

Definition base (p : Player) : Q :=
  projOf p * orElse (weights (position p)) 1.0.

Definition vor (p : Player) : Q :=
  projOf p - orElse (replacementValue (position p)) 0.

Definition qbAdj (p : Player) : Q :=
  if (bool_decide (position p = WR) || bool_decide (position p = TE))
     && Qltb 0 (teamQBInfluence settings)
  then
    let passAtt := default 550 (qb_pass_att p) in
    let qbRun := Qmin (Qmax (default 0.2 (qb_rush_share p)) 0) 0.8 in
    teamQBInfluence settings * ((passAtt - 520) * 0.02 + (0.3 - qbRun) * 20)
  else 0.

Definition startersLeft (p : Player) : Z := startersRemaining (position p).

Definition fractionalFlex (p : Player) : Q :=
  if flexEligible (position p) && (0 <? flexOpen)%Z
  then inject_Z flexOpen / inject_Z (Z.of_nat (length FLEX_ELIGIBLE))
  else 0.

Definition needUnits (p : Player) : Q :=
  inject_Z (startersLeft p) + fractionalFlex p.

Definition starterBoost (p : Player) : Q :=
  if (0 <? startersLeft p)%Z then 1.35 else 1.0.

Definition benchDamp (p : Player) : Q :=
  if (startersLeft p =? 0)%Z then 0.93 else 1.0.

Definition pivotBonus (p : Player) : Q :=
  1 + Qmax 0 (0.15 - Qmax 0 (runBias (position p))).

(** [p.adp ? ... : 0]: a zero ADP is falsy. *)
Definition adpHelp (p : Player) : Q :=
  match adp p with
  | Some a => if Qeq_bool a 0 then 0 else Qmax 0 ((100 - a) * 0.01)
  | None => 0
  end.

Definition prio (p : Player) : Q := priorityWeight (position p) currentRound.

Definition byeAdj (p : Player) : Q :=
  match bye p with
  | Some w =>
      let k := pretty w in
      let already := default 0%nat (byeCounts (position p) !! k) in
      if (2 <=? already)%nat then 1.0 * 0.94
      else if (already =? 1)%nat then 1.0 * 0.98
      else 1.0
  | None => 1.0
  end.

(** [const score = base + vor * 1.4 + qbAdj] *)
Definition rawScore (p : Player) : Q := base p + vor p * 1.4 + qbAdj p.

Definition finalScore (p : Player) : Q :=
  rawScore p
    * (1 + 0.18 * Qmin 2 (needUnits p))
    * starterBoost p
    * benchDamp p
    * pivotBonus p
    * prio p
    * byeAdj p
  + adpHelp p.

Definition explainOf (p : Player) : string :=
  "base=" +:+ toFixed (base p) 1
    +:+ " vor=" +:+ toFixed (vor p) 1
    +:+ " qbAdj=" +:+ toFixed (qbAdj p) 1
    +:+ " starterBoost=" +:+ toFixed (starterBoost p) 2
    +:+ " prio=" +:+ toFixed (prio p) 2
    +:+ " pivot=" +:+ toFixed (pivotBonus p) 2
    +:+ " byeAdj=" +:+ toFixed (byeAdj p) 2
    +:+ " adpHelp=" +:+ toFixed (adpHelp p) 2.

End Engine.

(** [type Scored = { player; score; explain }] *)
Record Scored : Type := mkScored {
  player : Player;
  score : Q;
  explain : string
}.

(** One iteration of [for (const p of playerPool)]: taken and capped players
    are skipped, every other player is pushed with its score. *)
Definition scoreStep (inp : ModelInputs) (scored : list Scored) (p : Player)
  : list Scored :=
  if decide (player_id p ∈ in_takenIds inp) then scored
  else if capped inp p then scored
  else scored ++ [mkScored p (finalScore inp p) (explainOf inp p)].

Definition scoredPlayers (inp : ModelInputs) : list Scored :=
  fold_left (scoreStep inp) (in_playerPool inp) [].

(** [scored.sort((a, b) => b.score - a.score); return scored] *)
Definition rankPlayers (inp : ModelInputs) : list Scored :=
  sortDesc score (scoredPlayers inp).

(** ** Upcoming picks in a snake draft *)

Local Open Scope Z_scope.

(** The earlier implementation: scan the overall picks one by one. *)
Module Scan.

(** [drafter] for the pick [pickIndex]; [None] when the arithmetic yields
    NaN (a zero league size), which is equal to no draft slot. *)
Definition drafter (leagueSize pickIndex : Z) : option Z :=
  match ceilDiv pickIndex leagueSize with
  | Fin round =>
      let isOdd := Z.rem round 2 =? 1 in
      let pickInRound := Z.rem (pickIndex - 1) leagueSize + 1 in
      Some (if isOdd then pickInRound else leagueSize - pickInRound + 1)
  | _ => None
  end.

(** The [while] loop; [fuel] bounds the number of iterations left, which
    is at most [lastPick - pickIndex + 1]. *)
Fixpoint loop (fuel : nat) (leagueSize draftSlot lastPick lookahead : Z)
  (pickIndex : Z) (picks : list Z) : list Z :=
  match fuel with
  | O => picks
  | S fuel' =>
      if (Z.of_nat (length picks) <? lookahead) && (pickIndex <=? lastPick)
      then
        let picks' :=
          if bool_decide (drafter leagueSize pickIndex = Some draftSlot)
          then picks ++ [pickIndex] else picks in
        loop fuel' leagueSize draftSlot lastPick lookahead (pickIndex + 1) picks'
      else picks
  end.

Definition getUpcomingPickIndexes (settings : DraftSettings)
  (totalPicksMade : nat) (lookahead : Z) : list Z :=
  let pickIndex := Z.of_nat totalPicksMade + 1 in
  let lastPick := rounds settings * leagueSize settings in
  loop (Z.to_nat (lastPick - pickIndex + 1))
    (leagueSize settings) (draftSlot settings) lastPick lookahead pickIndex [].

End Scan.

(** The current implementation: one candidate pick per round. *)
Module Walk.

(** The [for] loop over rounds; [fuel] bounds the rounds left, which are
    at most [rounds - r + 1]. *)
Fixpoint loop (fuel : nat) (leagueSize draftSlot rounds startPick lastPick count : Z)
  (r : Z) (upcoming : list Z) : list Z :=
  match fuel with
  | O => upcoming
  | S fuel' =>
      if r <=? rounds then
        let firstOfRound := (r - 1) * leagueSize + 1 in
        let myPickThisRound :=
          if Z.rem r 2 =? 1
          then firstOfRound + (draftSlot - 1)
          else firstOfRound + (leagueSize - draftSlot) in
        if (startPick <=? myPickThisRound) && (myPickThisRound <=? lastPick)
        then
          let upcoming' := upcoming ++ [myPickThisRound] in
          if count <=? Z.of_nat (length upcoming') then upcoming'
          else loop fuel' leagueSize draftSlot rounds startPick lastPick count
                 (r + 1) upcoming'
        else loop fuel' leagueSize draftSlot rounds startPick lastPick count
               (r + 1) upcoming
      else upcoming
  end.

(** [startPick] is at least 1, so the first round is a finite number or,
    for a zero league size, [+Infinity], for which [r <= rounds] fails at
    once. *)
Definition getUpcomingPickIndexes (settings : DraftSettings)
  (totalPicksMade : nat) (count : Z) : list Z :=
  let startPick := Z.of_nat totalPicksMade + 1 in
  let lastPick := rounds settings * leagueSize settings in
  match ceilDiv startPick (leagueSize settings) with
  | Fin r0 =>
      loop (Z.to_nat (rounds settings - r0 + 1))
        (leagueSize settings) (draftSlot settings) (rounds settings)
        startPick lastPick count r0 []
  | _ => []
  end.

End Walk.

(** ** The design document's formulations *)

Local Open Scope Q_scope.

(** The order of a list sorted by decreasing key. *)
Definition keyDesc {A : Type} (key : A → Q) (a b : A) : Prop := key b <= key a.

(** A group in ranking order: projections never increase. *)
Definition byProjectionDesc : Player → Player → Prop := keyDesc projOf.

(** The untaken catalog players of a position, in catalog order. *)
Definition untakenAt (taken : gset string) (pool : list Player)
  (pos : Position) : list Player :=
  filter (λ p, (player_id p ∉ taken) ∧ position p = pos) pool.

(** All catalog players of a position, taken or not. *)
Definition catalogAt (pool : list Player) (pos : Position) : list Player :=
  filter (λ p, position p = pos) pool.

(** The player at rank [rank] (1-based) of a ranked group, or the
    lowest-ranked one when the group is shorter than [rank]. *)
Definition playerAtRank (rank : Z) (g : list Player) : option Player :=
  match g !! Z.to_nat (rank - 1) with
  | Some p => Some p
  | None => last g
  end.

(** The projection of that player; 0 for an empty group. *)
Definition valueAtRank (rank : Z) (g : list Player) : Q :=
  match playerAtRank rank g with
  | Some p => projOf p
  | None => 0
  end.

(** Total picks made so far, over the six positions. *)
Definition picksMade (counts : Position → nat) : Z :=
  (Z.of_nat (counts QB) + Z.of_nat (counts RB) + Z.of_nat (counts WR)
   + Z.of_nat (counts TE) + Z.of_nat (counts DST) + Z.of_nat (counts K))%Z.

(** Share of the picks made so far that went to [pos], zero total picks
    counting as one. *)
Definition actualShare (counts : Position → nat) (pos : Position) : Q :=
  inject_Z (Z.of_nat (counts pos))
  / inject_Z (if decide (picksMade counts = 0%Z) then 1%Z else picksMade counts).

(** [runSensitivity × (actualShare − expectedShare)] *)
Definition runBiasOf (inp : ModelInputs) (pos : Position) : Q :=
  runSensitivity (in_settings inp)
  * (actualShare (in_picksByPos inp) pos - evenShare pos).

(** Whether a starter slot of [pos] is still unfilled on the roster. *)
Definition startersUnfilled (r : Roster) (pos : Position) : bool :=
  bool_decide (length (r (slotOf pos)) < starterCapacity pos)%nat.

(** Useful slots remaining for a position: the starters remaining (template
    starter count minus the players already in that exact slot) plus, for a
    flex-eligible position, a third of the remaining FLEX capacity. *)
Definition usefulSlotsRemaining (r : Roster) (pos : Position) : Q :=
  inject_Z (Z.of_nat (starterCapacity pos - length (r (slotOf pos))))
  + (if decide (pos ∈ FLEX_ELIGIBLE)
     then inject_Z (Z.of_nat (1 - length (r FLEX))) / 3
     else 0).

(** The final score of the design document, with the ADP term left as a
    parameter: [(base + VOR×1.4 + qbAdjustment) × (1 + 0.18×min(2, useful))
    × starterBoost × benchDamp × pivotBonus × roundPriority × byeAdjustment
    + adpBonus]. *)
Definition scoreFormula (adpBonus : Player → Q) (inp : ModelInputs)
  (p : Player) : Q :=
  let pos := position p in
  let base := projOf p * scoringWeights (scoring (in_settings inp)) pos in
  let starterBoost :=
    if startersUnfilled (in_yourRoster inp) pos then 1.35 else 1 in
  let benchDamp :=
    if startersUnfilled (in_yourRoster inp) pos then 1 else 0.93 in
  let pivotBonus := 1 + Qmax 0 (0.15 - Qmax 0 (runBiasOf inp pos)) in
  (base + vor inp p * 1.4 + qbAdj inp p)
  * (1 + 0.18 * Qmin 2 (usefulSlotsRemaining (in_yourRoster inp) pos))
  * starterBoost * benchDamp * pivotBonus
  * prio inp p * byeAdj inp p
  + adpBonus p.

(** ADP bonus for every player that has an ADP value. *)
Definition adpBonusAny (p : Player) : Q :=
  match adp p with
  | Some a => Qmax 0 ((100 - a) * 0.01)
  | None => 0
  end.

(** ADP bonus for the players whose ADP value is present and not zero. *)
Definition adpBonusNonzero (p : Player) : Q :=
  match adp p with
  | Some a => if Qeq_dec a 0 then 0 else Qmax 0 ((100 - a) * 0.01)
  | None => 0
  end.

(** The priority table by round bucket. *)
Inductive RoundBucket : Set :=
  | Round1 | Round2 | Rounds3to5 | Rounds6to9 | Round10plus.

Definition bucketOf (r : Z) : RoundBucket :=
  if decide (r = 1)%Z then Round1
  else if decide (r = 2)%Z then Round2
  else if decide (3 <= r <= 5)%Z then Rounds3to5
  else if decide (6 <= r <= 9)%Z then Rounds6to9
  else Round10plus.

Definition priorityTable (b : RoundBucket) (pos : Position) : Q :=
  match b, pos with
  | Round1, (RB | WR) => 1.25 | Round1, QB => 0.05
  | Round1, TE => 0.9 | Round1, (K | DST) => 0.05
  | Round2, (RB | WR) => 1.2 | Round2, QB => 0.4
  | Round2, TE => 0.95 | Round2, (K | DST) => 0.1
  | Rounds3to5, (RB | WR) => 1.15 | Rounds3to5, QB => 0.9
  | Rounds3to5, TE => 1.0 | Rounds3to5, (K | DST) => 0.2
  | Rounds6to9, (RB | WR) => 1.05 | Rounds6to9, QB => 1.0
  | Rounds6to9, TE => 1.0 | Rounds6to9, (K | DST) => 0.4
  | Round10plus, _ => 1.0
  end.

(** The product of every multiplier of the final score except the round
    priority. *)
Definition otherMultipliers (inp : ModelInputs) (p : Player) : Q :=
  (1 + 0.18 * Qmin 2 (needUnits inp p))
  * starterBoost inp p * benchDamp inp p * pivotBonus inp p * byeAdj inp p.

(** Rosters as the projector builds them: a starter slot holds players of
    its own position, FLEX holds flex-eligible players. *)
Definition rosterSound (r : Roster) : Prop :=
  (∀ pos p, p ∈ r (slotOf pos) → position p = pos)
  ∧ (∀ p, p ∈ r FLEX → position p ∈ FLEX_ELIGIBLE).

(** The players in starter slots and in FLEX. *)
Definition lineup (r : Roster) : list Player :=
  r SlotQB ++ r SlotRB ++ r SlotWR ++ r SlotTE ++ r SlotDST ++ r SlotK
    ++ r FLEX.

(** How many players of the lineup play [pos] and have bye week [w]. *)
Definition sameByeLineup (r : Roster) (pos : Position) (w : Z) : nat :=
  length (filter (λ q, position q = pos ∧ bye q = Some w) (lineup r)).

(** How many of the self-owner's rostered players, over every slot category
    of the roster, play [pos] and have bye week [w]. *)
Definition sameByeCount (r : Roster) (pos : Position) (w : Z) : nat :=
  length (filter (λ q, position q = pos ∧ bye q = Some w)
            (concat (map r all_slots))).

(** The bye multiplier that the design document assigns to a number of
    rostered players with the candidate's bye week. *)
Definition byeMultiplier (n : nat) : Q :=
  if (2 <=? n)%nat then 0.94 else if (n =? 1)%nat then 0.98 else 1.0.

(** [clamp(x, lo, hi)] *)
Definition clamp (x lo hi : Q) : Q := Qmax lo (Qmin x hi).

Definition passAttOf (p : Player) : Q := default 550 (qb_pass_att p).
Definition rushShareOf (p : Player) : Q := default 0.2 (qb_rush_share p).

(** How many players of a position the self-owner holds, over every slot
    category of the roster. *)
Definition heldAt (r : Roster) (pos : Position) : nat :=
  length (filter (λ q, position q = pos) (concat (map r all_slots))).

(** The entry pushed for a scored player. *)
Definition scoredOf (inp : ModelInputs) (p : Player) : Scored :=
  mkScored p (finalScore inp p) (explainOf inp p).

(** The players the scoring loop does not skip. *)
Definition eligible (inp : ModelInputs) (p : Player) : Prop :=
  (player_id p ∉ in_takenIds inp) ∧ capped inp p = false.

(** The score of a candidate before the round priority is applied. *)
Definition prePriorityScore (inp : ModelInputs) (p : Player) : Q :=
  rawScore inp p * otherMultipliers inp p.

(** Equal ranking inputs: the same settings and catalog, the same members
    of the taken set, the same players in every roster slot and the same
    count for every position. *)
Definition sameInputs (a b : ModelInputs) : Prop :=
  in_settings a = in_settings b
  ∧ (∀ s, in_yourRoster a s = in_yourRoster b s)
  ∧ (∀ i, i ∈ in_takenIds a ↔ i ∈ in_takenIds b)
  ∧ in_playerPool a = in_playerPool b
  ∧ (∀ pos, in_picksByPos a pos = in_picksByPos b pos).

(** The self-owner's overall pick in round [r] of a snake draft: slots run
    1..N in odd rounds and N..1 in even rounds. *)
Definition pickOfRound (leagueSize draftSlot r : Z) : Z :=
  if (Z.rem r 2 =? 1)%Z
  then ((r - 1) * leagueSize + draftSlot)%Z
  else ((r - 1) * leagueSize + (leagueSize - draftSlot + 1))%Z.

(** Every remaining pick of the self-owner, from the pick on the clock to
    the last round. *)
Definition remainingPicks (settings : DraftSettings) (totalPicksMade : nat)
  : list Z :=
  let startPick := (Z.of_nat totalPicksMade + 1)%Z in
  let r0 := (- (- startPick / leagueSize settings))%Z in
  filter (λ x, (startPick <= x)%Z)
    (map (pickOfRound (leagueSize settings) (draftSlot settings))
       (seqZ r0 (rounds settings - r0 + 1))).

(** The overall picks that the scanning version attributes to the
    self-owner. *)
Definition isMine (leagueSize draftSlot x : Z) : Prop :=
  Scan.drafter leagueSize x = Some draftSlot.

#[global] Instance isMine_dec (leagueSize draftSlot x : Z) :
  Decision (isMine leagueSize draftSlot x).
Proof. unfold isMine. apply _. Defined.

(** ** Sample data *)

Definition sampleSettings : DraftSettings := mkSettings 12 6 16 ppr 0.6 1.0.

Definition samplePlayer (i : string) (pos : Position) (w : Z) (a pts : Q)
  : Player :=
  mkPlayer i i pos None (Some w) (Some a) (Some pts) None None.

Definition noPicks : Position → nat := λ _, 0%nat.

Definition qb1 : Player := samplePlayer "qb1" QB 7 30 320.
Definition qb2 : Player := samplePlayer "qb2" QB 9 60 290.
Definition rb1 : Player := samplePlayer "rb1" RB 7 3 280.
Definition rb2 : Player := samplePlayer "rb2" RB 7 8 260.
Definition rb3 : Player := samplePlayer "rb3" RB 11 15 240.
Definition wr1 : Player := samplePlayer "wr1" WR 6 5 270.
Definition te1 : Player := samplePlayer "te1" TE 10 40 180.
Definition te2 : Player := samplePlayer "te2" TE 12 70 150.
Definition te3 : Player := samplePlayer "te3" TE 5 90 130.
Definition k1 : Player := samplePlayer "k1" K 8 150 120.

Definition sampleCatalog : list Player :=
  [qb1; qb2; rb1; rb2; rb3; wr1; te1; te2; te3; k1].

(** A draft log: the self-owner takes three running backs and two tight
    ends, another drafter takes a quarterback in between. *)
Definition sampleLog : list Pick :=
  [mkPick "rb1" me 1; mkPick "qb1" other 2; mkPick "rb2" me 3;
   mkPick "rb3" me 4; mkPick "te1" me 5; mkPick "te2" me 6].

(** The second quarterback of the catalog is taken. *)
Definition inputsQbTaken : ModelInputs :=
  mkInputs sampleSettings emptyRoster {["qb2"]} sampleCatalog noPicks.

(** The roster and taken set derived from [sampleLog], with its positional
    counts; the third tight end of the catalog is still available. *)
Definition inputsTwoTightEnds : ModelInputs :=
  mkInputs sampleSettings
    (yourRoster sampleCatalog (yourIds sampleLog))
    (takenSet sampleLog)
    sampleCatalog
    (λ pos, match pos with QB => 1 | RB => 3 | TE => 2 | _ => 0 end%nat).

(** A running back whose ADP value is zero, alone in the catalog. *)
Definition rbZeroAdp : Player :=
  mkPlayer "rb0" "rb0" RB None (Some 7%Z) (Some 0) (Some 200) None None.

Definition inputsZeroAdp : ModelInputs :=
  mkInputs sampleSettings emptyRoster ∅ [rbZeroAdp] noPicks.

(** An empty draft log with the default settings: nothing taken, nothing
    rostered. *)
Definition inputsEmptyLog : ModelInputs :=
  mkInputs sampleSettings emptyRoster ∅ sampleCatalog noPicks.

(** A quarterback and a running back whose scores before the round
    priority coincide on an empty roster under PPR scoring:
    [133.28 × 1.0 × 1.18 = 118 × 0.98 × 1.36]. *)
Definition qbEven : Player := samplePlayer "qbE" QB 7 50 133.28.
Definition rbEven : Player := samplePlayer "rbE" RB 9 50 118.

Definition inputsRoundOne : ModelInputs :=
  mkInputs sampleSettings emptyRoster ∅ [qbEven; rbEven] noPicks.

(** Three more running backs, all with bye week 9. *)
Definition rb5 : Player := samplePlayer "rb5" RB 9 25 190.
Definition rb6 : Player := samplePlayer "rb6" RB 9 35 170.
Definition rb7 : Player := samplePlayer "rb7" RB 9 45 160.

Definition benchCatalog : list Player := sampleCatalog ++ [rb5; rb6; rb7].

(** A draft log in which the self-owner takes five running backs: two fill
    RB, one fills FLEX, and the last two, which share bye week 9, go to
    BENCH. *)
Definition benchLog : list Pick :=
  [mkPick "rb1" me 1; mkPick "rb2" me 2; mkPick "rb3" me 3;
   mkPick "rb5" me 4; mkPick "rb6" me 5].

(** The roster and taken set derived from [benchLog], with its positional
    counts; [rb7] is still available. *)
Definition inputsBenchedByes : ModelInputs :=
  mkInputs sampleSettings
    (yourRoster benchCatalog (yourIds benchLog))
    (takenSet benchLog)
    benchCatalog
    (λ pos, match pos with RB => 5 | _ => 0 end%nat).

(** Two receivers that differ only in their quarterback's pass attempts. *)
Definition wrLowVolume : Player :=
  mkPlayer "wrL" "wrL" WR None (Some 6%Z) (Some 40) (Some 210) (Some 500) (Some 0.1).
Definition wrHighVolume : Player :=
  mkPlayer "wrH" "wrH" WR None (Some 6%Z) (Some 40) (Some 210) (Some 610) (Some 0.1).

(** ** Draft board *)

(** [getRoundAndSlot(overallPick, leagueSize)].  The slot is [None] when the
    arithmetic yields NaN, which happens exactly when the round is not a
    finite number (a zero league size). *)
Definition getRoundAndSlot (overallPick leagueSize : Z) : jsnum * option Z :=
  let round := ceilDiv overallPick leagueSize in
  match round with
  | Fin r =>
      let pickInRound := (Z.rem (overallPick - 1) leagueSize + 1)%Z in
      let slot :=
        if (Z.rem r 2 =? 1)%Z then pickInRound
        else (leagueSize - pickInRound + 1)%Z in
      (round, Some slot)
  | _ => (round, None)
  end.

(** The grid is a [(Player | null)[][]], indexed [round - 1] then
    [slot - 1]: a list of rows of optional players. *)

(** [Array.from({ length: rounds }, () => Array.from({ length: leagueSize },
    () => null))]; a negative length gives an empty array. *)
Definition emptyGrid (rounds leagueSize : Z) : list (list (option Player)) :=
  replicate (Z.to_nat rounds) (replicate (Z.to_nat leagueSize) None).

(** [new Map(players.map((p) => [p.id, p]))]: the entries are set in catalog
    order, so a later player replaces an earlier one with the same id. *)
Definition byIdMap (players : list Player) : gmap string Player :=
  fold_left (λ m p, <[player_id p := p]> m) players ∅.

(** [grid[r][s] = v] for indexes within the grid; [buildTakenGrid] never
    writes outside it (see [gridStep_in_range]). *)
Definition setCell (grid : list (list (option Player))) (r s : nat)
  (v : option Player) : list (list (option Player)) :=
  alter (λ row, <[s := v]> row) r grid.

(** [grid[r][s]] for indexes within the grid. *)
Definition cell (grid : list (list (option Player))) (r s : nat)
  : option (option Player) :=
  grid !! r ≫= (λ row, row !! s).

(** Body of the loop over the picks, for the pick at index [i]. *)
Definition gridStep (byId : gmap string Player) (leagueSize rounds : Z)
  (grid : list (list (option Player))) (i : nat) (pk : Pick) : list (list (option Player)) :=
  let overall := (Z.of_nat i + 1)%Z in
  match getRoundAndSlot overall leagueSize with
  | (Fin round, Some slot) =>
      if (1 <=? round)%Z && (round <=? rounds)%Z
      then setCell grid (Z.to_nat (round - 1)) (Z.to_nat (slot - 1))
             (byId !! pick_player_id pk)
      else grid
  | _ => grid
  end.

(** [for (let i = 0; i < picks.length; i++)], from index [i] on. *)
Fixpoint gridLoop (byId : gmap string Player) (leagueSize rounds : Z)
  (i : nat) (picks : list Pick) (grid : list (list (option Player))) : list (list (option Player)) :=
  match picks with
  | [] => grid
  | pk :: rest =>
      gridLoop byId leagueSize rounds (S i) rest
        (gridStep byId leagueSize rounds grid i pk)
  end.

Definition buildTakenGrid (picks : list Pick) (players : list Player)
  (settings : DraftSettings) : list (list (option Player)) :=
  gridLoop (byIdMap players) (leagueSize settings) (rounds settings) 0 picks
    (emptyGrid (rounds settings) (leagueSize settings)).

(** ** Views derived from the draft log *)

(** [players.filter((p) => !takenSet.has(p.id))] *)
Definition availablePlayers (players : list Player) (picks : list Pick)
  : list Player :=
  filter (λ p, player_id p ∉ takenSet picks) players.

(** The [playersByPos] memo: the available players pushed to the list of
    their position, each list then sorted by decreasing projection. *)
Definition playersByPos (players : list Player) (picks : list Pick)
  (pos : Position) : list Player :=
  sortDesc projOf
    (fold_left (λ m p, pset m (position p) (m (position p) ++ [p]))
       (availablePlayers players picks) (λ _, []) pos).

(** The [rosterCounts] memo: [counts[p.position]++] for every own pick that
    resolves in the catalog. *)
Definition rosterCounts (players : list Player) (ids : list string)
  : Position → nat :=
  fold_left
    (λ counts i,
       match findPlayer players i with
       | Some p => pset counts (position p) (S (counts (position p)))
       | None => counts
       end)
    ids (λ _, 0%nat).

(** The position chip: ["ALL"] or one position. *)
Inductive PosFilter : Set := ALL | Only (pos : Position).

Section Recommended.

(** The string operations of the text filter, [s.toLowerCase()] and
    [s.includes(q)], are taken as given. *)
Variable toLowerCase : string → string.
Variable includes : string → string → bool.

(** The callback of [scored.filter] in the [filtered] memo. *)
Definition keepScored (counts : Position → nat) (posFilter : PosFilter)
  (filter : string) (s : Scored) : bool :=
  let pos := position (player s) in
  if match MAX_BY_POSITION pos with
     | Some cap => (cap <=? Z.of_nat (counts pos))%Z
     | None => false
     end
  then false
  else if match posFilter with
          | ALL => false
          | Only want => bool_decide (pos ≠ want)
          end
  then false
  else if bool_decide (filter ≠ "")
  then
    let q := toLowerCase filter in
    if negb (includes (toLowerCase (player_name (player s))) q)
       && negb (includes (toLowerCase (default "" (team (player s)))) q)
    then false
    else true
  else true.

Definition filtered (scored : list Scored) (counts : Position → nat)
  (posFilter : PosFilter) (filter : string) : list Scored :=
  List.filter (keepScored counts posFilter filter) scored.

(** [filtered.slice(0, 18)] *)
Definition myRecommended (scored : list Scored) (counts : Position → nat)
  (posFilter : PosFilter) (filter : string) : list Scored :=
  take 18 (filtered scored counts posFilter filter).

End Recommended.

(** The ranking inputs the application derives from its state: the catalog,
    the draft log, the server's positional counts and the settings. *)
Definition appInputs (settings : DraftSettings) (players : list Player)
  (picks : list Pick) (counts : Position → nat) : ModelInputs :=
  mkInputs settings (yourRoster players (yourIds picks)) (takenSet picks)
    players counts.

(** [myUpcoming[0] ?? null] *)
Definition nextOverall (settings : DraftSettings) (picks : list Pick)
  : option Z :=
  head (Walk.getUpcomingPickIndexes settings (length picks) 12).

(** [nextOverall ? Math.max(0, nextOverall - currentOverall) : null]; a
    zero [nextOverall] is falsy. *)
Definition picksUntil (settings : DraftSettings) (picks : list Pick)
  : option Z :=
  let currentOverall := (Z.of_nat (length picks) + 1)%Z in
  match nextOverall settings picks with
  | Some n => if (n =? 0)%Z then None else Some (Z.max 0 (n - currentOverall))
  | None => None
  end.

(** ** The earlier ranking engine *)

(** The first version of [rankPlayers]: no caps, no round priority and no bye
    adjustment; a single need boost replaces the starter and bench
    multipliers.  Baselines, run bias, quarterback context and ADP help are
    computed as in the current version. *)
Module Legacy.

Section Engine.

Variable inp : ModelInputs.

Let roster := in_yourRoster inp.

(** [(yourRoster[pos]?.length || 0) + ((pos !== "DST" && pos !== "K" &&
    (yourRoster["FLEX"]?.filter(...).length || 0)) || 0)]: the conjunction
    is [false] or the count, and a falsy value becomes 0. *)
Definition countOnRoster (pos : Position) : Z :=
  let inFlex :=
    Z.of_nat (length (filter (λ p, position p = pos) (roster FLEX))) in
  (Z.of_nat (length (roster (slotOf pos)))
   + (if bool_decide (pos ≠ DST)
      then if bool_decide (pos ≠ K)
           then (if (inFlex =? 0)%Z then 0 else inFlex)
           else 0
      else 0))%Z.

Definition needCount (pos : Position) : Q :=
  let base := ROSTER_TEMPLATE (slotOf pos) in
  let flexOpen :=
    Z.max 0 (ROSTER_TEMPLATE FLEX - Z.of_nat (length (roster FLEX))) in
  let fractionalFlex :=
    if flexEligible pos
    then inject_Z flexOpen / inject_Z (Z.of_nat (length FLEX_ELIGIBLE))
    else 0 in
  Qmax 0 (inject_Z base + fractionalFlex - inject_Z (countOnRoster pos)).

Definition needBoost (p : Player) : Q :=
  Qmin 1.25 (1 + 0.2 * needCount (position p)).

Definition finalScore (p : Player) : Q :=
  rawScore inp p * needBoost p * pivotBonus inp p + adpHelp p.

Definition explainOf (p : Player) : string :=
  "base=" +:+ toFixed (base inp p) 1
    +:+ " vor=" +:+ toFixed (vor inp p) 1
    +:+ " qbAdj=" +:+ toFixed (qbAdj inp p) 1
    +:+ " needBoost=" +:+ toFixed (needBoost p) 2
    +:+ " pivot=" +:+ toFixed (pivotBonus inp p) 2
    +:+ " adpHelp=" +:+ toFixed (adpHelp p) 2.

Definition scoreStep (scored : list Scored) (p : Player) : list Scored :=
  if decide (player_id p ∈ in_takenIds inp) then scored
  else scored ++ [mkScored p (finalScore p) (explainOf p)].

Definition rankPlayers : list Scored :=
  sortDesc score (fold_left scoreStep (in_playerPool inp) []).

End Engine.

End Legacy.

(** ** The engine as a program over the application's objects *)

(** [rankPlayers] receives references to objects that the application
    holds: the settings, the roster object, the [Set] of taken ids, the
    catalog array and the object of positional counts.  Here the engine is
    written as a program that runs on a store holding these objects in
    their JavaScript representation, next to everything else the
    application holds, and that returns the store it leaves behind.  Every
    read of a shared object is a step of the program; the objects the
    function allocates itself ([byeCounts], [byPos], [replacementValue],
    [runBias], [scored]) are reachable from nowhere else and are carried
    as values, updated as in the functional model above.  The module-level
    tables are [const] bindings of literals that no statement of the file
    assigns to; they are constants here as well. *)

(** A property read [o[k]] on an object given by its own properties in
    insertion order; [None] is [undefined]. *)
Fixpoint getProp {K V : Type} `{EqDecision K} (o : list (K * V)) (k : K)
  : option V :=
  match o with
  | [] => None
  | (k', v) :: o' => if decide (k' = k) then Some v else getProp o' k
  end.

(** An object of type [Record<Position, number>]: each of the six position
    keys occurs once, in any order. *)
Definition isRecord {V : Type} (o : list (Position * V)) : Prop :=
  map fst o ≡ₚ all_positions.

Declare Scope prog_scope.

Module Shared.

Local Open Scope prog_scope.

Section Store.

(** Whatever else the application holds: the other state of the
    component, the draft log, module state. *)
Context {Rest : Type}.

(** The taken ids are a [Set<string>], given by its elements in insertion
    order; roster and counts are objects, given by their properties in
    insertion order, which is the order of [Object.keys] and
    [Object.values]. *)
Record Store : Type := mkStore {
  st_settings : DraftSettings;
  st_yourRoster : list (Slot * list Player);
  st_takenIds : list string;
  st_playerPool : list Player;
  st_picksByPos : list (Position * nat);
  st_rest : Rest
}.

(** A computation that may read and write the store. *)
Definition M (A : Type) : Type := Store → A * Store.

Definition ret {A : Type} (a : A) : M A := λ st, (a, st).

Definition bind {A B : Type} (m : M A) (f : A → M B) : M B :=
  λ st, f (m st).1 (m st).2.

Notation "x ← y ; z" := (bind y (λ x, z)) (only parsing) : prog_scope.

(** Reading from a shared object. *)
Definition load {A : Type} (f : Store → A) : M A := λ st, (f st, st).

(** A loop over an array or over the keys of an object; [acc] is the local
    object that the loop body updates. *)
Fixpoint forEach {X A : Type} (body : A → X → M A) (l : list X) (acc : A)
  : M A :=
  match l with
  | [] => ret acc
  | x :: l' => acc' ← body acc x; forEach body l' acc'
  end.

(** [takenIds.has(i)] *)
Definition has (i : string) : M bool :=
  load (λ st, bool_decide (i ∈ st_takenIds st)).

(** [yourRoster[slot]] *)
Definition rosterProp (s : Slot) : M (option (list Player)) :=
  load (λ st, getProp (st_yourRoster st) s).

(** [x?.length || 0] *)
Definition lengthOr0 (x : option (list Player)) : Z :=
  default 0%Z (Z.of_nat ∘ length <$> x).

(** [const weights = scoringWeights[settings.scoring]] *)
Definition weights : M (Position → Q) :=
  settings ← load st_settings;
  ret (scoringWeights (scoring settings)).

(** [(yourRoster[pos]?.length || 0) + (pos !== "DST" && pos !== "K" ?
    yourRoster["FLEX"]?.filter((p) => p.position === pos).length || 0 : 0)] *)
Definition countOnRoster (pos : Position) : M Z :=
  own ← rosterProp (slotOf pos);
  if bool_decide (pos ≠ DST) && bool_decide (pos ≠ K)
  then
    flex ← rosterProp FLEX;
    ret (lengthOr0 own
          + lengthOr0 (filter (λ p, position p = pos) <$> flex))%Z
  else ret (lengthOr0 own + 0)%Z.

Definition startersRemaining (pos : Position) : M Z :=
  own ← rosterProp (slotOf pos);
  let have := lengthOr0 own in
  let need := STARTERS_ONLY pos in
  ret (Z.max 0 (need - have)).

Definition flexOpen : M Z :=
  flex ← rosterProp FLEX;
  ret (Z.max 0 (ROSTER_TEMPLATE FLEX - lengthOr0 flex)).

(** The [forEach] over the six positions that fills [byeCounts]: the list
    is [(yourRoster[pos] || []).concat(...)], a fresh array. *)
Definition byeCounts : M (Position → gmap string nat) :=
  forEach
    (λ (byeCounts : Position → gmap string nat) (pos : Position),
       own ← rosterProp (slotOf pos);
       if bool_decide (pos ≠ DST) && bool_decide (pos ≠ K)
       then
         flex ← rosterProp FLEX;
         let list := default [] own
                       ++ filter (λ p, position p = pos) (default [] flex) in
         ret (pset byeCounts pos (fold_left tally list (byeCounts pos)))
       else
         let list := default [] own ++ [] in
         ret (pset byeCounts pos (fold_left tally list (byeCounts pos))))
    all_positions (λ _, ∅).

(** [playerPool.forEach((p) => { if (!takenIds.has(p.id))
    byPos[p.position].push(p); })], then the in-place sort of each of the
    six fresh arrays. *)
Definition byPos : M (Position → list Player) :=
  playerPool ← load st_playerPool;
  grouped ←
    forEach
      (λ (byPos : Position → list Player) (p : Player),
         taken ← has (player_id p);
         ret (if taken then byPos
               else pset byPos (position p) (byPos (position p) ++ [p])))
      playerPool (λ _, []);
  ret (fold_left (λ byPos pos, pset byPos pos (sortDesc projOf (byPos pos)))
          all_positions grouped).

(** The [forEach] that fills [replacementValue]; it reads only [byPos]. *)
Definition replacementValue (byPos : Position → list Player) : Position → Q :=
  fold_left
    (λ replacementValue pos,
       let idx := Z.min (replacementRank pos - 1)
                        (Z.of_nat (length (byPos pos)) - 1) in
       pset replacementValue pos
         (if (0 <=? idx)%Z
          then match byPos pos !! Z.to_nat idx with
               | Some p => projOf p
               | None => 0
               end
          else 0))
    all_positions (λ _, 0).

(** [Object.values(picksByPos).reduce((a, b) => a + b, 0)] *)
Definition sumOfCounts : M Z :=
  values ← load (λ st, map snd (st_picksByPos st));
  ret (fold_left (λ a b, (a + Z.of_nat b)%Z) values 0%Z).

(** [Object.keys(picksByPos).forEach((pos) => { ... })].  The key [pos] is
    one of the object's own keys, so [picksByPos[pos]] is a number. *)
Definition runBias (totalTaken : Z) : M (Position → Q) :=
  keys ← load (λ st, map fst (st_picksByPos st));
  forEach
    (λ (runBias : Position → Q) (pos : Position),
       count ← load (λ st, getProp (st_picksByPos st) pos);
       let actual := inject_Z (Z.of_nat (default 0%nat count))
                     / inject_Z totalTaken in
       settings ← load st_settings;
       ret (pset runBias pos
               (runSensitivity settings * (actual - orElse (evenShare pos) 0))))
    keys (λ _, 0).

(** [let qbAdj = 0; if ((p.position === "WR" || p.position === "TE") &&
    settings.teamQBInfluence > 0) { ... }] *)
Definition qbAdj (p : Player) : M Q :=
  if bool_decide (position p = WR) || bool_decide (position p = TE)
  then
    settings ← load st_settings;
    if Qltb 0 (teamQBInfluence settings)
    then
      let passAtt := default 550 (qb_pass_att p) in
      let qbRun := Qmin (Qmax (default 0.2 (qb_rush_share p)) 0) 0.8 in
      ret (teamQBInfluence settings
           * ((passAtt - 520) * 0.02 + (0.3 - qbRun) * 20))
    else ret 0
  else ret 0.

(** The part of the loop body after the two [continue] tests. *)
Definition scoreEligible (weights : Position → Q) (flexOpen : Z)
  (byeCounts : Position → gmap string nat) (replacementValue : Position → Q)
  (runBias : Position → Q) (currentRound : jsnum)
  (scored : list Scored) (p : Player) : M (list Scored) :=
  let base := projOf p * orElse (weights (position p)) 1.0 in
  let vor := projOf p - orElse (replacementValue (position p)) 0 in
  qbAdj ← qbAdj p;
  startersLeft ← startersRemaining (position p);
  let fractionalFlex :=
    if flexEligible (position p) && (0 <? flexOpen)%Z
    then inject_Z flexOpen / inject_Z (Z.of_nat (length FLEX_ELIGIBLE))
    else 0 in
  let needUnits := inject_Z startersLeft + fractionalFlex in
  let starterBoost := if (0 <? startersLeft)%Z then 1.35 else 1.0 in
  let benchDamp := if (startersLeft =? 0)%Z then 0.93 else 1.0 in
  let pivotBonus := 1 + Qmax 0 (0.15 - Qmax 0 (runBias (position p))) in
  let adpHelp :=
    match adp p with
    | Some a => if Qeq_bool a 0 then 0 else Qmax 0 ((100 - a) * 0.01)
    | None => 0
    end in
  let prio := priorityWeight (position p) currentRound in
  let byeAdj :=
    match bye p with
    | Some w =>
        let k := pretty w in
        let already := default 0%nat (byeCounts (position p) !! k) in
        if (2 <=? already)%nat then 1.0 * 0.94
        else if (already =? 1)%nat then 1.0 * 0.98
        else 1.0
    | None => 1.0
    end in
  let score := base + vor * 1.4 + qbAdj in
  let finalScore :=
    score
      * (1 + 0.18 * Qmin 2 needUnits)
      * starterBoost
      * benchDamp
      * pivotBonus
      * prio
      * byeAdj
    + adpHelp in
  ret (scored
         ++ [mkScored p finalScore
               ("base=" +:+ toFixed base 1
                  +:+ " vor=" +:+ toFixed vor 1
                  +:+ " qbAdj=" +:+ toFixed qbAdj 1
                  +:+ " starterBoost=" +:+ toFixed starterBoost 2
                  +:+ " prio=" +:+ toFixed prio 2
                  +:+ " pivot=" +:+ toFixed pivotBonus 2
                  +:+ " byeAdj=" +:+ toFixed byeAdj 2
                  +:+ " adpHelp=" +:+ toFixed adpHelp 2)]).

(** The body of [for (const p of playerPool)]: a taken player is skipped,
    and so is a player whose position has a cap that [countOnRoster] has
    reached; [countOnRoster] is called only for a position with a cap. *)
Definition scoreCandidate (weights : Position → Q) (flexOpen : Z)
  (byeCounts : Position → gmap string nat) (replacementValue : Position → Q)
  (runBias : Position → Q) (currentRound : jsnum)
  (scored : list Scored) (p : Player) : M (list Scored) :=
  taken ← has (player_id p);
  if taken then ret scored
  else
    match MAX_BY_POSITION (position p) with
    | Some cap =>
        onRoster ← countOnRoster (position p);
        if (cap <=? onRoster)%Z then ret scored
        else scoreEligible weights flexOpen byeCounts replacementValue
               runBias currentRound scored p
    | None =>
        scoreEligible weights flexOpen byeCounts replacementValue
          runBias currentRound scored p
    end.

(** [function rankPlayers({ settings, yourRoster, takenIds, playerPool,
    picksByPos })], statement by statement. *)
Definition rankPlayers : M (list Scored) :=
  weights ← weights;
  flexOpen ← flexOpen;
  byeCounts ← byeCounts;
  byPos ← byPos;
  let replacementValue := replacementValue byPos in
  total ← sumOfCounts;
  let totalTaken := if (total =? 0)%Z then 1%Z else total in
  runBias ← runBias totalTaken;
  totalPicksMade ← sumOfCounts;
  settings ← load st_settings;
  let currentRound :=
    jsMax1 (ceilDiv (totalPicksMade + 1) (leagueSize settings)) in
  playerPool ← load st_playerPool;
  scored ←
    forEach
      (scoreCandidate weights flexOpen byeCounts replacementValue runBias
         currentRound)
      playerPool [];
  ret (sortDesc score scored).

(** The value of the shared objects as [ModelInputs]: a roster key that is
    absent reads as the empty list, the taken ids as the set of the
    elements. *)
Definition inputsOf (st : Store) : ModelInputs :=
  mkInputs (st_settings st)
    (λ s, default [] (getProp (st_yourRoster st) s))
    (list_to_set (st_takenIds st))
    (st_playerPool st)
    (λ pos, default 0%nat (getProp (st_picksByPos st) pos)).

End Store.

Arguments Store : clear implicits.
Arguments M : clear implicits.

(** Two stores hold equal ranking inputs: the same settings and catalog,
    the same members of the taken set, the same players under every roster
    key and the same count under every position key.  Insertion orders and
    the rest of the two stores are unconstrained. *)
Definition equalInputs {Rest Rest' : Type} (a : Store Rest) (b : Store Rest')
  : Prop :=
  st_settings a = st_settings b
  ∧ st_playerPool a = st_playerPool b
  ∧ (∀ i, i ∈ st_takenIds a ↔ i ∈ st_takenIds b)
  ∧ (∀ s, default [] (getProp (st_yourRoster a) s)
          = default [] (getProp (st_yourRoster b) s))
  ∧ (∀ pos, getProp (st_picksByPos a) pos = getProp (st_picksByPos b) pos).

End Shared.

(** ** Auxiliary notions for the properties below *)

(** Two stores after the same two picks.  The taken ids were inserted in
    different orders, the roster and count objects list their keys in
    different orders (the second roster object has no key for an empty
    slot), and the rest of the store, here the text of the search box,
    differs. *)
Definition storeOne : Shared.Store string :=
  Shared.mkStore sampleSettings
    [(SlotQB, []); (SlotRB, [rb1]); (SlotWR, []); (SlotTE, []); (FLEX, []);
     (SlotK, []); (SlotDST, []); (BENCH, []); (IR, [])]
    ["rb1"; "qb1"]
    sampleCatalog
    [(QB, 1%nat); (RB, 1%nat); (WR, 0%nat); (TE, 0%nat); (DST, 0%nat);
     (K, 0%nat)]
    "dj".

Definition storeTwo : Shared.Store string :=
  Shared.mkStore sampleSettings
    [(SlotRB, [rb1])]
    ["qb1"; "rb1"]
    sampleCatalog
    [(K, 0%nat); (DST, 0%nat); (TE, 0%nat); (WR, 0%nat); (RB, 1%nat);
     (QB, 1%nat)]
    "kel".

(** A grid of [R] rows of [L] cells. *)
Definition gridShape (R L : nat) (g : list (list (option Player))) : Prop :=
  length g = R ∧ Forall (λ row, length row = L) g.

#[global] Instance Qeq_decision (x y : Q) : Decision (x == y) := Qeq_dec x y.

(** The entries of a list whose score is [v], in the order of the list. *)
Definition tiedAt (v : Q) (l : list Scored) : list Scored :=
  filter (λ s, score s == v) l.

(** The players of a ranking, in order. *)
Definition rankedPlayers (l : list Scored) : list Player := map player l.

(** The index in the draft log of the pick shown in row [r], column [s] of
    the board (both 0-based). *)
Definition boardIndex (leagueSize : Z) (r s : nat) : nat :=
  Z.to_nat (pickOfRound leagueSize (Z.of_nat s + 1) (Z.of_nat r + 1) - 1).

(** A draft log in which three picks were made in a league of two. *)
Definition boardSettings : DraftSettings := mkSettings 2 1 3 ppr 0.6 1.0.

Definition boardLog : list Pick :=
  [mkPick "rb1" me 1; mkPick "qb1" other 2; mkPick "wr1" other 3].

Local Open Scope Z_scope.
Local Open Scope Q_scope.

(** * Properties *)

(** ** Roster projector *)

Lemma findSlot_greedy (p : Player) (r : Roster) :
  findSlotForPlayer p r = greedySlot p r.
Proof.
  unfold findSlotForPlayer, greedySlot, need, flexEligible, FLEX_ELIGIBLE.
  destruct (position p) eqn:Hpos; simpl;
    repeat (case_bool_decide; try congruence; simpl);
    repeat (case_decide; simpl);
    repeat match goal with
           | |- context [(?a <? ?b)%Z] => destruct (Z.ltb_spec a b); simpl
           end;
    try reflexivity; try lia;
    try (exfalso; set_solver);
    try (exfalso; naive_solver lia).
Qed.

Lemma findPlayer_id (players : list Player) (i : string) (p : Player) :
  findPlayer players i = Some p → player_id p = i.
Proof.
  unfold findPlayer. intros H. apply find_some in H as [_ H].
  by apply bool_decide_eq_true in H.
Qed.

Lemma chosenPlayers_app (players : list Player) (l k : list string) :
  chosenPlayers players (l ++ k)
  = chosenPlayers players l ++ chosenPlayers players k.
Proof. apply omap_app. Qed.

Lemma chosenPlayers_ids (players : list Player) (ids : list string) :
  Forall (λ i, is_Some (findPlayer players i)) ids →
  map player_id (chosenPlayers players ids) = ids.
Proof.
  induction 1 as [|i ids [p Hp] _ IH]; [reflexivity|].
  change (chosenPlayers players (i :: ids))
    with (from_option (λ q, q :: chosenPlayers players ids)
            (chosenPlayers players ids) (findPlayer players i)).
  rewrite Hp. simpl. rewrite IH. f_equal. by eapply findPlayer_id.
Qed.

Lemma yourRoster_snoc (players : list Player) (pre : list string) (i : string)
  (p : Player) :
  findPlayer players i = Some p →
  yourRoster players (pre ++ [i]) = allocate (yourRoster players pre) p.
Proof.
  intros Hp. unfold yourRoster. rewrite chosenPlayers_app, fold_left_app.
  unfold chosenPlayers at 1. simpl. by rewrite Hp.
Qed.

Lemma allocate_all_prefix (l : list Player) (r : Roster) (s : Slot) :
  r s `prefix_of` fold_left allocate l r s.
Proof.
  revert r. induction l as [|p l IH]; intros r; simpl; [done|].
  etrans; [|apply IH]. unfold allocate, push.
  case_decide; [by apply prefix_app_r|done].
Qed.

Lemma push_concat_notin (r : Roster) (s : Slot) (p : Player) (ss : list Slot) :
  s ∉ ss → concat (map (push r s p) ss) = concat (map r ss).
Proof.
  induction ss as [|s' ss IH]; intros Hs; [reflexivity|]. simpl.
  rewrite IH by set_solver. unfold push at 1.
  case_decide; [set_solver|reflexivity].
Qed.

Lemma push_concat_in (r : Roster) (s : Slot) (p : Player) (ss : list Slot) :
  NoDup ss → s ∈ ss →
  concat (map (push r s p) ss) ≡ₚ concat (map r ss) ++ [p].
Proof.
  induction 1 as [|s' ss Hnot Hnd IH]; intros Hs; [set_solver|]. simpl.
  destruct (decide (s' = s)) as [->|Hne].
  - rewrite push_concat_notin by done. unfold push. rewrite decide_True by done.
    rewrite <- !(assoc_L (++)). apply Permutation_app_head, Permutation_app_comm.
  - unfold push at 1. rewrite decide_False by done.
    rewrite IH by set_solver. by rewrite (assoc_L (++)).
Qed.

Lemma all_slots_complete (s : Slot) : s ∈ all_slots.
Proof. destruct s; compute_done. Qed.

Lemma all_slots_NoDup : NoDup all_slots.
Proof. compute_done. Qed.

Lemma allocate_all_perm (l : list Player) (r : Roster) :
  concat (map (fold_left allocate l r) all_slots)
  ≡ₚ concat (map r all_slots) ++ l.
Proof.
  revert r. induction l as [|p l IH]; intros r; cbn [fold_left].
  - by rewrite app_nil_r.
  - rewrite IH. unfold allocate.
    rewrite push_concat_in by auto using all_slots_NoDup, all_slots_complete.
    by rewrite <- (assoc_L (++)).
Qed.

Lemma concat_slots_unique (r : Roster) (ss : list Slot) (s1 s2 : Slot) (p : Player) :
  NoDup (concat (map r ss)) → s1 ∈ ss → s2 ∈ ss →
  p ∈ r s1 → p ∈ r s2 → s1 = s2.
Proof.
  induction ss as [|s ss IH]; intros Hnd H1 H2 Hp1 Hp2; [set_solver|].
  simpl in Hnd. apply NoDup_app in Hnd as (_ & Hdisj & Hnd).
  assert (Hin : ∀ s', s' ∈ ss → p ∈ r s' → p ∈ concat (map r ss)).
  { intros s' Hs' Hp. apply list_elem_of_In, in_concat.
    exists (r s'). split; [apply in_map|]; by apply list_elem_of_In. }
  apply elem_of_cons in H1 as [->|H1], H2 as [->|H2]; try done.
  - exfalso. eapply Hdisj; eauto.
  - exfalso. eapply Hdisj; eauto.
  - by apply IH.
Qed.

(** C5.  The projector handles the self-owned picks in draft order; each
    picked player goes to the first applicable of its own starter slot (while
    the template capacity is not reached), FLEX (for RB, WR and TE, while
    FLEX is empty) and BENCH; and the slots built from a prefix of the picks
    stay prefixes of the final slots, so no assignment is revised later. *)
Theorem roster_projector_greedy (players : list Player) (ids : list string) :
  Forall (λ i, is_Some (findPlayer players i)) ids →
  map player_id (chosenPlayers players ids) = ids
  ∧ ∀ pre i post p,
      ids = pre ++ i :: post →
      findPlayer players i = Some p →
      let before := yourRoster players pre in
      (∀ s, yourRoster players (pre ++ [i]) s
            = if decide (s = greedySlot p before) then before s ++ [p]
              else before s)
      ∧ (∀ s, yourRoster players (pre ++ [i]) s
              `prefix_of` yourRoster players ids s).
Proof.
  intros Hres. split; [by apply chosenPlayers_ids|].
  intros pre i post p -> Hp before. split; intros s.
  - rewrite (yourRoster_snoc _ _ _ _ Hp). unfold allocate, push.
    by rewrite findSlot_greedy.
  - replace (pre ++ i :: post) with ((pre ++ [i]) ++ post)
      by (by rewrite <- (assoc_L (++))).
    unfold yourRoster at 2. rewrite chosenPlayers_app, fold_left_app.
    apply allocate_all_prefix.
Qed.

Lemma roster_projector_greedy_witness :
  yourRoster sampleCatalog (["rb1"; "rb2"] ++ ["rb3"]) FLEX = [rb3]
  ∧ yourRoster sampleCatalog (["rb1"; "rb2"] ++ ["rb3"]) BENCH = [].
Proof.
  assert (Hres : Forall (λ i, is_Some (findPlayer sampleCatalog i))
                   ["rb1"; "rb2"; "rb3"; "te1"; "te2"]%string)
    by (repeat constructor; eexists; reflexivity).
  destruct (roster_projector_greedy sampleCatalog _ Hres) as [_ H].
  destruct (H ["rb1"; "rb2"]%string "rb3"%string ["te1"; "te2"]%string rb3
              eq_refl eq_refl) as [Hslot _].
  split; rewrite Hslot; reflexivity.
Defined.

Lemma yourIds_NoDup (picks : list Pick) :
  NoDup (map pick_player_id picks) → NoDup (yourIds picks).
Proof.
  unfold yourIds. induction picks as [|k picks IH]; simpl; [constructor|].
  rewrite NoDup_cons. intros [Hk Hnd]. rewrite filter_cons.
  case_decide; simpl; [|by apply IH].
  apply NoDup_cons. split; [|by apply IH].
  intros Hin. apply Hk. apply list_elem_of_In, in_map_iff.
  apply list_elem_of_In, in_map_iff in Hin as (k' & Heq & Hin).
  exists k'. split; [done|].
  apply list_elem_of_In. apply list_elem_of_In in Hin.
  by apply list_elem_of_filter in Hin as [_ ?].
Qed.

(** C6.  When every self-owned pick resolves in the catalog, the slot
    categories of the derived roster together hold exactly the picked
    players (each pick is placed once), their sizes add up to the number of
    self-owned picks, and, a player id occurring at most once in the log,
    every self-owned player is in exactly one slot category. *)
Theorem roster_partition (players : list Player) (picks : list Pick) :
  Forall (λ i, is_Some (findPlayer players i)) (yourIds picks) →
  let r := yourRoster players (yourIds picks) in
  concat (map r all_slots) ≡ₚ chosenPlayers players (yourIds picks)
  ∧ sum_list (map (λ s, length (r s)) all_slots)
    = length (filter (λ k, owner k = me) picks)
  ∧ (NoDup (map pick_player_id picks) →
     ∀ p, p ∈ chosenPlayers players (yourIds picks) →
          ∃ s, p ∈ r s ∧ ∀ s', p ∈ r s' → s' = s).
Proof.
  intros Hres r.
  assert (Hperm : concat (map r all_slots)
                  ≡ₚ chosenPlayers players (yourIds picks)).
  { unfold r, yourRoster. rewrite allocate_all_perm. reflexivity. }
  split; [done|]. split.
  - transitivity (length (concat (map r all_slots))).
    + unfold all_slots. simpl. rewrite !length_app. simpl. lia.
    + rewrite Hperm.
      rewrite <- (length_map player_id), chosenPlayers_ids by done.
      unfold yourIds. by rewrite length_map.
  - intros Hlog p Hp.
    assert (Hnd : NoDup (concat (map r all_slots))).
    { rewrite Hperm. apply (NoDup_fmap_1 player_id).
      change (NoDup (map player_id (chosenPlayers players (yourIds picks)))).
      rewrite chosenPlayers_ids by done. by apply yourIds_NoDup. }
    rewrite <- Hperm in Hp.
    apply list_elem_of_In, in_concat in Hp as (l & Hl & Hin).
    apply in_map_iff in Hl as (s & <- & _).
    exists s. split; [by apply list_elem_of_In|].
    intros s' Hs'. eapply concat_slots_unique;
      eauto using all_slots_complete. by apply list_elem_of_In.
Qed.

Lemma roster_partition_witness :
  sum_list (map (λ s, length (yourRoster sampleCatalog (yourIds sampleLog) s))
              all_slots) = 5%nat
  ∧ ∃ s, te2 ∈ yourRoster sampleCatalog (yourIds sampleLog) s
         ∧ ∀ s', te2 ∈ yourRoster sampleCatalog (yourIds sampleLog) s' → s' = s.
Proof.
  assert (Hres : Forall (λ i, is_Some (findPlayer sampleCatalog i))
                   (yourIds sampleLog))
    by (repeat constructor; eexists; reflexivity).
  destruct (roster_partition sampleCatalog sampleLog Hres) as (_ & Hsum & Hone).
  split; [exact Hsum|].
  apply Hone.
  - repeat constructor; compute_done.
  - do 4 right. left.
Defined.

(** ** Sorting *)

Section Sorting.

Context {A : Type} (key : A → Q).

Lemma insertDesc_perm (x : A) (l : list A) : insertDesc key x l ≡ₚ x :: l.
Proof.
  induction l as [|y l IH]; simpl; [done|].
  destruct (Qle_bool (key y) (key x)); [done|].
  rewrite IH. apply Permutation_swap.
Qed.

Lemma sortDesc_perm (l : list A) : sortDesc key l ≡ₚ l.
Proof.
  induction l as [|x l IH]; simpl; [done|].
  by rewrite insertDesc_perm, IH.
Qed.

Lemma sortDesc_length (l : list A) : length (sortDesc key l) = length l.
Proof. by rewrite sortDesc_perm. Qed.

Lemma sortDesc_elem (x : A) (l : list A) : x ∈ sortDesc key l ↔ x ∈ l.
Proof. by rewrite sortDesc_perm. Qed.

Lemma insertDesc_sorted (x : A) (l : list A) :
  StronglySorted (keyDesc key) l → StronglySorted (keyDesc key) (insertDesc key x l).
Proof.
  induction 1 as [|y l Hs IH Hall]; simpl.
  - by repeat constructor.
  - destruct (Qle_bool (key y) (key x)) eqn:Hle.
    + apply Qle_bool_iff in Hle. constructor; [by constructor|].
      constructor; [done|].
      eapply Forall_impl; [exact Hall|]. intros z Hz. unfold keyDesc in *.
      eapply Qle_trans; eauto.
    + constructor; [done|].
      assert (Hxy : key x <= key y).
      { apply Qlt_le_weak, Qnot_le_lt. intros Hc.
        apply Qle_bool_iff in Hc. congruence. }
      eapply Permutation_Forall; [symmetry; apply insertDesc_perm|].
      by constructor.
Qed.

Lemma sortDesc_sorted (l : list A) : StronglySorted (keyDesc key) (sortDesc key l).
Proof.
  induction l as [|x l IH]; simpl; [constructor|by apply insertDesc_sorted].
Qed.

End Sorting.

(** ** Replacement baselines *)

Lemma groupStep_fold (taken : gset string) (l : list Player)
  (acc : Position → list Player) (pos : Position) :
  fold_left (groupStep taken) l acc pos = acc pos ++ untakenAt taken l pos.
Proof.
  revert acc. induction l as [|p l IH]; intros acc; simpl.
  - by rewrite app_nil_r.
  - rewrite IH. unfold groupStep, untakenAt, pset. rewrite filter_cons.
    destruct (decide (player_id p ∈ taken)) as [Hin|Hout].
    + rewrite decide_False by tauto. done.
    + destruct (decide (pos = position p)) as [->|Hne].
      * rewrite decide_True by done. by rewrite <- (assoc_L (++)).
      * rewrite decide_False by naive_solver. done.
Qed.

Lemma grouped_untaken (inp : ModelInputs) (pos : Position) :
  grouped inp pos = untakenAt (in_takenIds inp) (in_playerPool inp) pos.
Proof. unfold grouped. by rewrite groupStep_fold. Qed.

Lemma byPos_perm (inp : ModelInputs) (pos : Position) :
  byPos inp pos ≡ₚ untakenAt (in_takenIds inp) (in_playerPool inp) pos.
Proof. unfold byPos. by rewrite sortDesc_perm, grouped_untaken. Qed.

Lemma byPos_sorted (inp : ModelInputs) (pos : Position) :
  StronglySorted byProjectionDesc (byPos inp pos).
Proof. apply (sortDesc_sorted projOf). Qed.

Lemma byPos_position (inp : ModelInputs) (pos : Position) (p : Player) :
  p ∈ byPos inp pos → position p = pos.
Proof.
  rewrite byPos_perm. unfold untakenAt. rewrite list_elem_of_filter. tauto.
Qed.

Lemma replacementRank_pos (pos : Position) : (1 <= replacementRank pos)%Z.
Proof. destruct pos; simpl; lia. Qed.

Lemma replacementValue_rank (inp : ModelInputs) (pos : Position) :
  replacementValue inp pos
  = valueAtRank (replacementRank pos) (byPos inp pos).
Proof.
  unfold replacementValue, valueAtRank, playerAtRank.
  pose proof (replacementRank_pos pos) as Hr.
  set (g := byPos inp pos). set (rk := replacementRank pos) in *.
  destruct (g !! Z.to_nat (rk - 1)) as [p|] eqn:Hlk.
  - apply lookup_lt_Some in Hlk as Hlt.
    rewrite Z.min_l by lia.
    destruct (Z.leb_spec 0 (rk - 1)); [|lia]. by rewrite Hlk.
  - apply lookup_ge_None in Hlk. rewrite Z.min_r by lia.
    rewrite last_lookup.
    destruct (Z.leb_spec 0 (Z.of_nat (length g) - 1)).
    + replace (Z.to_nat (Z.of_nat (length g) - 1)) with (pred (length g)) by lia.
      done.
    + assert (length g = 0%nat) as Hlen by lia.
      apply nil_length_inv in Hlen. by rewrite Hlen.
Qed.

Lemma orElse_zero (x : Q) : orElse x 0 == x.
Proof.
  unfold orElse. destruct (Qeq_bool x 0) eqn:H; [|reflexivity].
  apply Qeq_bool_iff in H. by rewrite H.
Qed.

Lemma vor_spec (inp : ModelInputs) (p : Player) :
  vor inp p == projOf p - replacementValue inp (position p).
Proof. unfold vor. by rewrite orElse_zero. Qed.

Lemma playerAtRank_elem (rank : Z) (g : list Player) (p : Player) :
  playerAtRank rank g = Some p → p ∈ g.
Proof.
  unfold playerAtRank. destruct (g !! Z.to_nat (rank - 1)) as [q|] eqn:Hlk.
  - intros [= <-]. by eapply list_elem_of_lookup_2.
  - rewrite last_lookup. intros Hl. by eapply list_elem_of_lookup_2.
Qed.

(** C1 as stated fails: the baseline is taken over the untaken players
    only.  With the second of two quarterbacks taken, the engine's
    quarterback baseline is the remaining quarterback's 320 points, not the
    290 points of the lowest-ranked quarterback of the whole catalog. *)
Lemma replacement_baseline_all_catalog_fails :
  replacementValue inputsQbTaken QB == 320
  ∧ valueAtRank (replacementRank QB)
      (sortDesc projOf (catalogAt (in_playerPool inputsQbTaken) QB)) == 290
  ∧ ¬ replacementValue inputsQbTaken QB
      == valueAtRank (replacementRank QB)
           (sortDesc projOf (catalogAt (in_playerPool inputsQbTaken) QB)).
Proof.
  assert (H1 : replacementValue inputsQbTaken QB = 320) by (vm_compute; reflexivity).
  assert (H2 : valueAtRank (replacementRank QB)
                 (sortDesc projOf (catalogAt (in_playerPool inputsQbTaken) QB))
               = 290) by (vm_compute; reflexivity).
  rewrite H1, H2. repeat split; try reflexivity. intros H. discriminate H.
Qed.

(** C1, amended.  For every ranking query and position, the engine ranks the
    untaken catalog players of the position by decreasing projection; the
    replacement value is the projection of the player at the fixed
    replacement rank of that ranking, or of its lowest-ranked player when it
    is shorter than the rank, and 0 when it is empty; the VOR of a player is
    the projection minus the replacement value of the position, and the VOR
    of the replacement-rank player is 0. *)
Theorem replacement_baseline (inp : ModelInputs) (pos : Position) :
  let g := byPos inp pos in
  g ≡ₚ untakenAt (in_takenIds inp) (in_playerPool inp) pos
  ∧ StronglySorted byProjectionDesc g
  ∧ replacementValue inp pos = valueAtRank (replacementRank pos) g
  ∧ (∀ p, position p = pos → vor inp p == projOf p - replacementValue inp pos)
  ∧ (∀ p, playerAtRank (replacementRank pos) g = Some p → vor inp p == 0).
Proof.
  intros g. split; [apply byPos_perm|]. split; [apply byPos_sorted|].
  split; [apply replacementValue_rank|]. split.
  - intros p <-. apply vor_spec.
  - intros p Hp. pose proof (playerAtRank_elem _ _ _ Hp) as Hin.
    apply byPos_position in Hin. rewrite vor_spec, Hin, replacementValue_rank.
    unfold valueAtRank. fold g. rewrite Hp. ring.
Qed.

Lemma replacement_baseline_witness : vor inputsQbTaken qb1 == 0.
Proof.
  destruct (replacement_baseline inputsQbTaken QB) as (_ & _ & _ & _ & H).
  apply H. reflexivity.
Defined.

(** ** The scoring loop *)

Lemma scoreStep_fold (inp : ModelInputs) (l : list Player) (acc : list Scored) :
  fold_left (scoreStep inp) l acc
  = acc ++ map (scoredOf inp) (filter (eligible inp) l).
Proof.
  revert acc. induction l as [|p l IH]; intros acc; simpl.
  - by rewrite app_nil_r.
  - rewrite IH, filter_cons. unfold scoreStep, eligible.
    destruct (decide (player_id p ∈ in_takenIds inp)) as [Hin|Hout].
    + rewrite decide_False by tauto. done.
    + destruct (capped inp p) eqn:Hcap.
      * rewrite decide_False by (intros [_ ?]; congruence). done.
      * rewrite decide_True by done. simpl. by rewrite <- (assoc_L (++)).
Qed.

Lemma scoredPlayers_eligible (inp : ModelInputs) :
  scoredPlayers inp = map (scoredOf inp) (filter (eligible inp) (in_playerPool inp)).
Proof. unfold scoredPlayers. by rewrite scoreStep_fold. Qed.

Lemma rankPlayers_elem (inp : ModelInputs) (s : Scored) :
  s ∈ rankPlayers inp
  ↔ ∃ p, s = scoredOf inp p ∧ p ∈ in_playerPool inp ∧ eligible inp p.
Proof.
  unfold rankPlayers. rewrite sortDesc_elem, scoredPlayers_eligible.
  rewrite list_elem_of_In, in_map_iff. split.
  - intros (p & <- & Hp). exists p. split; [done|].
    by apply list_elem_of_In, list_elem_of_filter in Hp as [? ?].
  - intros (p & -> & Hp & He). exists p. split; [done|].
    by apply list_elem_of_In, list_elem_of_filter.
Qed.

Lemma rankPlayers_players (inp : ModelInputs) (p : Player) :
  p ∈ map player (rankPlayers inp)
  ↔ p ∈ in_playerPool inp ∧ (player_id p ∉ in_takenIds inp)
    ∧ capped inp p = false.
Proof.
  rewrite list_elem_of_In, in_map_iff. split.
  - intros (s & <- & Hs). apply list_elem_of_In, rankPlayers_elem in Hs
      as (q & -> & Hq & He). by destruct He.
  - intros (Hp & Ht & Hc). exists (scoredOf inp p). split; [done|].
    apply list_elem_of_In, rankPlayers_elem. by exists p.
Qed.

Lemma capped_spec (inp : ModelInputs) (p : Player) :
  capped inp p = true
  ↔ ∃ cap, MAX_BY_POSITION (position p) = Some cap
           ∧ (cap <= countOnRoster inp (position p))%Z.
Proof.
  unfold capped. destruct (MAX_BY_POSITION (position p)) as [cap|].
  - rewrite Z.leb_le. naive_solver.
  - naive_solver.
Qed.

(** C2.  The engine's cap test counts the self-owner's players in the
    position's starter slot and in FLEX, not those on BENCH.  After the
    sample log the self-owner holds two tight ends (one in TE, one on BENCH
    because a running back occupies FLEX), the tight-end cap is 2, and the
    untaken third tight end is still part of the ranking output. *)
Theorem cap_ignores_bench :
  in_yourRoster inputsTwoTightEnds SlotTE = [te1]
  ∧ in_yourRoster inputsTwoTightEnds BENCH = [te2]
  ∧ heldAt (in_yourRoster inputsTwoTightEnds) TE = 2%nat
  ∧ MAX_BY_POSITION TE = Some 2%Z
  ∧ countOnRoster inputsTwoTightEnds TE = 1%Z
  ∧ te3 ∈ map player (rankPlayers inputsTwoTightEnds).
Proof.
  repeat split; try reflexivity.
  apply rankPlayers_players. split; [|split; [|reflexivity]].
  - apply list_elem_of_In. simpl. tauto.
  - compute_done.
Qed.

Lemma rankPlayers_sorted (inp : ModelInputs) :
  StronglySorted (keyDesc score) (rankPlayers inp).
Proof. apply sortDesc_sorted. Qed.

(** ** The score formula *)

Lemma weights_nonzero (inp : ModelInputs) (pos : Position) :
  orElse (weights inp pos) 1.0
  = scoringWeights (scoring (in_settings inp)) pos.
Proof. unfold weights. by destruct (scoring (in_settings inp)), pos. Qed.

Lemma startersLeft_unfilled (inp : ModelInputs) (p : Player) :
  (0 <? startersLeft inp p)%Z = startersUnfilled (in_yourRoster inp) (position p)
  ∧ (startersLeft inp p =? 0)%Z
    = negb (startersUnfilled (in_yourRoster inp) (position p)).
Proof.
  unfold startersLeft, startersRemaining, startersUnfilled, STARTERS_ONLY.
  set (n := length (in_yourRoster inp (slotOf (position p)))).
  destruct (position p); simpl; case_bool_decide; simpl;
    (split;
     [match goal with |- (0 <? ?x)%Z = _ => destruct (Z.ltb_spec0 0 x) end
     |match goal with |- (?x =? 0)%Z = _ => destruct (Z.eqb_spec x 0) end]);
    try reflexivity; lia.
Qed.

Lemma totalPicksMade_sum (inp : ModelInputs) :
  totalPicksMade inp = picksMade (in_picksByPos inp).
Proof. unfold totalPicksMade, picksMade. simpl. lia. Qed.

Lemma runBias_spec (inp : ModelInputs) (pos : Position) :
  runBias inp pos = runBiasOf inp pos.
Proof.
  unfold runBiasOf, actualShare. rewrite <- totalPicksMade_sum.
  replace (if decide (totalPicksMade inp = 0%Z) then 1%Z else totalPicksMade inp)
    with (totalTaken inp).
  2:{ unfold totalTaken. case_decide as H.
      - by rewrite H.
      - by apply Z.eqb_neq in H as ->. }
  by destruct pos.
Qed.

Lemma adpHelp_nonzero (p : Player) : adpHelp p = adpBonusNonzero p.
Proof.
  unfold adpHelp, adpBonusNonzero. destruct (adp p) as [a|]; [|done].
  destruct (Qeq_dec a 0) as [H|H].
  - apply Qeq_bool_iff in H. by rewrite H.
  - destruct (Qeq_bool a 0) eqn:Hb; [|done].
    by apply Qeq_bool_iff in Hb.
Qed.

Lemma needUnits_useful (inp : ModelInputs) (p : Player) :
  needUnits inp p == usefulSlotsRemaining (in_yourRoster inp) (position p).
Proof.
  unfold needUnits, usefulSlotsRemaining, fractionalFlex, startersLeft,
    startersRemaining, flexOpen, flexEligible, STARTERS_ONLY.
  set (n := length (in_yourRoster inp (slotOf (position p)))).
  set (f := length (in_yourRoster inp FLEX)).
  assert (Hs : (Z.max 0 (ROSTER_TEMPLATE (slotOf (position p)) - Z.of_nat n)
                = Z.of_nat (starterCapacity (position p) - n))%Z)
    by (destruct (position p); simpl; lia).
  assert (Hf : (Z.max 0 (ROSTER_TEMPLATE FLEX - Z.of_nat f)
                = Z.of_nat (1 - f))%Z) by (simpl; lia).
  rewrite Hs, Hf. apply Qplus_comp; [reflexivity|].
  case_bool_decide; rewrite ?decide_True, ?decide_False by done; simpl;
    [|reflexivity].
  destruct (Z.ltb_spec 0 (Z.of_nat (1 - f))); [reflexivity|].
  replace (Z.of_nat (1 - f)) with 0%Z by lia. reflexivity.
Qed.

Lemma finalScore_matches_formula (inp : ModelInputs) (p : Player) :
  finalScore inp p == scoreFormula adpBonusNonzero inp p.
Proof.
  unfold finalScore, scoreFormula, rawScore, base, starterBoost, benchDamp,
    pivotBonus.
  destruct (startersLeft_unfilled inp p) as [-> ->].
  rewrite weights_nonzero, runBias_spec, adpHelp_nonzero, needUnits_useful.
  destruct (startersUnfilled (in_yourRoster inp) (position p)); simpl; ring.
Qed.


(** C3 as stated fails for an ADP value of zero: [p.adp ? ... : 0] treats it
    as absent, so the running back with ADP 0 gets no ADP bonus, while the
    stated formula adds [max(0, (100 − 0) × 0.01) = 1]. *)
Lemma final_score_zero_adp_fails :
  ∃ s, rankPlayers inputsZeroAdp = [s]
       ∧ player s = rbZeroAdp
       ∧ adpHelp rbZeroAdp == 0
       ∧ adpBonusAny rbZeroAdp == 1
       ∧ ¬ score s == scoreFormula adpBonusAny inputsZeroAdp (player s).
Proof.
  eexists. split; [reflexivity|]. split; [reflexivity|].
  split; [reflexivity|]. split; [reflexivity|].
  intros H. vm_compute in H. discriminate H.
Qed.

(** C3, amended.  Every untaken, below-cap catalog player is reported, and
    every reported score equals
    [(base + VOR×1.4 + qbAdjustment) × (1 + 0.18×min(2, usefulSlotsRemaining))
     × starterBoost × benchDamp × pivotBonus × roundPriority × byeAdjustment
     + adpBonus]
    with base, starterBoost, benchDamp and pivotBonus (through runBias and
    actualShare) as stated, and [adpBonus = max(0, (100 − adp) × 0.01)] for
    the players whose ADP value is present and not zero, 0 otherwise. *)
Theorem final_score_formula (inp : ModelInputs) :
  (∀ p, p ∈ in_playerPool inp →
        player_id p ∉ in_takenIds inp →
        capped inp p = false →
        ∃ s, s ∈ rankPlayers inp ∧ player s = p)
  ∧ (∀ s, s ∈ rankPlayers inp →
          score s == scoreFormula adpBonusNonzero inp (player s)).
Proof.
  split.
  - intros p Hp Ht Hc. exists (scoredOf inp p). split; [|done].
    apply rankPlayers_elem. by exists p.
  - intros s Hs. apply rankPlayers_elem in Hs as (p & -> & _).
    apply finalScore_matches_formula.
Qed.

Lemma final_score_formula_witness :
  ∃ s, s ∈ rankPlayers inputsQbTaken
       ∧ player s = wr1
       ∧ score s == scoreFormula adpBonusNonzero inputsQbTaken wr1.
Proof.
  destruct (final_score_formula inputsQbTaken) as [Hex Hsc].
  destruct (Hex wr1) as (s & Hs & Hp).
  - apply list_elem_of_In. simpl. tauto.
  - compute_done.
  - reflexivity.
  - exists s. split; [done|]. split; [done|].
    rewrite <- Hp. by apply Hsc.
Defined.

(** ** Round-aware priority *)

Lemma ceilDiv_pos (a b : Z) :
  (0 < b)%Z →
  ∃ c, ((c - 1) * b < a <= c * b)%Z ∧ ceilDiv a b = Fin c.
Proof.
  intros Hb. exists (- (- a / b))%Z. split.
  - pose proof (Z.div_mod (- a) b ltac:(lia)).
    pose proof (Z.mod_pos_bound (- a) b Hb). nia.
  - unfold ceilDiv. by destruct (Z.eqb_spec b 0); [lia|].
Qed.

Lemma ceilDiv_one (b : Z) :
  b ≠ 0%Z → ∃ c, (c <= 1)%Z ∧ ceilDiv 1 b = Fin c.
Proof.
  intros Hb. exists (- (- (1) / b))%Z. split.
  - pose proof (Z.div_mod (- (1)) b Hb).
    destruct (Z.lt_total b 0) as [Hneg|[?|Hpos]]; [|done|].
    + pose proof (Z.mod_neg_bound (- (1)) b Hneg). nia.
    + pose proof (Z.mod_pos_bound (- (1)) b Hpos). nia.
  - unfold ceilDiv. by destruct (Z.eqb_spec b 0).
Qed.

Lemma priorityWeight_table (pos : Position) (r : Z) :
  priorityWeight pos (Fin r) = priorityTable (bucketOf r) pos.
Proof.
  unfold priorityWeight, bucketOf.
  repeat match goal with
         | |- context [(?a =? ?b)%Z] => destruct (Z.eqb_spec a b)
         | |- context [(?a <=? ?b)%Z] => destruct (Z.leb_spec a b)
         end;
    repeat case_decide; simpl; try lia; by destruct pos.
Qed.

Lemma currentRound_empty (inp : ModelInputs) :
  leagueSize (in_settings inp) ≠ 0%Z →
  (∀ pos, in_picksByPos inp pos = 0%nat) →
  currentRound inp = Fin 1.
Proof.
  intros HL Hempty. unfold currentRound.
  replace (totalPicksMade inp + 1)%Z with 1%Z.
  2:{ rewrite totalPicksMade_sum. unfold picksMade. rewrite !Hempty. lia. }
  destruct (ceilDiv_one _ HL) as (c & Hc & ->). simpl. f_equal. lia.
Qed.

Lemma currentRound_zero_league (inp : ModelInputs) (p : Player) :
  leagueSize (in_settings inp) = 0%Z →
  currentRound inp = PosInf ∧ prio inp p = 1.0.
Proof.
  intros HL. assert (Hr : currentRound inp = PosInf).
  { unfold currentRound, ceilDiv. rewrite HL. simpl.
    assert (0 <= totalPicksMade inp)%Z
      by (rewrite totalPicksMade_sum; unfold picksMade; lia).
    destruct (Z.ltb_spec 0 (totalPicksMade inp + 1)); [done|lia]. }
  split; [done|]. unfold prio. by rewrite Hr.
Qed.

Lemma finalScore_split (inp : ModelInputs) (p : Player) :
  finalScore inp p
  == rawScore inp p * otherMultipliers inp p * prio inp p + adpHelp p.
Proof. unfold finalScore, otherMultipliers. ring. Qed.

Lemma needUnits_nonneg (inp : ModelInputs) (p : Player) : 0 <= needUnits inp p.
Proof.
  rewrite needUnits_useful. unfold usefulSlotsRemaining.
  assert (Hnat : ∀ n : nat, 0 <= inject_Z (Z.of_nat n)).
  { intros n. change 0 with (inject_Z 0). rewrite <- Zle_Qle. lia. }
  pose proof (Hnat (starterCapacity (position p)
                    - length (in_yourRoster inp (slotOf (position p))))%nat).
  pose proof (Hnat (1 - length (in_yourRoster inp FLEX))%nat).
  set (a := inject_Z (Z.of_nat (starterCapacity _ - _))) in *.
  set (b := inject_Z (Z.of_nat (1 - _))) in *.
  clearbody a b. case_decide; [|lra].
  assert (0 <= b / 3) by (apply Qle_shift_div_l; [reflexivity|lra]).
  set (c := b / 3) in *. clearbody c. lra.
Qed.

Lemma byeAdj_cases (inp : ModelInputs) (p : Player) :
  byeAdj inp p == 0.94 ∨ byeAdj inp p == 0.98 ∨ byeAdj inp p == 1.
Proof.
  unfold byeAdj. destruct (bye p) as [w|]; [|by right; right].
  destruct (2 <=? _)%nat; [by left|].
  destruct (_ =? 1)%nat; [by right; left|by right; right].
Qed.

Lemma otherMultipliers_pos (inp : ModelInputs) (p : Player) :
  0 < otherMultipliers inp p.
Proof.
  unfold otherMultipliers.
  assert (H1 : 1 <= 1 + 0.18 * Qmin 2 (needUnits inp p)).
  { pose proof (needUnits_nonneg inp p).
    destruct (Q.min_spec 2 (needUnits inp p)) as [[_ Hm]|[_ Hm]];
      rewrite Hm; lra. }
  assert (H2 : 1 <= starterBoost inp p).
  { unfold starterBoost. destruct (0 <? _)%Z; lra. }
  assert (H3 : 0.93 <= benchDamp inp p).
  { unfold benchDamp. destruct (_ =? 0)%Z; lra. }
  assert (H4 : 1 <= pivotBonus inp p).
  { unfold pivotBonus.
    pose proof (Q.le_max_l 0 (0.15 - Qmax 0 (runBias inp (position p)))).
    lra. }
  assert (H5 : 0.94 <= byeAdj inp p).
  { destruct (byeAdj_cases inp p) as [Hb|[Hb|Hb]]; rewrite Hb; lra. }
  repeat apply Qmult_lt_0_compat; lra.
Qed.

(** C4.  For a positive league size the current round is
    [max(1, ceil((picksMade+1)/leagueSize))], the ceiling [c] being the
    integer with [(c−1)·leagueSize < picksMade+1 ≤ c·leagueSize]; the
    priority multiplier of a round is the fixed table; and with an empty
    draft log a QB, K or DST candidate whose score before the priority is
    positive and equal to that of an RB or WR candidate, with an equal ADP
    bonus, gets a strictly lower final score. *)
Theorem round_priority (inp : ModelInputs) :
  ((0 < leagueSize (in_settings inp))%Z →
   ∃ c, ((c - 1) * leagueSize (in_settings inp)
         < picksMade (in_picksByPos inp) + 1
         <= c * leagueSize (in_settings inp))%Z
        ∧ currentRound inp = Fin (Z.max 1 c)
        ∧ ∀ p, prio inp p = priorityTable (bucketOf (Z.max 1 c)) (position p))
  ∧ (∀ pos r, (1 <= r)%Z →
       priorityWeight pos (Fin r) = priorityTable (bucketOf r) pos)
  ∧ (leagueSize (in_settings inp) ≠ 0%Z →
     (∀ pos, in_picksByPos inp pos = 0%nat) →
     ∀ p q,
       position p = QB ∨ position p = K ∨ position p = DST →
       position q = RB ∨ position q = WR →
       0 < prePriorityScore inp p →
       prePriorityScore inp p == prePriorityScore inp q →
       adpHelp p == adpHelp q →
       finalScore inp p < finalScore inp q).
Proof.
  split; [|split].
  - intros HL.
    destruct (ceilDiv_pos (picksMade (in_picksByPos inp) + 1) _ HL)
      as (c & Hc & Hceil).
    exists c. split; [done|].
    assert (Hround : currentRound inp = Fin (Z.max 1 c)).
    { unfold currentRound. by rewrite totalPicksMade_sum, Hceil. }
    split; [done|]. intros p. unfold prio.
    by rewrite Hround, priorityWeight_table.
  - intros pos r _. apply priorityWeight_table.
  - intros HL Hempty p q Hp Hq Hpos Heq Hadp.
    rewrite !finalScore_split. unfold prePriorityScore in *.
    unfold prio. rewrite (currentRound_empty inp HL Hempty).
    set (x := rawScore inp p * otherMultipliers inp p) in *.
    set (y := rawScore inp q * otherMultipliers inp q) in *.
    assert (Hwp : priorityWeight (position p) (Fin 1) == 0.05)
      by (destruct Hp as [-> | [-> | ->]]; reflexivity).
    assert (Hwq : priorityWeight (position q) (Fin 1) == 1.25)
      by (destruct Hq as [-> | ->]; reflexivity).
    rewrite Hwp, Hwq, <- Hadp, <- Heq. clearbody x. lra.
Qed.

Lemma round_priority_witness :
  currentRound inputsRoundOne = Fin 1
  ∧ finalScore inputsRoundOne qbEven < finalScore inputsRoundOne rbEven.
Proof.
  destruct (round_priority inputsRoundOne) as (Hround & _ & Hlower).
  split.
  - destruct Hround as (c & Hc & Hr & _); [reflexivity|].
    rewrite Hr. f_equal.
    change (picksMade (in_picksByPos inputsRoundOne)) with 0%Z in Hc.
    change (leagueSize (in_settings inputsRoundOne)) with 12%Z in Hc. lia.
  - apply Hlower.
    + discriminate.
    + reflexivity.
    + left. reflexivity.
    + left. reflexivity.
    + reflexivity.
    + reflexivity.
    + reflexivity.
Defined.

(** ** Bye-week diversification *)

Lemma pretty_N_go_length (x : N) (s : string) :
  (String.length s ≤ String.length (pretty_N_go x s))%nat.
Proof.
  revert s. induction (N.lt_wf_0 x) as [x _ IH]; intros s.
  destruct (decide (x = 0%N)) as [->|Hx].
  - by rewrite pretty_N_go_0.
  - rewrite pretty_N_go_step by lia.
    etrans; [|apply IH; apply N.div_lt; lia]. simpl. lia.
Qed.

Lemma pretty_Z_nonempty (w : Z) : pretty w ≠ "".
Proof.
  destruct w as [|x|x]; [done| |done].
  unfold pretty, pretty_Z, pretty, pretty_positive, pretty, pretty_N.
  rewrite decide_False by done. rewrite pretty_N_go_step by lia.
  intros Heq.
  pose proof (pretty_N_go_length (N.pos x `div` 10)
                (String (pretty_N_char (N.pos x `mod` 10)) "")) as Hlen.
  rewrite Heq in Hlen. simpl in Hlen. lia.
Qed.

Lemma byeKey_pretty (b : option Z) (w : Z) : byeKey b = pretty w ↔ b = Some w.
Proof.
  destruct b as [w'|]; simpl.
  - split; [intros H; f_equal; by apply (inj pretty)|by intros [= ->]].
  - split; [|done]. intros H. by destruct (pretty_Z_nonempty w).
Qed.

Lemma tally_fold_lookup (l : list Player) (m : gmap string nat) (k : string) :
  default 0%nat (fold_left tally l m !! k)
  = (default 0%nat (m !! k)
     + length (filter (λ q, byeKey (bye q) = k) l))%nat.
Proof.
  revert m. induction l as [|q l IH]; intros m; simpl; [lia|].
  rewrite IH, filter_cons. unfold tally.
  destruct (decide (byeKey (bye q) = k)) as [->|Hne].
  - rewrite lookup_insert_eq. simpl. lia.
  - by rewrite lookup_insert_ne.
Qed.

Lemma filter_ext_elem {A : Type} (P Q : A → Prop)
  `{∀ x, Decision (P x)} `{∀ x, Decision (Q x)} (l : list A) :
  (∀ x, x ∈ l → P x ↔ Q x) → filter P l = filter Q l.
Proof.
  induction l as [|x l IH]; intros Hext; [done|].
  rewrite !filter_cons, IH by (intros; apply Hext; by right).
  pose proof (Hext x (list_elem_of_here _ _)) as Hx.
  destruct (decide (P x)), (decide (Q x)); tauto.
Qed.

Lemma filter_none_elem {A : Type} (P : A → Prop) `{∀ x, Decision (P x)}
  (l : list A) :
  (∀ x, x ∈ l → ¬ P x) → filter P l = [].
Proof.
  induction l as [|x l IH]; intros Hno; [done|].
  rewrite filter_cons_False by (apply Hno; by left).
  apply IH. intros y Hy. apply Hno. by right.
Qed.

Lemma byeCounts_lookup (inp : ModelInputs) (pos : Position) (w : Z) :
  default 0%nat (byeCounts inp pos !! pretty w)
  = length (filter (λ q, bye q = Some w) (rosteredAt inp pos)).
Proof.
  unfold byeCounts. rewrite tally_fold_lookup, lookup_empty. simpl.
  f_equal. apply filter_ext_elem. intros q _. apply byeKey_pretty.
Qed.

Section SoundRoster.

Context (r : Roster) (Hsound : rosterSound r).

Lemma sound_slot_filter (pos pos' : Position) (w : Z) :
  filter (λ q, position q = pos ∧ bye q = Some w) (r (slotOf pos'))
  = if decide (pos' = pos)
    then filter (λ q, bye q = Some w) (r (slotOf pos'))
    else [].
Proof.
  destruct Hsound as [Hslot _]. case_decide as Hpos.
  - apply filter_ext_elem. intros q Hq. rewrite (Hslot _ _ Hq). tauto.
  - apply filter_none_elem. intros q Hq. rewrite (Hslot _ _ Hq). tauto.
Qed.

Lemma sound_flex_filter (pos : Position) (w : Z) :
  filter (λ q, position q = pos ∧ bye q = Some w) (r FLEX)
  = filter (λ q, bye q = Some w)
      (if bool_decide (pos ≠ DST) && bool_decide (pos ≠ K)
       then filter (λ q, position q = pos) (r FLEX)
       else []).
Proof.
  destruct Hsound as [_ Hflex].
  destruct (bool_decide (pos ≠ DST) && bool_decide (pos ≠ K)) eqn:Hb.
  - rewrite list_filter_filter. apply filter_ext_elem. tauto.
  - rewrite filter_nil. apply filter_none_elem.
    intros q Hq [Hp _]. apply Hflex in Hq. rewrite Hp in Hq.
    unfold FLEX_ELIGIBLE in Hq.
    apply andb_false_iff in Hb as [Hb|Hb];
      apply bool_decide_eq_false in Hb;
      (assert (pos = DST ∨ pos = K) as [-> | ->]
         by (destruct pos; naive_solver)); set_solver.
Qed.

End SoundRoster.

Lemma slotOf_inj (pos pos' : Position) : slotOf pos = slotOf pos' → pos = pos'.
Proof. by destruct pos, pos'. Qed.

Lemma slotOf_not_flex_bench (pos : Position) :
  slotOf pos ≠ FLEX ∧ slotOf pos ≠ BENCH.
Proof. by destruct pos. Qed.

Lemma allocate_sound (r : Roster) (p : Player) :
  rosterSound r → rosterSound (allocate r p).
Proof.
  intros [Hslot Hflex]. unfold allocate, push. rewrite findSlot_greedy.
  unfold greedySlot.
  destruct (slotOf_not_flex_bench (position p)) as [HnF HnB].
  split.
  - intros pos q. destruct (slotOf_not_flex_bench pos) as [HF HB].
    repeat case_decide; try congruence; auto.
    rewrite elem_of_app, list_elem_of_singleton.
    intros [Hq| ->]; [by apply Hslot|].
    symmetry. by apply slotOf_inj.
  - intros q. repeat case_decide; try congruence; auto.
    rewrite elem_of_app, list_elem_of_singleton.
    intros [Hq| ->]; [by apply Hflex|].
    unfold FLEX_ELIGIBLE. set_solver.
Qed.

Lemma yourRoster_sound (players : list Player) (ids : list string) :
  rosterSound (yourRoster players ids).
Proof.
  unfold yourRoster.
  assert (Hgen : ∀ l r, rosterSound r → rosterSound (fold_left allocate l r)).
  { induction l as [|p l IH]; intros r Hr; simpl; [done|].
    by apply IH, allocate_sound. }
  apply Hgen. split; intros *; unfold emptyRoster; by rewrite elem_of_nil.
Qed.

Lemma rosteredAt_sameBye (inp : ModelInputs) (pos : Position) (w : Z) :
  rosterSound (in_yourRoster inp) →
  length (filter (λ q, bye q = Some w) (rosteredAt inp pos))
  = sameByeLineup (in_yourRoster inp) pos w.
Proof.
  intros Hsound. unfold sameByeLineup, lineup, rosteredAt.
  set (r := in_yourRoster inp) in *.
  change (r SlotQB) with (r (slotOf QB)). change (r SlotRB) with (r (slotOf RB)).
  change (r SlotWR) with (r (slotOf WR)). change (r SlotTE) with (r (slotOf TE)).
  change (r SlotDST) with (r (slotOf DST)). change (r SlotK) with (r (slotOf K)).
  rewrite !filter_app, !(sound_slot_filter r Hsound), (sound_flex_filter r Hsound).
  destruct pos; simpl; rewrite ?app_nil_r; reflexivity.
Qed.

(** On a roster as the projector builds it, the bye adjustment of a
    candidate with a known bye week follows the number of players of the
    candidate's position in the lineup (the position's starter slot and
    FLEX) that have that bye week; it is 1.0 for a candidate without a
    known bye week. *)
Lemma byeAdj_lineup (inp : ModelInputs) (p : Player) :
  rosterSound (in_yourRoster inp) →
  byeAdj inp p
  == match bye p with
     | Some w =>
         byeMultiplier (sameByeLineup (in_yourRoster inp) (position p) w)
     | None => 1.0
     end.
Proof.
  intros Hsound. unfold byeAdj, byeMultiplier.
  destruct (bye p) as [w|]; [|reflexivity].
  cbv zeta. rewrite byeCounts_lookup, rosteredAt_sameBye by done.
  set (n := sameByeLineup _ _ _).
  destruct (2 <=? n)%nat; [reflexivity|]. destruct (n =? 1)%nat; reflexivity.
Qed.

(** The count over the whole roster is the lineup count plus the matching
    players on BENCH and IR. *)
Lemma sameByeCount_split (r : Roster) (pos : Position) (w : Z) :
  sameByeCount r pos w
  = (sameByeLineup r pos w
     + length (filter (λ q, position q = pos ∧ bye q = Some w) (r BENCH))
     + length (filter (λ q, position q = pos ∧ bye q = Some w) (r IR)))%nat.
Proof.
  unfold sameByeCount, sameByeLineup, lineup, all_slots.
  cbn [map concat]. rewrite app_nil_r, !filter_app, !length_app. lia.
Qed.

Lemma byeMultiplier_antitone (m n : nat) :
  (m ≤ n)%nat → byeMultiplier n <= byeMultiplier m.
Proof.
  intros Hmn. unfold byeMultiplier.
  destruct (Nat.leb_spec 2 n), (Nat.leb_spec 2 m),
    (Nat.eqb_spec n 1), (Nat.eqb_spec m 1); try lia; by compute.
Qed.

(** The engine never penalises more than the count over the whole roster
    would, and it applies exactly that penalty when no player of the
    candidate's position with the candidate's bye week sits on BENCH or
    IR. *)
Lemma byeAdj_whole_roster (inp : ModelInputs) (p : Player) (w : Z) :
  rosterSound (in_yourRoster inp) → bye p = Some w →
  byeMultiplier (sameByeCount (in_yourRoster inp) (position p) w)
  <= byeAdj inp p
  ∧ (filter (λ q, position q = position p ∧ bye q = Some w)
       (in_yourRoster inp BENCH ++ in_yourRoster inp IR) = [] →
     byeAdj inp p
     == byeMultiplier (sameByeCount (in_yourRoster inp) (position p) w)).
Proof.
  intros Hsound Hbye. rewrite (byeAdj_lineup inp p Hsound), Hbye.
  rewrite sameByeCount_split. split.
  - apply byeMultiplier_antitone. lia.
  - rewrite filter_app. intros [-> ->]%app_eq_nil. simpl.
    by rewrite !Nat.add_0_r.
Qed.

(** C7.  The engine's bye counts range over the position's starter slot and
    FLEX, not over BENCH.  After [benchLog] the self-owner holds five
    running backs; the two on BENCH both have bye week 9, so two
    already-rostered running backs share the bye week of the untaken
    [rb7], for which the design document prescribes the multiplier 0.94.
    None of the running backs in RB and FLEX has that bye week, and the
    engine returns [rb7] with the multiplier 1.0. *)
Theorem bye_adjustment_ignores_bench :
  in_yourRoster inputsBenchedByes SlotRB = [rb1; rb2]
  ∧ in_yourRoster inputsBenchedByes FLEX = [rb3]
  ∧ in_yourRoster inputsBenchedByes BENCH = [rb5; rb6]
  ∧ bye rb7 = Some 9%Z
  ∧ sameByeCount (in_yourRoster inputsBenchedByes) RB 9 = 2%nat
  ∧ byeMultiplier 2 == 0.94
  ∧ sameByeLineup (in_yourRoster inputsBenchedByes) RB 9 = 0%nat
  ∧ byeAdj inputsBenchedByes rb7 == 1.0
  ∧ rb7 ∈ map player (rankPlayers inputsBenchedByes).
Proof.
  repeat split; try reflexivity.
  apply rankPlayers_players. split; [|split; [|reflexivity]].
  - apply list_elem_of_In. simpl. tauto.
  - compute_done.
Qed.

(** ** Quarterback context *)

Lemma Qltb_lt (x y : Q) : Qltb x y = true ↔ x < y.
Proof.
  unfold Qltb. rewrite negb_true_iff. split.
  - intros Hb. apply Qnot_le_lt. intros Hle.
    apply Qle_bool_iff in Hle. congruence.
  - intros Hlt. destruct (Qle_bool y x) eqn:Hb; [|done].
    apply Qle_bool_iff in Hb. lra.
Qed.

Ltac name_minmax :=
  repeat match goal with
         | |- context [Qmax ?a ?b] =>
             let m := fresh "m" in
             pose proof (Q.max_spec a b); set (m := Qmax a b) in *; clearbody m
         | |- context [Qmin ?a ?b] =>
             let m := fresh "m" in
             pose proof (Q.min_spec a b); set (m := Qmin a b) in *; clearbody m
         | H : context [Qmax ?a ?b] |- _ =>
             let m := fresh "m" in
             pose proof (Q.max_spec a b); set (m := Qmax a b) in *; clearbody m
         | H : context [Qmin ?a ?b] |- _ =>
             let m := fresh "m" in
             pose proof (Q.min_spec a b); set (m := Qmin a b) in *; clearbody m
         end.

Ltac split_minmax :=
  repeat match goal with
         | H : _ ∨ _ |- _ => destruct H as [[? ?]|[? ?]]
         end.

Lemma clamp_source (x : Q) : Qmin (Qmax x 0) 0.8 == clamp x 0 0.8.
Proof. unfold clamp. name_minmax. split_minmax; lra. Qed.

Lemma clamp_mono (x y : Q) : x <= y → clamp x 0 0.8 <= clamp y 0 0.8.
Proof.
  intros Hxy. unfold clamp.
  apply Q.max_le_compat_l, Q.min_le_compat_r, Hxy.
Qed.

Lemma qbAdj_active (inp : ModelInputs) (p : Player) :
  position p = WR ∨ position p = TE →
  0 < teamQBInfluence (in_settings inp) →
  qbAdj inp p
  == teamQBInfluence (in_settings inp)
     * ((passAttOf p - 520) * 0.02
        + (0.3 - clamp (rushShareOf p) 0 0.8) * 20).
Proof.
  intros Hpos Hc. unfold qbAdj.
  apply Qltb_lt in Hc. rewrite Hc.
  replace (bool_decide (position p = WR) || bool_decide (position p = TE))
    with true by (destruct Hpos as [-> | ->]; reflexivity).
  cbv zeta. simpl andb. cbv iota. rewrite clamp_source. reflexivity.
Qed.

Lemma qbAdj_inactive (inp : ModelInputs) (p : Player) :
  (position p ≠ WR ∧ position p ≠ TE)
  ∨ teamQBInfluence (in_settings inp) <= 0 →
  qbAdj inp p = 0.
Proof.
  intros Hoff. unfold qbAdj. destruct Hoff as [[H1 H2]|Hc].
  - by rewrite !bool_decide_eq_false_2.
  - destruct (Qltb 0 (teamQBInfluence (in_settings inp))) eqn:Hb.
    + apply Qltb_lt in Hb. lra.
    + by rewrite andb_false_r.
Qed.

Lemma qbAdj_cases (inp : ModelInputs) (p : Player) :
  qbAdj inp p = 0
  ∨ (0 < teamQBInfluence (in_settings inp)
     ∧ (position p = WR ∨ position p = TE)).
Proof.
  destruct (Qlt_le_dec 0 (teamQBInfluence (in_settings inp))) as [Hc|Hc].
  - destruct (decide (position p = WR)) as [?|HW]; [by right; auto|].
    destruct (decide (position p = TE)) as [?|HT]; [by right; auto|].
    left. apply qbAdj_inactive. by left.
  - left. apply qbAdj_inactive. by right.
Qed.

Lemma qbAdj_monotone (inp : ModelInputs) (p q : Player) :
  position p = position q →
  passAttOf p <= passAttOf q →
  rushShareOf q <= rushShareOf p →
  qbAdj inp p <= qbAdj inp q.
Proof.
  intros Hpos Hpa Hrs.
  assert (Hact : 0 < teamQBInfluence (in_settings inp) →
                 position p = WR ∨ position p = TE →
                 qbAdj inp p <= qbAdj inp q).
  { intros Hc Hp.
    rewrite (qbAdj_active inp p), (qbAdj_active inp q)
      by (done || by rewrite <- Hpos).
    apply Qmult_le_l; [done|]. apply clamp_mono in Hrs. lra. }
  destruct (qbAdj_cases inp p) as [Hp|[Hc Hp]]; [|by apply Hact].
  destruct (qbAdj_cases inp q) as [Hq|[Hc Hq]].
  - rewrite Hp, Hq. lra.
  - apply Hact; [done|by rewrite Hpos].
Qed.

(** C8.  The quarterback-context adjustment is 0 for a player that is
    neither WR nor TE and for every player when the coefficient is 0; for a
    WR or TE under a positive coefficient it is
    [coefficient × ((passAttempts − 520) × 0.02
                    + (0.3 − clamp(rushShare, 0, 0.8)) × 20)]
    with the defaults 550 and 0.2; and it never decreases when the pass
    attempts grow nor increases when the rush-share grows. *)
Theorem qb_adjustment (inp : ModelInputs) :
  (∀ p, position p ≠ WR → position p ≠ TE → qbAdj inp p == 0)
  ∧ (teamQBInfluence (in_settings inp) == 0 → ∀ p, qbAdj inp p == 0)
  ∧ (0 < teamQBInfluence (in_settings inp) →
     ∀ p, position p = WR ∨ position p = TE →
       qbAdj inp p
       == teamQBInfluence (in_settings inp)
          * ((default 550 (qb_pass_att p) - 520) * 0.02
             + (0.3 - clamp (default 0.2 (qb_rush_share p)) 0 0.8) * 20))
  ∧ (∀ p q, position p = position q →
            rushShareOf p == rushShareOf q →
            passAttOf p <= passAttOf q →
            qbAdj inp p <= qbAdj inp q)
  ∧ (∀ p q, position p = position q →
            passAttOf p == passAttOf q →
            rushShareOf p <= rushShareOf q →
            qbAdj inp q <= qbAdj inp p).
Proof.
  repeat split.
  - intros p HW HT. rewrite qbAdj_inactive; [reflexivity|by left].
  - intros Hc p. rewrite qbAdj_inactive; [reflexivity|right; lra].
  - intros Hc p Hp. by apply qbAdj_active.
  - intros p q Hpos Hrs Hpa. apply qbAdj_monotone; [done|done|lra].
  - intros p q Hpos Hpa Hrs. apply qbAdj_monotone; [done|lra|done].
Qed.

Lemma qb_adjustment_witness :
  qbAdj inputsEmptyLog wrLowVolume <= qbAdj inputsEmptyLog wrHighVolume
  ∧ qbAdj inputsEmptyLog qb1 == 0.
Proof.
  destruct (qb_adjustment inputsEmptyLog) as (Hoff & _ & _ & Hup & _).
  split.
  - apply Hup; [reflexivity|reflexivity|discriminate].
  - apply Hoff; discriminate.
Defined.

(** ** Determinism *)

Section SameInputs.

Context (a b : ModelInputs) (Hsame : sameInputs a b).

Lemma sameInputs_taken : in_takenIds a = in_takenIds b.
Proof. destruct Hsame as (_ & _ & Ht & _). by apply set_eq. Qed.

Ltac rewrite_inputs :=
  let Hs := fresh in let Hr := fresh in let Hp := fresh in let Hc := fresh in
  destruct Hsame as (Hs & Hr & _ & Hp & Hc);
  cbv zeta; unfold all_positions; cbn [fold_left];
  rewrite ?Hs, ?sameInputs_taken, ?Hp, ?Hr, ?Hc.

Lemma capped_same (p : Player) : capped a p = capped b p.
Proof. unfold capped, countOnRoster. rewrite_inputs. reflexivity. Qed.

Lemma vor_same (p : Player) : vor a p = vor b p.
Proof.
  unfold vor, replacementValue, byPos, grouped. rewrite_inputs. reflexivity.
Qed.

Lemma prio_same (p : Player) : prio a p = prio b p.
Proof.
  unfold prio, currentRound, totalPicksMade. rewrite_inputs. reflexivity.
Qed.

Lemma pivotBonus_same (p : Player) : pivotBonus a p = pivotBonus b p.
Proof.
  unfold pivotBonus, runBias, totalTaken, totalPicksMade.
  destruct (position p); rewrite_inputs; reflexivity.
Qed.

Lemma byeAdj_same (p : Player) : byeAdj a p = byeAdj b p.
Proof. unfold byeAdj, byeCounts, rosteredAt. rewrite_inputs. reflexivity. Qed.

Lemma startersLeft_same (p : Player) : startersLeft a p = startersLeft b p.
Proof. unfold startersLeft, startersRemaining. rewrite_inputs. reflexivity. Qed.

Lemma needUnits_same (p : Player) : needUnits a p = needUnits b p.
Proof.
  unfold needUnits, fractionalFlex, flexOpen. rewrite startersLeft_same.
  rewrite_inputs. reflexivity.
Qed.

Lemma base_same (p : Player) : base a p = base b p.
Proof. unfold base, weights. rewrite_inputs. reflexivity. Qed.

Lemma qbAdj_same (p : Player) : qbAdj a p = qbAdj b p.
Proof. unfold qbAdj. rewrite_inputs. reflexivity. Qed.

Lemma starterBoost_same (p : Player) : starterBoost a p = starterBoost b p.
Proof. unfold starterBoost. by rewrite startersLeft_same. Qed.

Lemma benchDamp_same (p : Player) : benchDamp a p = benchDamp b p.
Proof. unfold benchDamp. by rewrite startersLeft_same. Qed.

Lemma scoredOf_same (p : Player) : scoredOf a p = scoredOf b p.
Proof.
  unfold scoredOf, finalScore, explainOf, rawScore.
  by rewrite base_same, vor_same, qbAdj_same, needUnits_same,
    starterBoost_same, benchDamp_same, pivotBonus_same, prio_same,
    byeAdj_same.
Qed.

Lemma eligible_same (p : Player) : eligible a p ↔ eligible b p.
Proof. unfold eligible. by rewrite capped_same, sameInputs_taken. Qed.

End SameInputs.

(** The functional model depends on its inputs extensionally: equal
    settings, catalog, taken ids, roster slots and positional counts give
    the same list. *)
Lemma rankPlayers_ext (a b : ModelInputs) :
  sameInputs a b → rankPlayers a = rankPlayers b.
Proof.
  intros Hsame. unfold rankPlayers. rewrite !scoredPlayers_eligible.
  destruct Hsame as (Hs & Hr & Ht & Hp & Hc). rewrite Hp.
  rewrite (filter_ext_elem (eligible a) (eligible b))
    by (intros p _; by apply eligible_same).
  f_equal. apply map_ext. intros p. by apply scoredOf_same.
Qed.

(** *** The program over the store *)

(** A loop whose body leaves the store as it is leaves the store as it is,
    and computes the fold of the values its body returns. *)
Lemma forEach_readonly {Rest X A : Type} (body : A → X → Shared.M Rest A)
  (l : list X) (acc : A) (st : Shared.Store Rest) :
  (∀ acc x, (body acc x st).2 = st) →
  Shared.forEach body l acc st
  = (fold_left (λ acc x, (body acc x st).1) l acc, st).
Proof.
  intros Hbody. revert acc. induction l as [|x l IH]; intros acc; [done|].
  cbn [Shared.forEach fold_left]. unfold Shared.bind.
  by rewrite Hbody, IH.
Qed.

Lemma fold_left_ext_eq {A B : Type} (f g : A → B → A) (l : list B) (a : A) :
  (∀ a x, f a x = g a x) → fold_left f l a = fold_left g l a.
Proof.
  intros Hfg. revert a. induction l as [|x l IH]; intros a; [done|].
  simpl. by rewrite Hfg, IH.
Qed.

Lemma lengthOr0_default (x : option (list Player)) :
  Shared.lengthOr0 x = Z.of_nat (length (default [] x)).
Proof. by destruct x. Qed.

Section RunRoster.

Context {Rest : Type} (st : Shared.Store Rest).

Lemma countOnRoster_run (pos : Position) :
  Shared.countOnRoster pos st = (countOnRoster (Shared.inputsOf st) pos, st).
Proof.
  unfold Shared.countOnRoster, countOnRoster, Shared.bind, Shared.rosterProp,
    Shared.load, Shared.ret.
  cbn [fst snd]. destruct (bool_decide (pos ≠ DST) && bool_decide (pos ≠ K)).
  - cbn [fst snd]. rewrite !lengthOr0_default. simpl.
    by destruct (getProp (Shared.st_yourRoster st) FLEX).
  - by rewrite lengthOr0_default.
Qed.

Lemma startersRemaining_run (pos : Position) :
  Shared.startersRemaining pos st
  = (startersRemaining (Shared.inputsOf st) pos, st).
Proof.
  unfold Shared.startersRemaining, startersRemaining, Shared.bind,
    Shared.rosterProp, Shared.load, Shared.ret.
  cbn [fst snd]. by rewrite lengthOr0_default.
Qed.

Lemma flexOpen_run : Shared.flexOpen st = (flexOpen (Shared.inputsOf st), st).
Proof.
  unfold Shared.flexOpen, flexOpen, Shared.bind, Shared.rosterProp,
    Shared.load, Shared.ret.
  cbn [fst snd]. by rewrite lengthOr0_default.
Qed.

Lemma byeCounts_run :
  (Shared.byeCounts st).2 = st
  ∧ ∀ pos, (Shared.byeCounts st).1 pos = byeCounts (Shared.inputsOf st) pos.
Proof.
  split; [reflexivity|]. intros pos.
  unfold byeCounts, rosteredAt. by destruct pos.
Qed.

End RunRoster.

(** *** Objects with distinct keys *)

Lemma getProp_elem {K V : Type} `{EqDecision K} (o : list (K * V)) (k : K)
  (v : V) :
  NoDup (map fst o) → (k, v) ∈ o → getProp o k = Some v.
Proof.
  induction o as [|[k' v'] o IH]; intros Hnd Hin; [by apply elem_of_nil in Hin|].
  apply NoDup_cons in Hnd as [Hk' Hnd]. simpl.
  apply elem_of_cons in Hin as [[= -> ->]|Hin].
  - by rewrite decide_True.
  - rewrite decide_False; [by apply IH|]. intros ->. apply Hk'.
    apply list_elem_of_In, in_map_iff. exists (k, v). split; [done|].
    by apply list_elem_of_In.
Qed.

Lemma values_by_key {K : Type} `{EqDecision K} (o : list (K * nat)) :
  NoDup (map fst o) →
  map snd o = map (λ k, default 0%nat (getProp o k)) (map fst o).
Proof.
  intros Hnd. rewrite map_map. apply map_ext_in. intros [k v] Hin.
  apply list_elem_of_In in Hin. by rewrite (getProp_elem o k v).
Qed.

Lemma fold_left_of_map {A B C : Type} (f : A → C → A) (g : B → C)
  (l : list B) (a : A) :
  fold_left f (map g l) a = fold_left (λ a x, f a (g x)) l a.
Proof. revert a. induction l as [|x l IH]; intros a; [done|]. apply IH. Qed.

Lemma sum_permutation {X : Type} (g : X → Z) (l l' : list X) :
  l ≡ₚ l' →
  ∀ a, fold_left (λ a x, (a + g x)%Z) l a = fold_left (λ a x, (a + g x)%Z) l' a.
Proof.
  induction 1 as [|x l l' _ IH|x y l|l l' l'' _ IH1 _ IH2]; intros a; simpl.
  - done.
  - apply IH.
  - f_equal. lia.
  - by rewrite IH1.
Qed.

Lemma fold_pset_lookup {A : Type} (v : Position → A) (l : list Position)
  (init : Position → A) (q : Position) :
  fold_left (λ m k, pset m k (v k)) l init q
  = if decide (q ∈ l) then v q else init q.
Proof.
  revert init. induction l as [|k l IH]; intros init; simpl.
  - by destruct (decide (q ∈ [])) as [H%elem_of_nil|].
  - rewrite IH. unfold pset.
    destruct (decide (q ∈ l)) as [Hl|Hl].
    + by rewrite decide_True by (by right).
    + destruct (decide (q = k)) as [->|Hk].
      * by rewrite decide_True by (by left).
      * rewrite decide_False; [done|]. by intros [?|?]%elem_of_cons.
Qed.

Lemma isRecord_NoDup {V : Type} (o : list (Position * V)) :
  isRecord o → NoDup (map fst o).
Proof.
  unfold isRecord. intros ->. compute_done.
Qed.

Lemma isRecord_key {V : Type} (o : list (Position * V)) (pos : Position) :
  isRecord o → pos ∈ map fst o.
Proof.
  unfold isRecord. intros ->. destruct pos; compute_done.
Qed.

Section RunCounts.

Context {Rest : Type} (st : Shared.Store Rest).

Lemma grouped_run :
  fold_left
    (λ (byPos : Position → list Player) (p : Player),
       if bool_decide (player_id p ∈ Shared.st_takenIds st) then byPos
       else pset byPos (position p) (byPos (position p) ++ [p]))
    (Shared.st_playerPool st) (λ _, [])
  = grouped (Shared.inputsOf st).
Proof.
  unfold grouped. apply fold_left_ext_eq. intros byPos p. unfold groupStep.
  simpl. case_bool_decide as Hin.
  - by rewrite decide_True by (by apply elem_of_list_to_set).
  - by rewrite decide_False by (by rewrite elem_of_list_to_set).
Qed.

Lemma byPos_run :
  (Shared.byPos st).2 = st
  ∧ ∀ pos, (Shared.byPos st).1 pos = byPos (Shared.inputsOf st) pos.
Proof.
  unfold Shared.byPos, Shared.bind, Shared.load, Shared.ret. cbn [fst snd].
  rewrite forEach_readonly by done. cbn [fst snd Shared.has Shared.load].
  split; [done|]. intros pos.
  unfold byPos. rewrite <- grouped_run. by destruct pos.
Qed.

Lemma replacementValue_run (bp : Position → list Player) (pos : Position) :
  (∀ pos, bp pos = byPos (Shared.inputsOf st) pos) →
  Shared.replacementValue bp pos = replacementValue (Shared.inputsOf st) pos.
Proof.
  intros Hbp. unfold replacementValue. rewrite <- !Hbp. by destruct pos.
Qed.

Context (Hrecord : isRecord (Shared.st_picksByPos st)).

Lemma sumOfCounts_run :
  Shared.sumOfCounts st = (totalPicksMade (Shared.inputsOf st), st).
Proof.
  unfold Shared.sumOfCounts, Shared.bind, Shared.load, Shared.ret.
  cbn [fst snd]. f_equal. unfold totalPicksMade.
  rewrite values_by_key by (by apply isRecord_NoDup).
  rewrite fold_left_of_map.
  by rewrite (sum_permutation
                (λ pos, Z.of_nat (default 0%nat
                                    (getProp (Shared.st_picksByPos st) pos)))
                _ _ Hrecord).
Qed.

Lemma runBias_run :
  (Shared.runBias (totalTaken (Shared.inputsOf st)) st).2 = st
  ∧ ∀ pos, (Shared.runBias (totalTaken (Shared.inputsOf st)) st).1 pos
           = runBias (Shared.inputsOf st) pos.
Proof.
  unfold Shared.runBias, Shared.bind, Shared.load, Shared.ret. cbn [fst snd].
  rewrite forEach_readonly by done. cbn [fst snd].
  split; [done|]. intros pos. unfold runBias.
  rewrite (fold_pset_lookup
             (λ pos, runSensitivity (Shared.st_settings st)
                     * (inject_Z (Z.of_nat (default 0%nat
                          (getProp (Shared.st_picksByPos st) pos)))
                        / inject_Z (totalTaken (Shared.inputsOf st))
                        - orElse (evenShare pos) 0))).
  rewrite decide_True by (by apply isRecord_key).
  by destruct pos.
Qed.

End RunCounts.

Section RunLoop.

Context {Rest : Type} (st : Shared.Store Rest).

Lemma qbAdj_run (p : Player) :
  Shared.qbAdj p st = (qbAdj (Shared.inputsOf st) p, st).
Proof.
  unfold Shared.qbAdj, qbAdj, Shared.bind, Shared.load, Shared.ret.
  cbn [fst snd in_settings Shared.inputsOf].
  destruct (bool_decide (position p = WR) || bool_decide (position p = TE));
    [|done].
  by destruct (Qltb 0 (teamQBInfluence (Shared.st_settings st))).
Qed.

Lemma scoreEligible_run (bc : Position → gmap string nat)
  (rv rb : Position → Q) (scored : list Scored) (p : Player) :
  (∀ pos, bc pos = byeCounts (Shared.inputsOf st) pos) →
  (∀ pos, rv pos = replacementValue (Shared.inputsOf st) pos) →
  (∀ pos, rb pos = runBias (Shared.inputsOf st) pos) →
  Shared.scoreEligible (weights (Shared.inputsOf st))
    (flexOpen (Shared.inputsOf st)) bc rv rb
    (currentRound (Shared.inputsOf st)) scored p st
  = (scored ++ [scoredOf (Shared.inputsOf st) p], st).
Proof.
  intros Hbc Hrv Hrb. unfold Shared.scoreEligible, Shared.bind.
  rewrite qbAdj_run. cbn [fst snd].
  rewrite startersRemaining_run. cbn [fst snd].
  rewrite Hbc, Hrv, Hrb. reflexivity.
Qed.

Lemma scoreCandidate_run (bc : Position → gmap string nat)
  (rv rb : Position → Q) (scored : list Scored) (p : Player) :
  (∀ pos, bc pos = byeCounts (Shared.inputsOf st) pos) →
  (∀ pos, rv pos = replacementValue (Shared.inputsOf st) pos) →
  (∀ pos, rb pos = runBias (Shared.inputsOf st) pos) →
  Shared.scoreCandidate (weights (Shared.inputsOf st))
    (flexOpen (Shared.inputsOf st)) bc rv rb
    (currentRound (Shared.inputsOf st)) scored p st
  = (scoreStep (Shared.inputsOf st) scored p, st).
Proof.
  intros Hbc Hrv Hrb.
  unfold Shared.scoreCandidate, scoreStep, Shared.bind, Shared.has,
    Shared.load, Shared.ret.
  cbn [fst snd]. cbn [in_takenIds Shared.inputsOf].
  case_bool_decide as Hin.
  { by rewrite decide_True by (by apply elem_of_list_to_set). }
  rewrite decide_False by (by rewrite elem_of_list_to_set).
  unfold capped. destruct (MAX_BY_POSITION (position p)) as [cap|].
  - rewrite countOnRoster_run. cbn [fst snd].
    destruct (cap <=? _)%Z; [done|]. by apply scoreEligible_run.
  - by apply scoreEligible_run.
Qed.

Context (Hrecord : isRecord (Shared.st_picksByPos st)).

Lemma rankPlayers_run :
  Shared.rankPlayers st = (rankPlayers (Shared.inputsOf st), st).
Proof.
  unfold Shared.rankPlayers, Shared.bind.
  assert (Hw : Shared.weights st = (weights (Shared.inputsOf st), st)) by done.
  rewrite Hw, flexOpen_run. cbn [fst snd].
  destruct (byeCounts_run st) as [Hbc2 Hbc1]. rewrite Hbc2.
  destruct (byPos_run st) as [Hbp2 Hbp1]. rewrite Hbp2.
  rewrite (sumOfCounts_run st Hrecord). cbn [fst snd].
  change (if (totalPicksMade (Shared.inputsOf st) =? 0)%Z then 1%Z
          else totalPicksMade (Shared.inputsOf st))
    with (totalTaken (Shared.inputsOf st)).
  destruct (runBias_run st Hrecord) as [Hrb2 Hrb1].
  rewrite Hrb2. rewrite (sumOfCounts_run st Hrecord).
  unfold Shared.load, Shared.ret. cbn [fst snd].
  rewrite forEach_readonly.
  2:{ intros acc x.
      exact (f_equal snd (scoreCandidate_run _ _ _ acc x Hbc1
                            (λ pos, replacementValue_run st _ pos Hbp1)
                            Hrb1)). }
  cbn [fst snd]. f_equal. unfold rankPlayers, scoredPlayers. f_equal.
  apply fold_left_ext_eq. intros acc x.
  exact (f_equal fst (scoreCandidate_run _ _ _ acc x Hbc1
                        (λ pos, replacementValue_run st _ pos Hbp1) Hrb1)).
Qed.

End RunLoop.

Lemma equalInputs_same {Rest Rest' : Type} (a : Shared.Store Rest)
  (b : Shared.Store Rest') :
  Shared.equalInputs a b → sameInputs (Shared.inputsOf a) (Shared.inputsOf b).
Proof.
  intros (Hs & Hp & Ht & Hr & Hc). unfold sameInputs. simpl.
  split; [done|]. split; [done|]. split; [|split; [done|]].
  - intros i. by rewrite !elem_of_list_to_set.
  - intros pos. by rewrite Hc.
Qed.

(** C9.  Run on a store that holds the shared objects next to anything
    else, [rankPlayers] returns the store unchanged, so a second query on
    the store it leaves returns the same list; and two queries on stores
    with equal settings, catalog, taken-id set, roster and positional
    counts return the same list, with the same players in the same order
    and the same scores and breakdown strings, whatever the insertion
    orders of the set and of the objects' keys and whatever else the two
    stores hold.  That list is the one the functional model gives for the
    value of the shared objects. *)
Theorem ranking_engine_pure {Rest Rest' : Type} (a : Shared.Store Rest)
  (b : Shared.Store Rest') :
  isRecord (Shared.st_picksByPos a) →
  isRecord (Shared.st_picksByPos b) →
  Shared.equalInputs a b →
  (Shared.rankPlayers a).1 = (Shared.rankPlayers b).1
  ∧ (Shared.rankPlayers a).2 = a
  ∧ (Shared.rankPlayers b).2 = b
  ∧ (Shared.rankPlayers (Shared.rankPlayers a).2).1 = (Shared.rankPlayers a).1
  ∧ (Shared.rankPlayers a).1 = rankPlayers (Shared.inputsOf a).
Proof.
  intros Ha Hb Heq.
  rewrite !(rankPlayers_run a Ha), (rankPlayers_run b Hb). cbn [fst snd].
  rewrite (rankPlayers_run a Ha). cbn [fst snd].
  repeat split; try done.
  by apply rankPlayers_ext, equalInputs_same.
Qed.

Lemma ranking_engine_pure_witness :
  (Shared.rankPlayers storeOne).1 = (Shared.rankPlayers storeTwo).1
  ∧ (Shared.rankPlayers storeOne).2 = storeOne.
Proof.
  assert (H1 : isRecord (Shared.st_picksByPos storeOne))
    by (unfold isRecord; simpl; compute_done).
  assert (H2 : isRecord (Shared.st_picksByPos storeTwo))
    by (unfold isRecord; simpl; compute_done).
  assert (He : Shared.equalInputs storeOne storeTwo).
  { unfold Shared.equalInputs. simpl.
    split; [reflexivity|]. split; [reflexivity|]. split; [|split].
    - intros i. rewrite !elem_of_cons, !elem_of_nil. tauto.
    - intros s. by destruct s.
    - intros pos. by destruct pos. }
  destruct (ranking_engine_pure storeOne storeTwo H1 H2 He)
    as (Hsame & Hkeep & _).
  by split.
Defined.

Local Close Scope Q_scope.

(** ** Upcoming picks *)

(** C10 as stated fails for a requested count of 0: the scanning version
    tests the count before it looks at a pick and returns nothing, the
    round-by-round version tests it only after it has pushed a pick and
    returns the next pick. *)
Theorem upcoming_zero_count_differs :
  Scan.getUpcomingPickIndexes sampleSettings 0 0 = []
  ∧ Walk.getUpcomingPickIndexes sampleSettings 0 0 = [6].
Proof. split; reflexivity. Qed.

Section Snake.

Context (L slot : Z) (HL : 1 <= L) (Hslot : 1 <= slot <= L).

Lemma ceilDiv_round (x r : Z) :
  (r - 1) * L < x <= r * L → ceilDiv x L = Fin r.
Proof.
  intros Hx. destruct (ceilDiv_pos x L ltac:(lia)) as (c & Hc & ->).
  f_equal. nia.
Qed.

Lemma drafter_round (x r : Z) :
  1 <= r → (r - 1) * L < x <= r * L →
  Scan.drafter L x = Some slot ↔ x = pickOfRound L slot r.
Proof.
  intros Hr Hx. unfold Scan.drafter, pickOfRound.
  rewrite (ceilDiv_round x r Hx).
  assert (Hrem : Z.rem (x - 1) L = x - 1 - (r - 1) * L).
  { rewrite Z.rem_mod_nonneg by nia. symmetry.
    apply (Z.mod_unique_pos _ _ (r - 1)); nia. }
  rewrite Hrem. destruct (Z.rem r 2 =? 1); split; intros H;
    (injection H as H || f_equal); lia.
Qed.

Lemma pickOfRound_range (r : Z) :
  (r - 1) * L < pickOfRound L slot r <= r * L.
Proof. unfold pickOfRound. destruct (Z.rem r 2 =? 1); lia. Qed.

Lemma filter_seqZ_unique_nat (P : Z → Prop) `{∀ x, Decision (P x)}
  (n : nat) (a m : Z) :
  (∀ x, a <= x < a + Z.of_nat n → P x ↔ x = m) →
  filter P (seqZ a (Z.of_nat n))
  = if decide (a <= m < a + Z.of_nat n) then [m] else [].
Proof.
  revert a. induction n as [|n IH]; intros a HP.
  - rewrite seqZ_nil by done. by rewrite decide_False by lia.
  - rewrite seqZ_cons by lia. rewrite filter_cons.
    replace (Z.pred (Z.of_nat (S n))) with (Z.of_nat n) by lia.
    rewrite IH by (intros; apply HP; lia).
    destruct (decide (P a)) as [Ha|Ha].
    + apply HP in Ha as ->; [|lia].
      rewrite decide_False by lia. by rewrite decide_True by lia.
    + destruct (decide (Z.succ a <= m < Z.succ a + Z.of_nat n)).
      * by rewrite decide_True by lia.
      * rewrite decide_False; [done|]. intros Hm.
        assert (m = a) as -> by lia. apply Ha, HP; lia.
Qed.

Lemma filter_seqZ_unique (P : Z → Prop) `{∀ x, Decision (P x)} (a n m : Z) :
  (∀ x, a <= x < a + n → P x ↔ x = m) →
  filter P (seqZ a n) = if decide (a <= m < a + n) then [m] else [].
Proof.
  intros HP. destruct (Z.le_gt_cases n 0) as [Hn|Hn].
  - rewrite seqZ_nil by done. by rewrite decide_False by lia.
  - rewrite <- (Z2Nat.id n) by lia. apply filter_seqZ_unique_nat.
    rewrite Z2Nat.id by lia. done.
Qed.

Lemma block_partial (r a : Z) :
  1 <= r → (r - 1) * L < a →
  filter (isMine L slot) (seqZ a (r * L - a + 1))
  = if decide (a <= pickOfRound L slot r) then [pickOfRound L slot r] else [].
Proof.
  intros Hr Ha.
  rewrite (filter_seqZ_unique (isMine L slot) a _ (pickOfRound L slot r)).
  - pose proof (pickOfRound_range r).
    destruct (decide (a <= pickOfRound L slot r));
      [by rewrite decide_True by lia|by rewrite decide_False by lia].
  - intros x Hx. apply drafter_round; [done|lia].
Qed.

Lemma full_rounds (k : nat) (r : Z) :
  0 <= r →
  filter (isMine L slot) (seqZ (r * L + 1) (Z.of_nat k * L))
  = map (pickOfRound L slot) (seqZ (r + 1) (Z.of_nat k)).
Proof.
  revert r. induction k as [|k IH]; intros r Hr.
  - by rewrite !seqZ_nil by lia.
  - replace (Z.of_nat (S k) * L) with (L + Z.of_nat k * L) by lia.
    rewrite seqZ_app, filter_app by lia.
    pose proof (block_partial (r + 1) (r * L + 1) ltac:(lia) ltac:(lia)) as Hb.
    replace ((r + 1) * L - (r * L + 1) + 1) with L in Hb by lia.
    pose proof (pickOfRound_range (r + 1)).
    rewrite Hb, decide_True by lia.
    replace (r * L + 1 + L) with ((r + 1) * L + 1) by lia.
    rewrite IH by lia. rewrite (seqZ_cons (r + 1)) by lia. simpl.
    do 3 f_equal; lia.
Qed.

Lemma filter_all_elem {A : Type} (P : A → Prop) `{∀ x, Decision (P x)}
  (l : list A) :
  (∀ x, x ∈ l → P x) → filter P l = l.
Proof.
  induction l as [|x l IH]; intros Hall; [done|].
  rewrite filter_cons_True by (apply Hall; by left).
  f_equal. apply IH. intros y Hy. apply Hall. by right.
Qed.

Lemma scan_all (start rounds : Z) :
  1 <= start →
  let r0 := - (- start / L) in
  filter (isMine L slot) (seqZ start (rounds * L - start + 1))
  = filter (λ x, start <= x)
      (map (pickOfRound L slot) (seqZ r0 (rounds - r0 + 1))).
Proof.
  intros Hstart r0.
  destruct (ceilDiv_pos start L ltac:(lia)) as (c & Hc & Hceil).
  assert (c = r0) as ->.
  { unfold ceilDiv in Hceil. destruct (Z.eqb_spec L 0); [lia|].
    by injection Hceil. }
  assert (1 <= r0) by nia.
  destruct (Z.lt_ge_cases rounds r0) as [Hlt|Hge].
  - by rewrite !seqZ_nil by nia.
  - replace (rounds * L - start + 1)
      with ((r0 * L - start + 1) + Z.of_nat (Z.to_nat (rounds - r0)) * L) by nia.
    rewrite seqZ_app, filter_app by nia.
    rewrite block_partial by lia.
    replace (start + (r0 * L - start + 1)) with (r0 * L + 1) by lia.
    rewrite full_rounds by lia. rewrite Z2Nat.id by lia.
    rewrite (seqZ_cons r0) by lia. simpl. rewrite filter_cons.
    replace (Z.pred (rounds - r0 + 1)) with (rounds - r0) by lia.
    replace (Z.succ r0) with (r0 + 1) by lia.
    rewrite (filter_all_elem (λ x, start <= x)).
    + by destruct (decide (start <= pickOfRound L slot r0)).
    + intros x Hx. apply list_elem_of_In, in_map_iff in Hx as (r & <- & Hr).
      apply list_elem_of_In, elem_of_seqZ in Hr.
      pose proof (pickOfRound_range r). nia.
Qed.

Lemma scan_loop (fuel : nat) (last count x : Z) (picks : list Z) :
  last - x + 1 <= Z.of_nat fuel →
  Scan.loop fuel L slot last count x picks
  = picks ++ take (Z.to_nat (count - Z.of_nat (length picks)))
               (filter (isMine L slot) (seqZ x (last - x + 1))).
Proof.
  revert x picks. induction fuel as [|fuel IH]; intros x picks Hfuel.
  - rewrite seqZ_nil by lia. by rewrite filter_nil, take_nil, app_nil_r.
  - cbn [Scan.loop].
    destruct (Z.ltb_spec (Z.of_nat (length picks)) count) as [Hlen|Hlen];
      [|by rewrite Z2Nat.nonpos by lia; rewrite take_0, app_nil_r].
    destruct (Z.leb_spec x last) as [Hx|Hx]; simpl;
      [|by rewrite seqZ_nil, filter_nil, take_nil, app_nil_r by lia].
    rewrite IH by lia. rewrite (seqZ_cons x) by lia. rewrite filter_cons.
    replace (Z.pred (last - x + 1)) with (last - (x + 1) + 1) by lia.
    replace (Z.succ x) with (x + 1) by lia. unfold isMine at 3.
    case_bool_decide as Hm.
    + rewrite decide_True by done. rewrite length_app. simpl.
      replace (Z.to_nat (count - Z.of_nat (length picks)))
        with (S (Z.to_nat (count - Z.of_nat (length picks + 1)))) by lia.
      simpl. by rewrite <- (assoc_L (++)).
    + by rewrite decide_False by done.
Qed.

Lemma walk_loop (fuel : nat) (rounds start count r : Z) (upcoming : list Z) :
  rounds - r + 1 <= Z.of_nat fuel →
  Z.of_nat (length upcoming) < count →
  Walk.loop fuel L slot rounds start (rounds * L) count r upcoming
  = upcoming ++ take (Z.to_nat (count - Z.of_nat (length upcoming)))
                  (filter (λ x, start <= x)
                     (map (pickOfRound L slot) (seqZ r (rounds - r + 1)))).
Proof.
  revert r upcoming. induction fuel as [|fuel IH]; intros r upcoming Hfuel Hlen.
  - rewrite seqZ_nil by lia. cbn [Walk.loop map].
    by rewrite filter_nil, take_nil, app_nil_r.
  - cbn [Walk.loop].
    destruct (Z.leb_spec r rounds) as [Hr|Hr];
      [|rewrite seqZ_nil by lia; cbn [map];
        by rewrite filter_nil, take_nil, app_nil_r].
    rewrite (seqZ_cons r) by lia. simpl map. rewrite filter_cons.
    replace (Z.pred (rounds - r + 1)) with (rounds - (r + 1) + 1) by lia.
    replace (Z.succ r) with (r + 1) by lia.
    replace (if Z.rem r 2 =? 1
             then (r - 1) * L + 1 + (slot - 1)
             else (r - 1) * L + 1 + (L - slot))
      with (pickOfRound L slot r)
      by (unfold pickOfRound; destruct (Z.rem r 2 =? 1); lia).
    pose proof (pickOfRound_range r) as Hrange.
    destruct (Z.leb_spec start (pickOfRound L slot r)) as [Hs|Hs].
    + rewrite decide_True by done.
      destruct (Z.leb_spec (pickOfRound L slot r) (rounds * L)) as [_|Hbad];
        [|nia]. simpl. rewrite length_app. simpl length.
      replace (Z.to_nat (count - Z.of_nat (length upcoming)))
        with (S (Z.to_nat (count - Z.of_nat (length upcoming + 1)))) by lia.
      cbn [take].
      destruct (Z.leb_spec count (Z.of_nat (length upcoming + 1))) as [Hc|Hc].
      * by rewrite Z2Nat.nonpos by lia; rewrite take_0.
      * rewrite IH by (rewrite ?length_app; simpl; lia).
        rewrite length_app. simpl. by rewrite <- (assoc_L (++)).
    + rewrite decide_False by lia. simpl. by rewrite IH by lia.
Qed.

End Snake.

(** For a requested count of at least 1 both implementations return the
    first [count] remaining picks of the self-owner. *)
Lemma upcoming_versions_agree (settings : DraftSettings) (totalPicksMade : nat)
  (count : Z) :
  1 <= leagueSize settings →
  1 <= draftSlot settings <= leagueSize settings →
  1 <= count →
  Scan.getUpcomingPickIndexes settings totalPicksMade count
  = take (Z.to_nat count) (remainingPicks settings totalPicksMade)
  ∧ Walk.getUpcomingPickIndexes settings totalPicksMade count
    = take (Z.to_nat count) (remainingPicks settings totalPicksMade).
Proof.
  intros HL Hslot Hcount. unfold remainingPicks. split.
  - unfold Scan.getUpcomingPickIndexes.
    rewrite scan_loop by lia. simpl. rewrite Z.sub_0_r.
    by rewrite scan_all by lia.
  - unfold Walk.getUpcomingPickIndexes.
    unfold ceilDiv. destruct (Z.eqb_spec (leagueSize settings) 0); [lia|].
    rewrite walk_loop by (simpl; lia). simpl. by rewrite Z.sub_0_r.
Qed.

(** With a requested count below 1 the round-by-round loop behaves as for a
    count of 1: it tests the count only after it has pushed a pick. *)
Lemma walk_loop_nonpos (fuel : nat) (L slot rounds start last count r : Z) :
  count <= 1 →
  Walk.loop fuel L slot rounds start last count r []
  = Walk.loop fuel L slot rounds start last 1 r [].
Proof.
  intros Hcount. revert r. induction fuel as [|fuel IH]; intros r; [done|].
  cbn [Walk.loop]. destruct (r <=? rounds); [|done].
  match goal with |- context [?a && ?b] => destruct (a && b) end; [|apply IH].
  cbn [app length]. destruct (Z.leb_spec count (Z.of_nat 1)); [done|lia].
Qed.

(** With a requested count below 1 the scanning loop stops before it looks
    at a pick. *)
Lemma scan_nonpos (settings : DraftSettings) (total : nat) (count : Z) :
  count <= 0 → Scan.getUpcomingPickIndexes settings total count = [].
Proof.
  intros Hcount. unfold Scan.getUpcomingPickIndexes.
  destruct (Z.to_nat _) as [|fuel]; [done|]. cbn [Scan.loop length].
  by destruct (Z.ltb_spec (Z.of_nat 0) count); [lia|].
Qed.

Lemma walk_nonpos (settings : DraftSettings) (total : nat) (count : Z) :
  count <= 1 →
  Walk.getUpcomingPickIndexes settings total count
  = Walk.getUpcomingPickIndexes settings total 1.
Proof.
  intros Hcount. unfold Walk.getUpcomingPickIndexes.
  destruct (ceilDiv _ _); [|done..]. by apply walk_loop_nonpos.
Qed.

(** C10.  For a league size of at least 1 and a draft slot within the
    league, the scanning and the round-by-round implementation of
    [getUpcomingPickIndexes] return the same list whenever the requested
    count is at least 1.  For a requested count below 1 the scanning version
    returns nothing, while the round-by-round version returns the
    self-owner's next pick, if one is left. *)
Theorem upcoming_versions_same_list (settings : DraftSettings) (total : nat)
  (count : Z) :
  1 <= leagueSize settings →
  1 <= draftSlot settings <= leagueSize settings →
  (1 <= count →
   Scan.getUpcomingPickIndexes settings total count
   = Walk.getUpcomingPickIndexes settings total count)
  ∧ (count <= 0 →
     Scan.getUpcomingPickIndexes settings total count = []
     ∧ Walk.getUpcomingPickIndexes settings total count
       = take 1 (remainingPicks settings total)).
Proof.
  intros HL Hslot. split.
  - intros Hcount.
    destruct (upcoming_versions_agree settings total count HL Hslot Hcount)
      as [-> ->].
    reflexivity.
  - intros Hcount. split; [by apply scan_nonpos|].
    rewrite walk_nonpos by lia.
    by destruct (upcoming_versions_agree settings total 1 HL Hslot) as [_ ->].
Qed.

Lemma upcoming_versions_same_list_witness :
  Scan.getUpcomingPickIndexes sampleSettings 10 12
  = Walk.getUpcomingPickIndexes sampleSettings 10 12
  ∧ Walk.getUpcomingPickIndexes sampleSettings 10 0
    = take 1 (remainingPicks sampleSettings 10).
Proof.
  destruct (upcoming_versions_same_list sampleSettings 10 0) as [_ H0];
    [simpl; lia..|].
  destruct (upcoming_versions_same_list sampleSettings 10 12) as [H12 _];
    [simpl; lia..|].
  split; [apply H12; lia|apply H0; lia].
Defined.

(** * Further properties *)

(** ** Snake mapping of the draft board *)

Lemma getRoundAndSlot_drafter (x L : Z) :
  getRoundAndSlot x L = (ceilDiv x L, Scan.drafter L x).
Proof.
  unfold getRoundAndSlot, Scan.drafter. by destruct (ceilDiv x L).
Qed.

Lemma snake_slot (L x r : Z) :
  1 <= L → 1 <= r → (r - 1) * L < x <= r * L →
  getRoundAndSlot x L
  = (Fin r, Some (if Z.rem r 2 =? 1 then x - (r - 1) * L
                  else L - (x - (r - 1) * L) + 1)).
Proof.
  intros HL Hr Hx. unfold getRoundAndSlot.
  destruct (ceilDiv_pos x L ltac:(lia)) as (c & Hc & ->).
  assert (c = r) as -> by nia.
  assert (Hrem : Z.rem (x - 1) L = x - 1 - (r - 1) * L).
  { rewrite Z.rem_mod_nonneg by nia. symmetry.
    apply (Z.mod_unique_pos _ _ (r - 1)); nia. }
  rewrite Hrem. do 2 f_equal. destruct (Z.rem r 2 =? 1); lia.
Qed.

Lemma snake_round (L x : Z) :
  1 <= L → 1 <= x → ∃ r, 1 <= r ∧ (r - 1) * L < x <= r * L.
Proof.
  intros HL Hx. destruct (ceilDiv_pos x L ltac:(lia)) as (c & Hc & _).
  exists c. split; [nia|done].
Qed.

(** X1.  For a league of at least one drafter, [getRoundAndSlot] maps every
    overall pick number from 1 on to a finite round [r >= 1] that contains
    the pick ([(r-1)·L < pick <= r·L]) and to a slot between 1 and the
    league size. *)
Theorem getRoundAndSlot_range (L x : Z) :
  1 <= L → 1 <= x →
  ∃ r s, getRoundAndSlot x L = (Fin r, Some s)
         ∧ 1 <= r ∧ (r - 1) * L < x <= r * L ∧ 1 <= s <= L.
Proof.
  intros HL Hx. destruct (snake_round L x HL Hx) as (r & Hr & Hblock).
  eexists r, _. split; [by apply snake_slot|].
  split; [done|]. split; [done|]. destruct (Z.rem r 2 =? 1); lia.
Qed.

Lemma getRoundAndSlot_range_witness :
  ∃ r s, getRoundAndSlot 19 12 = (Fin r, Some s)
         ∧ 1 <= r ∧ (r - 1) * 12 < 19 <= r * 12 ∧ 1 <= s <= 12.
Proof. apply getRoundAndSlot_range; lia. Defined.

Lemma snake_inverse (L : Z) :
  1 <= L →
  (∀ r s, 1 <= r → 1 <= s <= L →
          getRoundAndSlot (pickOfRound L s r) L = (Fin r, Some s))
  ∧ (∀ x r s, 1 <= x → getRoundAndSlot x L = (Fin r, Some s) →
              x = pickOfRound L s r)
  ∧ (∀ x y, 1 <= x → 1 <= y →
            getRoundAndSlot x L = getRoundAndSlot y L → x = y).
Proof.
  intros HL.
  assert (Hback : ∀ x r s, 1 <= x → getRoundAndSlot x L = (Fin r, Some s) →
                           x = pickOfRound L s r).
  { intros x r s Hx Heq.
    destruct (snake_round L x HL Hx) as (r' & Hr' & Hblock).
    rewrite (snake_slot L x r' HL Hr' Hblock) in Heq.
    injection Heq as -> Hs. unfold pickOfRound.
    destruct (Z.rem r 2 =? 1); lia. }
  split; [|split; [done|]].
  - intros r s Hr Hs.
    assert (Hblock : (r - 1) * L < pickOfRound L s r <= r * L)
      by (unfold pickOfRound; destruct (Z.rem r 2 =? 1); lia).
    rewrite (snake_slot L _ r HL Hr Hblock). do 2 f_equal.
    unfold pickOfRound. destruct (Z.rem r 2 =? 1); lia.
  - intros x y Hx Hy Heq.
    destruct (snake_round L x HL Hx) as (r & Hr & Hblock).
    pose proof (snake_slot L x r HL Hr Hblock) as Hrs.
    rewrite (Hback x r _ Hx Hrs). symmetry. apply Hback; [done|].
    by rewrite <- Heq.
Qed.

(** X2.  [getRoundAndSlot] and the per-round pick of the round-by-round
    [getUpcomingPickIndexes] are inverse to each other: the pick of slot [s]
    in round [r] is mapped back to [(r, s)], a pick mapped to [(r, s)] is
    the pick of slot [s] in round [r], and so two different picks never
    share a cell of the board. *)
Theorem getRoundAndSlot_inverse (L : Z) :
  1 <= L →
  (∀ r s, 1 <= r → 1 <= s <= L →
          getRoundAndSlot (pickOfRound L s r) L = (Fin r, Some s))
  ∧ (∀ x r s, 1 <= x → getRoundAndSlot x L = (Fin r, Some s) →
              x = pickOfRound L s r)
  ∧ (∀ x y, 1 <= x → 1 <= y →
            getRoundAndSlot x L = getRoundAndSlot y L → x = y).
Proof. apply snake_inverse. Qed.

Lemma getRoundAndSlot_inverse_witness :
  getRoundAndSlot (pickOfRound 12 6 2) 12 = (Fin 2, Some 6)
  ∧ 19 = pickOfRound 12 6 2.
Proof.
  destruct (getRoundAndSlot_inverse 12 ltac:(lia)) as (Hto & Hback & _).
  split.
  - apply Hto; lia.
  - apply Hback; [lia|reflexivity].
Defined.

(** ** Upcoming picks, continued *)

Lemma remainingPicks_scan (settings : DraftSettings) (total : nat) :
  1 <= leagueSize settings →
  1 <= draftSlot settings <= leagueSize settings →
  remainingPicks settings total
  = filter (isMine (leagueSize settings) (draftSlot settings))
      (seqZ (Z.of_nat total + 1)
         (rounds settings * leagueSize settings - (Z.of_nat total + 1) + 1)).
Proof.
  intros HL Hslot. unfold remainingPicks. symmetry.
  by apply scan_all; [| |lia].
Qed.

Lemma seqZ_increasing (m n : Z) : StronglySorted Z.lt (seqZ m n).
Proof.
  destruct (Z.le_gt_cases n 0) as [Hn|Hn]; [rewrite seqZ_nil by done; constructor|].
  rewrite <- (Z2Nat.id n) by lia. generalize (Z.to_nat n) as k. clear.
  intros k. revert m. induction k as [|k IH]; intros m.
  - rewrite seqZ_nil by done. constructor.
  - rewrite seqZ_cons by lia.
    replace (Z.pred (Z.of_nat (S k))) with (Z.of_nat k) by lia.
    constructor; [apply IH|].
    apply Forall_forall. intros x Hx. apply elem_of_seqZ in Hx. lia.
Qed.

Lemma filter_increasing (P : Z → Prop) `{∀ x, Decision (P x)} (l : list Z) :
  StronglySorted Z.lt l → StronglySorted Z.lt (filter P l).
Proof.
  induction 1 as [|x l Hs IH Hall]; [constructor|].
  rewrite filter_cons. destruct (decide (P x)); [|done].
  constructor; [done|]. apply Forall_forall. intros y Hy.
  apply list_elem_of_filter in Hy as [_ Hy].
  rewrite Forall_forall in Hall. by apply Hall.
Qed.

Lemma take_increasing (n : nat) (l : list Z) :
  StronglySorted Z.lt l → StronglySorted Z.lt (take n l).
Proof.
  intros Hs. rewrite <- (take_drop n l) in Hs.
  by apply StronglySorted_app_1_l in Hs.
Qed.

Lemma take_or_later (n : nat) (l : list Z) (x : Z) :
  StronglySorted Z.lt l → x ∈ l →
  x ∈ take n l ∨ (length (take n l) = n ∧ ∀ y, y ∈ take n l → y < x).
Proof.
  intros Hs Hx. rewrite <- (take_drop n l) in Hx, Hs.
  apply elem_of_app in Hx as [Hx|Hx]; [by left|right]. split.
  - apply length_take_le.
    destruct (Nat.le_gt_cases n (length l)) as [?|Hlt]; [done|].
    rewrite drop_ge in Hx by lia. by apply elem_of_nil in Hx.
  - intros y Hy. by eapply StronglySorted_app_1_elem_of.
Qed.

Lemma isMine_slot (L slot x : Z) :
  isMine L slot x ↔ (getRoundAndSlot x L).2 = Some slot.
Proof. by rewrite getRoundAndSlot_drafter. Qed.

Section ValidSettings.

Context (settings : DraftSettings) (total : nat) (count : Z).
Context (HL : 1 <= leagueSize settings).
Context (Hslot : 1 <= draftSlot settings <= leagueSize settings).
Context (Hcount : 1 <= count).

Lemma upcoming_take :
  Walk.getUpcomingPickIndexes settings total count
  = take (Z.to_nat count)
      (filter (isMine (leagueSize settings) (draftSlot settings))
         (seqZ (Z.of_nat total + 1)
            (rounds settings * leagueSize settings - (Z.of_nat total + 1) + 1))).
Proof.
  destruct (upcoming_versions_agree settings total count HL Hslot Hcount)
    as [_ ->].
  by rewrite remainingPicks_scan.
Qed.

End ValidSettings.

(** X3.  With a league size of at least 1, a draft slot within the league
    and a requested count of at least 1, every pick number returned by the
    current [getUpcomingPickIndexes] lies between the pick on the clock and
    the last pick of the draft, and [getRoundAndSlot] maps it to the user's
    draft slot. *)
Theorem upcoming_picks_are_own (settings : DraftSettings) (total : nat)
  (count x : Z) :
  1 <= leagueSize settings →
  1 <= draftSlot settings <= leagueSize settings →
  1 <= count →
  x ∈ Walk.getUpcomingPickIndexes settings total count →
  Z.of_nat total + 1 <= x <= rounds settings * leagueSize settings
  ∧ (getRoundAndSlot x (leagueSize settings)).2 = Some (draftSlot settings).
Proof.
  intros HL Hslot Hcount. rewrite upcoming_take by done.
  intros Hx. apply elem_of_take in Hx as (i & Hi & _).
  apply list_elem_of_lookup_2, list_elem_of_filter in Hi as [Hmine Hin].
  apply elem_of_seqZ in Hin. split; [lia|by apply isMine_slot].
Qed.

Lemma upcoming_picks_are_own_witness :
  0 + 1 <= 19 <= 16 * 12
  ∧ (getRoundAndSlot 19 12).2 = Some 6.
Proof.
  apply (upcoming_picks_are_own sampleSettings 0 12 19); simpl; try lia.
  do 1 right. left.
Defined.

(** X4.  Under the same conditions the returned picks are strictly
    increasing, there are at most [count] of them, and they are the first
    ones: a pick of the user's slot between the pick on the clock and the
    end of the draft is either returned, or [count] picks are returned and
    all of them are earlier. *)
Theorem upcoming_picks_first (settings : DraftSettings) (total : nat)
  (count : Z) :
  1 <= leagueSize settings →
  1 <= draftSlot settings <= leagueSize settings →
  1 <= count →
  let res := Walk.getUpcomingPickIndexes settings total count in
  StronglySorted Z.lt res
  ∧ Z.of_nat (length res) <= count
  ∧ ∀ x, Z.of_nat total + 1 <= x <= rounds settings * leagueSize settings →
         (getRoundAndSlot x (leagueSize settings)).2 = Some (draftSlot settings) →
         x ∈ res ∨ (Z.of_nat (length res) = count ∧ ∀ y, y ∈ res → y < x).
Proof.
  intros HL Hslot Hcount res. unfold res. rewrite upcoming_take by done.
  set (l := filter _ _).
  assert (Hl : StronglySorted Z.lt l)
    by apply filter_increasing, seqZ_increasing.
  split; [by apply take_increasing|]. split.
  - rewrite length_take. lia.
  - intros x Hx Hmine.
    assert (Hin : x ∈ l).
    { apply list_elem_of_filter. split; [by apply isMine_slot|].
      apply elem_of_seqZ. lia. }
    destruct (take_or_later (Z.to_nat count) l x Hl Hin) as [?|[Hlen Hlt]];
      [by left|right]. split; [lia|done].
Qed.

Lemma upcoming_picks_first_witness :
  StronglySorted Z.lt (Walk.getUpcomingPickIndexes sampleSettings 30 3)
  ∧ Z.of_nat (length (Walk.getUpcomingPickIndexes sampleSettings 30 3)) <= 3.
Proof.
  destruct (upcoming_picks_first sampleSettings 30 3) as (Hs & Hlen & _);
    simpl; try lia.
  split; [exact Hs|exact Hlen].
Defined.

Lemma rem2_succ (r : Z) :
  0 <= r → (Z.rem (r + 1) 2 =? 1) = negb (Z.rem r 2 =? 1).
Proof.
  intros Hr. rewrite !Z.rem_mod_nonneg by lia.
  pose proof (Z.div_mod r 2 ltac:(lia)).
  pose proof (Z.mod_pos_bound r 2 ltac:(lia)).
  pose proof (Z.div_mod (r + 1) 2 ltac:(lia)).
  pose proof (Z.mod_pos_bound (r + 1) 2 ltac:(lia)).
  destruct (Z.eqb_spec ((r + 1) mod 2) 1), (Z.eqb_spec (r mod 2) 1);
    simpl; try reflexivity; lia.
Qed.

Lemma head_take_succ {A : Type} (n : nat) (l : list A) :
  head (take (S n) l) = head l.
Proof. by destruct l. Qed.

Lemma remainingPicks_head (settings : DraftSettings) (total : nat) (n : Z) :
  1 <= leagueSize settings →
  1 <= draftSlot settings <= leagueSize settings →
  head (remainingPicks settings total) = Some n →
  Z.of_nat total + 1 <= n
  ∧ n - (Z.of_nat total + 1) <= 2 * leagueSize settings - 2.
Proof.
  intros HL Hslot. unfold remainingPicks.
  set (L := leagueSize settings) in *. set (slot := draftSlot settings) in *.
  set (start := Z.of_nat total + 1). set (r0 := - (- start / L)).
  destruct (ceilDiv_pos start L ltac:(lia)) as (c & Hc & Hceil).
  assert (c = r0) as ->.
  { unfold ceilDiv in Hceil. destruct (Z.eqb_spec L 0); [lia|].
    by injection Hceil. }
  assert (Hr0 : 1 <= r0) by nia.
  destruct (Z.lt_ge_cases (rounds settings) r0) as [Hlt|Hge].
  { rewrite seqZ_nil by lia. by intros [=]. }
  rewrite (seqZ_cons r0) by lia. cbn [map]. rewrite filter_cons.
  pose proof (pickOfRound_range L slot Hslot r0) as Hp0.
  destruct (decide (start <= pickOfRound L slot r0)) as [Hs|Hs].
  { intros [= <-]. split; [done|]. nia. }
  destruct (Z.le_gt_cases (Z.pred (rounds settings - r0 + 1)) 0) as [Hn|Hn].
  { rewrite seqZ_nil by lia. by intros [=]. }
  rewrite seqZ_cons by lia. cbn [map]. rewrite filter_cons.
  pose proof (pickOfRound_range L slot Hslot (Z.succ r0)) as Hp1.
  rewrite decide_True by nia. intros [= <-]. split; [nia|].
  unfold pickOfRound in *. replace (Z.succ r0) with (r0 + 1) in * by lia.
  rewrite rem2_succ in * by lia.
  destruct (Z.rem r0 2 =? 1); simpl in *; nia.
Qed.

(** X5.  With a league size of at least 1 and a draft slot within the
    league, a displayed [picksUntil] is the distance from the pick on the
    clock to the user's next pick: it is never clamped by [Math.max(0, ·)],
    and it is at most [2·leagueSize − 2]. *)
Theorem picksUntil_distance (settings : DraftSettings) (picks : list Pick)
  (d : Z) :
  1 <= leagueSize settings →
  1 <= draftSlot settings <= leagueSize settings →
  picksUntil settings picks = Some d →
  ∃ n, nextOverall settings picks = Some n
       ∧ d = n - (Z.of_nat (length picks) + 1)
       ∧ 0 <= d <= 2 * leagueSize settings - 2.
Proof.
  intros HL Hslot. unfold picksUntil.
  destruct (nextOverall settings picks) as [n|] eqn:Hnext; [|by intros [=]].
  assert (Hhead : head (remainingPicks settings (length picks)) = Some n).
  { unfold nextOverall in Hnext.
    destruct (upcoming_versions_agree settings (length picks) 12 HL Hslot
                ltac:(lia)) as [_ Hw].
    rewrite Hw in Hnext. change (Z.to_nat 12) with 12%nat in Hnext.
    by rewrite head_take_succ in Hnext. }
  destruct (remainingPicks_head settings (length picks) n HL Hslot Hhead)
    as [Hlo Hhi].
  destruct (Z.eqb_spec n 0); [lia|]. intros [= <-].
  exists n. split; [done|]. lia.
Qed.

Lemma picksUntil_distance_witness :
  ∃ n, nextOverall sampleSettings sampleLog = Some n
       ∧ 12 = n - (Z.of_nat (length sampleLog) + 1)
       ∧ 0 <= 12 <= 2 * leagueSize sampleSettings - 2.
Proof.
  apply picksUntil_distance; simpl; try lia. reflexivity.
Defined.

(** ** Draft board *)

Lemma findPlayer_app (l k : list Player) (i : string) :
  findPlayer (l ++ k) i
  = match findPlayer l i with
    | Some p => Some p
    | None => findPlayer k i
    end.
Proof.
  unfold findPlayer. induction l as [|p l IH]; [done|]. simpl.
  by destruct (bool_decide (player_id p = i)).
Qed.

Lemma findPlayer_None (l : list Player) (i : string) :
  i ∉ map player_id l → findPlayer l i = None.
Proof.
  unfold findPlayer. induction l as [|p l IH]; [done|]. simpl.
  intros Hi. rewrite bool_decide_eq_false_2.
  - apply IH. intros Hin. apply Hi. by right.
  - intros Heq. apply Hi. rewrite Heq. by left.
Qed.

Lemma byIdMap_fold (l : list Player) (m : gmap string Player) (i : string) :
  fold_left (λ m p, <[player_id p := p]> m) l m !! i
  = match findPlayer (reverse l) i with
    | Some p => Some p
    | None => m !! i
    end.
Proof.
  revert m. induction l as [|p l IH]; intros m; [done|]. simpl.
  rewrite IH, reverse_cons, findPlayer_app.
  destruct (findPlayer (reverse l) i); [done|].
  unfold findPlayer. simpl. case_bool_decide as Hid.
  - by rewrite <- Hid, lookup_insert_eq.
  - by rewrite lookup_insert_ne.
Qed.

(** X6.  The board resolves a player id to the last catalog entry with that
    id, the roster projector to the first one; when the ids of the catalog
    are pairwise different both resolve every id to the same player. *)
Theorem byId_resolution (players : list Player) (i : string) :
  byIdMap players !! i = findPlayer (reverse players) i
  ∧ (NoDup (map player_id players) →
     byIdMap players !! i = findPlayer players i).
Proof.
  assert (Hlast : byIdMap players !! i = findPlayer (reverse players) i).
  { unfold byIdMap. rewrite byIdMap_fold, lookup_empty.
    by destruct (findPlayer (reverse players) i). }
  split; [done|]. intros Hnd. rewrite Hlast. clear Hlast.
  induction players as [|p l IH]; [done|].
  simpl in Hnd. apply NoDup_cons in Hnd as [Hp Hnd].
  rewrite reverse_cons, findPlayer_app, IH by done.
  unfold findPlayer at 2 3. simpl. case_bool_decide as Hid.
  - rewrite findPlayer_None; [done|]. by rewrite <- Hid.
  - fold (findPlayer l i). by destruct (findPlayer l i).
Qed.

Lemma byId_resolution_witness :
  byIdMap sampleCatalog !! "te2" = findPlayer sampleCatalog "te2".
Proof.
  apply byId_resolution. repeat constructor; compute_done.
Defined.

(** *** Writes stay inside the grid *)

Lemma ceilDiv_neg_league (x L r : Z) :
  1 <= x → L < 0 → ceilDiv x L = Fin r → r <= 0.
Proof.
  intros Hx HL. unfold ceilDiv. destruct (Z.eqb_spec L 0); [lia|].
  intros [= <-].
  assert (0 <= - x / L); [|lia].
  rewrite <- (Z.opp_involutive L), Z.div_opp_opp by lia.
  apply Z.div_pos; lia.
Qed.

Lemma gridStep_in_range (L R x round slot : Z) :
  1 <= x →
  getRoundAndSlot x L = (Fin round, Some slot) →
  1 <= round <= R →
  1 <= L ∧ 0 <= round - 1 < R ∧ 0 <= slot - 1 < L.
Proof.
  intros Hx Heq Hguard.
  assert (HL : 1 <= L).
  { destruct (Z.lt_trichotomy L 0) as [Hneg|[->|?]]; [| |lia].
    - rewrite getRoundAndSlot_drafter in Heq. injection Heq as Hc _.
      pose proof (ceilDiv_neg_league x L round Hx Hneg Hc). lia.
    - rewrite getRoundAndSlot_drafter in Heq. injection Heq as Hc _.
      unfold ceilDiv in Hc. simpl in Hc. by destruct (0 <? x), (x <? 0). }
  split; [done|]. split; [lia|].
  destruct (snake_round L x HL Hx) as (r & Hr & Hblock).
  rewrite (snake_slot L x r HL Hr Hblock) in Heq. injection Heq as _ <-.
  destruct (Z.rem r 2 =? 1); lia.
Qed.

Lemma setCell_shape (R L : nat) (g : list (list (option Player))) (r s : nat) (v : option Player) :
  gridShape R L g → gridShape R L (setCell g r s v).
Proof.
  intros [Hlen Hrows]. unfold setCell. split; [by rewrite length_alter|].
  apply Forall_lookup. intros j row Hj.
  rewrite Forall_lookup in Hrows.
  destruct (decide (r = j)) as [->|Hne].
  - rewrite list_lookup_alter_eq in Hj.
    destruct (g !! j) as [row'|] eqn:Hrow; [|done].
    injection Hj as <-. rewrite length_insert. by eapply Hrows.
  - rewrite list_lookup_alter_ne in Hj by done. by eapply Hrows.
Qed.

Lemma gridStep_shape (byId : gmap string Player) (L R : Z) (g : list (list (option Player)))
  (i : nat) (pk : Pick) :
  gridShape (Z.to_nat R) (Z.to_nat L) g →
  gridShape (Z.to_nat R) (Z.to_nat L) (gridStep byId L R g i pk).
Proof.
  intros Hg. unfold gridStep.
  destruct (getRoundAndSlot _ L) as [[round| | |] [slot|]]; try done.
  destruct (_ && _); [by apply setCell_shape|done].
Qed.

Lemma gridLoop_shape (byId : gmap string Player) (L R : Z) (picks : list Pick)
  (i : nat) (g : list (list (option Player))) :
  gridShape (Z.to_nat R) (Z.to_nat L) g →
  gridShape (Z.to_nat R) (Z.to_nat L) (gridLoop byId L R i picks g).
Proof.
  revert i g. induction picks as [|pk rest IH]; intros i g Hg; [done|].
  simpl. by apply IH, gridStep_shape.
Qed.

Lemma emptyGrid_shape (R L : Z) :
  gridShape (Z.to_nat R) (Z.to_nat L) (emptyGrid R L).
Proof.
  unfold emptyGrid. split; [by rewrite length_replicate|].
  apply Forall_replicate. by rewrite length_replicate.
Qed.

(** X7.  [buildTakenGrid] never writes outside the grid: whenever the round
    test of the loop passes for a pick, the league size is positive and the
    row and column indexes are within the [rounds × leagueSize] grid; so the
    result always has [rounds] rows of [leagueSize] cells (none for a
    negative number). *)
Theorem buildTakenGrid_shape (picks : list Pick) (players : list Player)
  (settings : DraftSettings) :
  (∀ i round slot,
     getRoundAndSlot (Z.of_nat i + 1) (leagueSize settings)
     = (Fin round, Some slot) →
     1 <= round <= rounds settings →
     0 <= round - 1 < rounds settings ∧ 0 <= slot - 1 < leagueSize settings)
  ∧ length (buildTakenGrid picks players settings) = Z.to_nat (rounds settings)
  ∧ Forall (λ row, length row = Z.to_nat (leagueSize settings))
      (buildTakenGrid picks players settings).
Proof.
  split.
  - intros i round slot Heq Hguard.
    by destruct (gridStep_in_range (leagueSize settings) (rounds settings)
                   (Z.of_nat i + 1) round slot ltac:(lia) Heq Hguard)
      as (_ & ? & ?).
  - apply gridLoop_shape, emptyGrid_shape.
Qed.

Lemma buildTakenGrid_shape_witness :
  0 <= 2 - 1 < rounds boardSettings ∧ 0 <= 2 - 1 < leagueSize boardSettings.
Proof.
  destruct (buildTakenGrid_shape boardLog sampleCatalog boardSettings)
    as (Hin & _).
  apply (Hin 2%nat 2 2); [reflexivity|simpl; lia].
Defined.

Lemma cell_setCell_eq (R L : nat) (g : list (list (option Player)))
  (r s : nat) (v : option Player) :
  gridShape R L g → (r < R)%nat → (s < L)%nat →
  cell (setCell g r s v) r s = Some v.
Proof.
  intros [Hlen Hrows] Hr Hs. unfold cell, setCell.
  rewrite list_lookup_alter_eq.
  destruct (lookup_lt_is_Some_2 g r ltac:(lia)) as [row Hrow].
  rewrite Hrow. simpl. apply list_lookup_insert_eq.
  rewrite Forall_lookup in Hrows. rewrite (Hrows _ _ Hrow). done.
Qed.

Lemma cell_setCell_ne (g : list (list (option Player))) (r s r' s' : nat)
  (v : option Player) :
  (r, s) ≠ (r', s') → cell (setCell g r s v) r' s' = cell g r' s'.
Proof.
  intros Hne. unfold cell, setCell.
  destruct (decide (r = r')) as [->|Hr].
  - rewrite list_lookup_alter_eq. destruct (g !! r') as [row|]; [|done].
    simpl. apply list_lookup_insert_ne. congruence.
  - by rewrite list_lookup_alter_ne.
Qed.

Lemma boardIndex_pick (L : Z) (r s i : nat) :
  1 <= L → (s < Z.to_nat L)%nat →
  boardIndex L r s = i
  ↔ pickOfRound L (Z.of_nat s + 1) (Z.of_nat r + 1) = Z.of_nat i + 1.
Proof.
  intros HL Hs. unfold boardIndex.
  pose proof (pickOfRound_range L (Z.of_nat s + 1) ltac:(lia) (Z.of_nat r + 1)).
  split; intros; nia.
Qed.

Lemma gridStep_cell (byId : gmap string Player) (L R : Z)
  (g : list (list (option Player))) (i : nat) (pk : Pick) (r s : nat) :
  1 <= L →
  gridShape (Z.to_nat R) (Z.to_nat L) g →
  (r < Z.to_nat R)%nat → (s < Z.to_nat L)%nat →
  cell (gridStep byId L R g i pk) r s
  = if decide (boardIndex L r s = i)
    then Some (byId !! pick_player_id pk)
    else cell g r s.
Proof.
  intros HL Hg Hr Hs. unfold gridStep.
  destruct (snake_inverse L HL) as (Hto & Hback & _).
  destruct (snake_round L (Z.of_nat i + 1) HL ltac:(lia)) as (r1 & Hr1 & Hblock).
  pose proof (snake_slot L _ r1 HL Hr1 Hblock) as Heq. rewrite Heq.
  set (s1 := if Z.rem r1 2 =? 1 then _ else _) in *.
  assert (Hs1 : 1 <= s1 <= L) by (unfold s1; destruct (Z.rem r1 2 =? 1); lia).
  pose proof (Hback (Z.of_nat i + 1) r1 s1 ltac:(lia) Heq) as Hpick.
  case_decide as Hidx.
  - apply boardIndex_pick in Hidx; [|done..].
    pose proof (Hto (Z.of_nat r + 1) (Z.of_nat s + 1) ltac:(lia) ltac:(lia))
      as Hcell.
    rewrite Hidx, Heq in Hcell. injection Hcell as Hr1' Hs1'.
    rewrite Hr1', Hs1'.
    destruct (Z.leb_spec 1 (Z.of_nat r + 1)); [|lia].
    destruct (Z.leb_spec (Z.of_nat r + 1) R); [|lia]. simpl.
    replace (Z.to_nat (Z.of_nat r + 1 - 1)) with r by lia.
    replace (Z.to_nat (Z.of_nat s + 1 - 1)) with s by lia.
    by eapply cell_setCell_eq.
  - destruct (_ && _); [|done]. apply cell_setCell_ne. intros [= Hr' Hs'].
    apply Hidx, boardIndex_pick; [done..|].
    rewrite Hpick. f_equal; lia.
Qed.

Lemma gridLoop_cell (byId : gmap string Player) (L R : Z) (picks : list Pick)
  (i : nat) (g : list (list (option Player))) (r s : nat) :
  1 <= L →
  gridShape (Z.to_nat R) (Z.to_nat L) g →
  (r < Z.to_nat R)%nat → (s < Z.to_nat L)%nat →
  cell (gridLoop byId L R i picks g) r s
  = match (if decide (i ≤ boardIndex L r s)%nat
           then picks !! (boardIndex L r s - i)%nat else None) with
    | Some pk => Some (byId !! pick_player_id pk)
    | None => cell g r s
    end.
Proof.
  intros HL Hg Hr Hs. revert i g Hg.
  induction picks as [|pk rest IH]; intros i g Hg.
  - simpl. by case_decide.
  - cbn [gridLoop]. rewrite IH by (by apply gridStep_shape).
    rewrite gridStep_cell by done.
    set (k := boardIndex L r s).
    destruct (decide (S i ≤ k)%nat) as [Hlt|Hge].
    + rewrite (decide_True (P := (i ≤ k)%nat)) by lia.
      replace (k - i)%nat with (S (k - S i)) by lia. simpl.
      destruct (rest !! (k - S i)%nat); [done|].
      by rewrite (decide_False (P := k = i)) by lia.
    + destruct (decide (k = i)) as [Heq|Hne].
      * rewrite (decide_True (P := (i ≤ k)%nat)) by lia.
        by rewrite Heq, Nat.sub_diag.
      * by rewrite (decide_False (P := (i ≤ k)%nat)) by lia.
Qed.

(** X8.  For a league of at least one drafter, the cell of row [r] and
    column [s] of the board (both 0-based, within the grid) holds the player
    of the pick made at that round and slot of the snake order, resolved by
    id, and is empty when that pick has not been made or its id is not in
    the catalog.  Picks beyond the last round appear in no cell. *)
Theorem buildTakenGrid_cells (picks : list Pick) (players : list Player)
  (settings : DraftSettings) (r s : nat) :
  1 <= leagueSize settings →
  (r < Z.to_nat (rounds settings))%nat →
  (s < Z.to_nat (leagueSize settings))%nat →
  cell (buildTakenGrid picks players settings) r s
  = Some (picks !! boardIndex (leagueSize settings) r s
          ≫= λ pk, byIdMap players !! pick_player_id pk)
  ∧ (boardIndex (leagueSize settings) r s
     < Z.to_nat (rounds settings * leagueSize settings))%nat.
Proof.
  intros HL Hr Hs. split.
  - unfold buildTakenGrid.
    rewrite gridLoop_cell by (done || apply emptyGrid_shape).
    rewrite decide_True by lia. rewrite Nat.sub_0_r.
    destruct (picks !! _); [done|]. simpl.
    unfold cell, emptyGrid. rewrite lookup_replicate_2 by done. simpl.
    by rewrite lookup_replicate_2.
  - unfold boardIndex.
    pose proof (pickOfRound_range (leagueSize settings) (Z.of_nat s + 1)
                  ltac:(lia) (Z.of_nat r + 1)).
    nia.
Qed.

Lemma buildTakenGrid_cells_witness :
  cell (buildTakenGrid boardLog sampleCatalog boardSettings) 1 1 = Some (Some wr1)
  ∧ cell (buildTakenGrid boardLog sampleCatalog boardSettings) 1 0 = Some None.
Proof.
  split.
  - destruct (buildTakenGrid_cells boardLog sampleCatalog boardSettings 1 1)
      as [H _]; simpl; try lia. exact H.
  - destruct (buildTakenGrid_cells boardLog sampleCatalog boardSettings 1 0)
      as [H _]; simpl; try lia. exact H.
Defined.

(** ** Roster projector, continued *)

Lemma greedySlot_cases (p : Player) (r : Roster) :
  (greedySlot p r = slotOf (position p)
   ∧ (length (r (slotOf (position p))) < starterCapacity (position p))%nat)
  ∨ (greedySlot p r = FLEX
     ∧ (starterCapacity (position p) ≤ length (r (slotOf (position p))))%nat
     ∧ length (r FLEX) = 0%nat)
  ∨ (greedySlot p r = BENCH
     ∧ (starterCapacity (position p) ≤ length (r (slotOf (position p))))%nat).
Proof.
  unfold greedySlot. repeat case_decide; [left|right; left|right; right];
    repeat split; try done; lia.
Qed.

Lemma heldAt_allocate (r : Roster) (p : Player) (pos : Position) :
  heldAt (allocate r p) pos
  = (heldAt r pos + if decide (position p = pos) then 1 else 0)%nat.
Proof.
  unfold heldAt, allocate.
  rewrite (push_concat_in r _ p all_slots all_slots_NoDup (all_slots_complete _)).
  rewrite filter_app, length_app, filter_cons, filter_nil.
  by destruct (decide (position p = pos)).
Qed.

Lemma heldAt_empty (pos : Position) : heldAt emptyRoster pos = 0%nat.
Proof. reflexivity. Qed.

(** The invariants the allocation loop keeps. *)
Lemma allocate_invariant (l : list Player) (r : Roster) :
  (∀ pos, length (r (slotOf pos))
          = Nat.min (starterCapacity pos) (heldAt r pos)) →
  (length (r FLEX) ≤ 1)%nat → r IR = [] →
  let r' := fold_left allocate l r in
  (∀ pos, length (r' (slotOf pos))
          = Nat.min (starterCapacity pos) (heldAt r' pos))
  ∧ (length (r' FLEX) ≤ 1)%nat ∧ r' IR = [].
Proof.
  revert r. induction l as [|p l IH]; intros r Hslots Hflex Hir; [done|].
  cbn [fold_left]. apply IH.
  - intros pos. rewrite heldAt_allocate. unfold allocate, push.
    rewrite findSlot_greedy.
    destruct (slotOf_not_flex_bench pos) as [HF HB].
    pose proof (Hslots pos) as Hpos.
    destruct (greedySlot_cases p r) as [[-> Hroom]|[(-> & Hfull & _)|[-> Hfull]]].
    + destruct (decide (position p = pos)) as [<-|Hne].
      * rewrite decide_True by done. rewrite length_app. simpl. lia.
      * rewrite decide_False by (intros Heq; by apply slotOf_inj in Heq).
        lia.
    + rewrite decide_False by done.
      destruct (decide (position p = pos)) as [<-|Hne]; lia.
    + rewrite decide_False by done.
      destruct (decide (position p = pos)) as [<-|Hne]; lia.
  - unfold allocate, push. rewrite findSlot_greedy.
    destruct (slotOf_not_flex_bench (position p)) as [HF HB].
    destruct (greedySlot_cases p r) as [[-> _]|[(-> & _ & Hempty)|[-> _]]].
    + by rewrite decide_False by done.
    + rewrite decide_True by done. rewrite length_app. simpl. lia.
    + by rewrite decide_False by done.
  - unfold allocate, push. rewrite findSlot_greedy.
    rewrite decide_False; [done|].
    destruct (greedySlot_cases p r) as [[-> _]|[(-> & _)|[-> _]]];
      try done. by destruct (position p).
Qed.

Lemma yourRoster_invariant (players : list Player) (ids : list string) :
  let r := yourRoster players ids in
  (∀ pos, length (r (slotOf pos))
          = Nat.min (starterCapacity pos) (heldAt r pos))
  ∧ (length (r FLEX) ≤ 1)%nat ∧ r IR = [].
Proof.
  apply allocate_invariant.
  - intros pos. rewrite heldAt_empty. simpl. lia.
  - simpl. lia.
  - reflexivity.
Qed.

(** X9.  Whatever the catalog and the picks, the derived roster fills the
    starter slots first: the starter slot of a position holds
    [min(capacity, number of the self-owner's players of that position)]
    players, all of that position; FLEX holds at most one player, who is an
    RB, WR or TE; and nothing is ever placed in IR. *)
Theorem projector_slot_discipline (players : list Player) (ids : list string) :
  let r := yourRoster players ids in
  (∀ pos, length (r (slotOf pos))
          = Nat.min (starterCapacity pos) (heldAt r pos)
          ∧ ∀ p, p ∈ r (slotOf pos) → position p = pos)
  ∧ (length (r FLEX) ≤ 1)%nat
  ∧ (∀ p, p ∈ r FLEX → position p ∈ FLEX_ELIGIBLE)
  ∧ r IR = [].
Proof.
  intros r.
  destruct (yourRoster_invariant players ids) as (Hslots & Hflex & Hir).
  destruct (yourRoster_sound players ids) as [Hown Heligible].
  repeat split; auto.
Qed.

Lemma projector_slot_discipline_witness :
  position rb3 ∈ FLEX_ELIGIBLE.
Proof.
  destruct (projector_slot_discipline sampleCatalog (yourIds sampleLog))
    as (_ & _ & H & _).
  apply H. left.
Defined.

Lemma rosterCounts_fold (players : list Player) (ids : list string)
  (acc : Position → nat) (pos : Position) :
  fold_left
    (λ counts i,
       match findPlayer players i with
       | Some p => pset counts (position p) (S (counts (position p)))
       | None => counts
       end) ids acc pos
  = (acc pos
     + length (filter (λ p, position p = pos) (chosenPlayers players ids)))%nat.
Proof.
  revert acc. induction ids as [|i ids IH]; intros acc; [simpl; lia|].
  cbn [fold_left]. rewrite IH.
  change (chosenPlayers players (i :: ids))
    with (from_option (λ q, q :: chosenPlayers players ids)
            (chosenPlayers players ids) (findPlayer players i)).
  destruct (findPlayer players i) as [p|]; [|done]. simpl.
  rewrite filter_cons. unfold pset.
  destruct (decide (pos = position p)) as [->|Hne].
  - rewrite decide_True by done. simpl. lia.
  - by rewrite decide_False by done.
Qed.

Lemma rosterCounts_heldAt (players : list Player) (ids : list string)
  (pos : Position) :
  rosterCounts players ids pos = heldAt (yourRoster players ids) pos.
Proof.
  unfold rosterCounts, heldAt, yourRoster.
  rewrite rosterCounts_fold, allocate_all_perm. simpl.
  reflexivity.
Qed.

(** X10.  The per-position counts of the [rosterCounts] memo are the numbers
    of own picks that resolve to a player of the position, and they equal
    the numbers of players of each position over all slot categories of the
    derived roster, BENCH included. *)
Theorem rosterCounts_roster (players : list Player) (ids : list string)
  (pos : Position) :
  rosterCounts players ids pos
  = length (filter (λ p, position p = pos) (chosenPlayers players ids))
  ∧ rosterCounts players ids pos = heldAt (yourRoster players ids) pos.
Proof.
  split; [|apply rosterCounts_heldAt].
  unfold rosterCounts. by rewrite rosterCounts_fold.
Qed.

(** ** Caps in the engine and in the recommended list *)

Lemma filter_own_slot (r : Roster) (pos : Position) :
  rosterSound r →
  filter (λ q, position q = pos) (r (slotOf pos)) = r (slotOf pos).
Proof.
  intros [Hown _]. apply filter_all_elem. intros q Hq. by apply Hown.
Qed.

Lemma filter_other_slot (r : Roster) (pos pos' : Position) :
  rosterSound r → pos' ≠ pos →
  filter (λ q, position q = pos) (r (slotOf pos')) = [].
Proof.
  intros [Hown _] Hne. apply filter_none_elem. intros q Hq Hpos.
  apply Hown in Hq. congruence.
Qed.

Lemma heldAt_split (r : Roster) (pos : Position) :
  rosterSound r →
  heldAt r pos
  = (length (r (slotOf pos))
     + length (filter (λ q, position q = pos) (r FLEX))
     + length (filter (λ q, position q = pos) (r BENCH))
     + length (filter (λ q, position q = pos) (r IR)))%nat.
Proof.
  intros Hsound. unfold heldAt, all_slots. cbn [map concat].
  rewrite !filter_app, !length_app, filter_nil.
  change (r SlotQB) with (r (slotOf QB)). change (r SlotRB) with (r (slotOf RB)).
  change (r SlotWR) with (r (slotOf WR)). change (r SlotTE) with (r (slotOf TE)).
  change (r SlotDST) with (r (slotOf DST)). change (r SlotK) with (r (slotOf K)).
  destruct pos;
    rewrite filter_own_slot, !filter_other_slot by done; simpl; lia.
Qed.

Lemma countOnRoster_flex (inp : ModelInputs) (pos : Position) :
  rosterSound (in_yourRoster inp) →
  countOnRoster inp pos
  = Z.of_nat (length (in_yourRoster inp (slotOf pos))
              + length (filter (λ q, position q = pos) (in_yourRoster inp FLEX))).
Proof.
  intros Hsound. unfold countOnRoster.
  destruct (bool_decide (pos ≠ DST) && bool_decide (pos ≠ K)) eqn:Hb; [lia|].
  rewrite filter_none_elem; [simpl; lia|].
  intros q Hq Hpos. destruct Hsound as [_ Hflex]. apply Hflex in Hq.
  rewrite Hpos in Hq. unfold FLEX_ELIGIBLE in Hq.
  apply andb_false_iff in Hb as [Hb|Hb]; apply bool_decide_eq_false in Hb;
    (assert (pos = DST ∨ pos = K) as [-> | ->] by (destruct pos; naive_solver));
    set_solver.
Qed.

(** X11.  For the inputs the application derives from a draft log, the
    engine's roster count of a position never exceeds the [rosterCounts]
    count, so every position the engine caps is capped in the recommended
    list as well; and for QB, DST and K the two cap tests agree. *)
Theorem engine_cap_within_list_cap (settings : DraftSettings)
  (players : list Player) (picks : list Pick) (counts : Position → nat) :
  let inp := appInputs settings players picks counts in
  let held := rosterCounts players (yourIds picks) in
  (∀ pos, countOnRoster inp pos <= Z.of_nat (held pos))
  ∧ (∀ p, position p = QB ∨ position p = DST ∨ position p = K →
          capped inp p = true ↔ (1 ≤ held (position p))%nat).
Proof.
  intros inp held.
  pose proof (yourRoster_sound players (yourIds picks)) as Hsound.
  destruct (yourRoster_invariant players (yourIds picks)) as (Hslots & _).
  assert (Hle : ∀ pos, countOnRoster inp pos <= Z.of_nat (held pos)).
  { intros pos. unfold held. rewrite rosterCounts_heldAt.
    rewrite countOnRoster_flex, (heldAt_split _ pos Hsound) by done.
    unfold inp, appInputs. simpl. lia. }
  split; [done|]. intros p Hp. rewrite capped_spec.
  assert (Hflex0 : filter (λ q, position q = position p)
                     (in_yourRoster inp FLEX) = []).
  { apply filter_none_elem. intros q Hq Hpos. destruct Hsound as [_ Hflex].
    apply Hflex in Hq. rewrite Hpos in Hq. unfold FLEX_ELIGIBLE in Hq.
    destruct Hp as [Hp|[Hp|Hp]]; rewrite Hp in Hq; set_solver. }
  assert (Hcount : countOnRoster inp (position p)
                   = Z.of_nat (Nat.min 1 (held (position p)))).
  { rewrite countOnRoster_flex, Hflex0 by done. simpl.
    unfold inp, appInputs. simpl. rewrite Hslots.
    unfold held. rewrite rosterCounts_heldAt.
    destruct Hp as [Hp|[Hp|Hp]]; rewrite Hp; simpl; lia. }
  assert (Hcap : MAX_BY_POSITION (position p) = Some 1)
    by (destruct Hp as [Hp|[Hp|Hp]]; by rewrite Hp).
  split.
  - intros (cap & Hc & Hge). rewrite Hcap in Hc. injection Hc as <-. lia.
  - intros Hheld. exists 1. split; [done|]. lia.
Qed.

Lemma engine_cap_within_list_cap_witness :
  capped (appInputs sampleSettings sampleCatalog sampleLog noPicks) k1 = true
  ↔ (1 ≤ rosterCounts sampleCatalog (yourIds sampleLog) K)%nat.
Proof.
  destruct (engine_cap_within_list_cap sampleSettings sampleCatalog sampleLog
              noPicks) as [_ H].
  apply (H k1). right. right. reflexivity.
Defined.

(** ** The recommended list *)

Lemma filterb_sublist {A : Type} (f : A → bool) (l : list A) :
  List.filter f l `sublist_of` l.
Proof.
  induction l as [|x l IH]; simpl; [constructor|].
  destruct (f x); by constructor.
Qed.

Lemma filterb_elem {A : Type} (f : A → bool) (l : list A) (x : A) :
  x ∈ List.filter f l ↔ x ∈ l ∧ f x = true.
Proof. rewrite !list_elem_of_In. apply filter_In. Qed.

Lemma yourRoster_taken (players : list Player) (picks : list Pick)
  (s : Slot) (p : Player) :
  p ∈ yourRoster players (yourIds picks) s → player_id p ∈ takenSet picks.
Proof.
  intros Hp.
  assert (Hin : p ∈ concat (map (yourRoster players (yourIds picks)) all_slots)).
  { apply list_elem_of_In, in_concat. eexists. split.
    - apply in_map, list_elem_of_In, (all_slots_complete s).
    - by apply list_elem_of_In. }
  unfold yourRoster in Hin at 1. rewrite allocate_all_perm in Hin.
  simpl in Hin. apply list_elem_of_omap in Hin as (i & Hi & Hfind).
  apply findPlayer_id in Hfind as ->.
  unfold takenSet. apply elem_of_list_to_set.
  unfold yourIds in Hi. apply list_elem_of_In, in_map_iff in Hi as (k & <- & Hk).
  apply list_elem_of_In, in_map. apply list_elem_of_In.
  apply list_elem_of_In in Hk. by apply list_elem_of_filter in Hk as [_ ?].
Qed.

(** X12.  For the inputs the application derives from a draft log, no player
    on the self-owner's roster, in whatever slot category, and no player
    whose id occurs in the log is part of the ranking. *)
Theorem owned_players_not_ranked (settings : DraftSettings)
  (players : list Player) (picks : list Pick) (counts : Position → nat) :
  let ranking := rankPlayers (appInputs settings players picks counts) in
  (∀ s p, p ∈ yourRoster players (yourIds picks) s →
          p ∉ rankedPlayers ranking)
  ∧ (∀ k p, k ∈ picks → player_id p = pick_player_id k →
            p ∉ rankedPlayers ranking).
Proof.
  intros ranking.
  assert (Htaken : ∀ p, player_id p ∈ takenSet picks → p ∉ rankedPlayers ranking).
  { intros p Hp Hin. apply rankPlayers_players in Hin as (_ & Hnot & _).
    by apply Hnot. }
  split.
  - intros s p Hp. by eapply Htaken, yourRoster_taken.
  - intros k p Hk Hid. apply Htaken. rewrite Hid.
    apply elem_of_list_to_set, list_elem_of_In, in_map.
    by apply list_elem_of_In.
Qed.

Lemma owned_players_not_ranked_witness :
  te2 ∉ rankedPlayers
          (rankPlayers (appInputs sampleSettings sampleCatalog sampleLog noPicks)).
Proof.
  destruct (owned_players_not_ranked sampleSettings sampleCatalog sampleLog
              noPicks) as [H _].
  apply (H BENCH). left.
Defined.

Section RecommendedList.

Context (toLowerCase : string → string) (includes : string → string → bool).
Context (settings : DraftSettings) (players : list Player).
Context (picks : list Pick) (counts : Position → nat).

Let ranking := rankPlayers (appInputs settings players picks counts).
Let held := rosterCounts players (yourIds picks).
Let roster := yourRoster players (yourIds picks).

Lemma keepScored_cap (posFilter : PosFilter) (text : string) (s : Scored) :
  keepScored toLowerCase includes held posFilter text s = true →
  (∀ cap, MAX_BY_POSITION (position (player s)) = Some cap →
          Z.of_nat (heldAt roster (position (player s))) < cap)
  ∧ match posFilter with
    | ALL => True
    | Only want => position (player s) = want
    end.
Proof.
  unfold keepScored. cbv zeta. intros Hkeep. split.
  - intros cap Hcap. rewrite Hcap in Hkeep.
    destruct (Z.leb_spec cap (Z.of_nat (held (position (player s)))))
      as [?|Hlt]; [done|].
    unfold held in Hlt. by rewrite rosterCounts_heldAt in Hlt.
  - destruct (match MAX_BY_POSITION _ with Some _ => _ | None => _ end);
      [done|].
    destruct posFilter as [|want]; [done|].
    case_bool_decide as Hw; [done|]. by destruct (decide (position (player s) = want)).
Qed.

Lemma keepScored_all (s : Scored) :
  keepScored toLowerCase includes held ALL "" s = true
  ↔ ∀ cap, MAX_BY_POSITION (position (player s)) = Some cap →
           Z.of_nat (heldAt roster (position (player s))) < cap.
Proof.
  unfold keepScored. cbv zeta. simpl.
  unfold roster. rewrite <- rosterCounts_heldAt. fold held.
  destruct (MAX_BY_POSITION (position (player s))) as [cap|].
  - destruct (Z.leb_spec cap (Z.of_nat (held (position (player s))))).
    + split; [done|]. intros Hall. specialize (Hall cap eq_refl). lia.
    + split; [|done]. by intros _ cap' [= <-].
  - split; [|done]. by intros _ cap' [=].
Qed.

(** X13.  The recommended list is the ranking with entries removed: it keeps
    the ranking order, shows at most 18 entries, namely the first ones that
    pass the filters; no shown player is taken, and none plays a position at
    which the self-owner, counting every slot category of the roster, has
    reached the hard cap.  Without a position chip and search text exactly
    the ranked players of positions below the cap pass. *)
Theorem recommended_list (posFilter : PosFilter) (text : string) :
  let kept := filtered toLowerCase includes ranking held posFilter text in
  let shown := myRecommended toLowerCase includes ranking held posFilter text in
  kept `sublist_of` ranking
  ∧ shown `prefix_of` kept
  ∧ (length shown ≤ 18)%nat
  ∧ (∀ s, s ∈ kept →
          (player_id (player s) ∉ takenSet picks)
          ∧ (∀ cap, MAX_BY_POSITION (position (player s)) = Some cap →
                    Z.of_nat (heldAt roster (position (player s))) < cap)
          ∧ match posFilter with
            | ALL => True
            | Only want => position (player s) = want
            end)
  ∧ (∀ s, s ∈ filtered toLowerCase includes ranking held ALL "" ↔
          s ∈ ranking
          ∧ ∀ cap, MAX_BY_POSITION (position (player s)) = Some cap →
                   Z.of_nat (heldAt roster (position (player s))) < cap).
Proof.
  intros kept shown. unfold kept, shown, myRecommended, filtered.
  split; [apply filterb_sublist|]. split; [apply prefix_take|].
  split; [rewrite length_take; lia|]. split.
  - intros s Hs. apply filterb_elem in Hs as [Hin Hkeep].
    split; [|by apply keepScored_cap in Hkeep].
    assert (Hp : player s ∈ map player ranking)
      by (apply list_elem_of_In, in_map; by apply list_elem_of_In).
    by apply rankPlayers_players in Hp as (_ & ? & _).
  - intros s. rewrite filterb_elem. by rewrite keepScored_all.
Qed.

End RecommendedList.

Lemma recommended_list_witness :
  filtered (λ x, x) String.eqb
    (rankPlayers (appInputs sampleSettings sampleCatalog sampleLog noPicks))
    (rosterCounts sampleCatalog (yourIds sampleLog)) (Only TE) "" = [].
Proof.
  destruct (recommended_list (λ x, x) String.eqb sampleSettings sampleCatalog
              sampleLog noPicks (Only TE) "") as (_ & _ & _ & H & _).
  destruct (filtered _ _ _ _ _ _) as [|s kept]; [reflexivity|].
  destruct (H s) as (_ & Hcap & Hpos); [left|].
  rewrite Hpos in Hcap. specialize (Hcap 2 eq_refl).
  change (heldAt _ TE) with 2%nat in Hcap. lia.
Defined.

(** ** Upcoming picks: agreement and edge cases *)

(** X21.  With a league size of at least 1, a draft slot within the league
    and a requested count of at least 1, the scanning and the round-by-round
    implementation of [getUpcomingPickIndexes] return the same list. *)
Theorem upcoming_versions_equal (settings : DraftSettings) (total : nat)
  (count : Z) :
  1 <= leagueSize settings →
  1 <= draftSlot settings <= leagueSize settings →
  1 <= count →
  Scan.getUpcomingPickIndexes settings total count
  = Walk.getUpcomingPickIndexes settings total count.
Proof.
  intros HL Hslot Hcount.
  destruct (upcoming_versions_agree settings total count HL Hslot Hcount)
    as [-> ->].
  reflexivity.
Qed.

Lemma upcoming_versions_equal_witness :
  Scan.getUpcomingPickIndexes sampleSettings 30 3
  = Walk.getUpcomingPickIndexes sampleSettings 30 3.
Proof. apply upcoming_versions_equal; simpl; lia. Defined.

(** X22.  Once the draft is over, that is when the picks made reach
    [rounds × leagueSize], [getUpcomingPickIndexes] returns no pick and
    [picksUntil] is absent; the same holds for a league size of 0, whatever
    the number of rounds. *)
Theorem upcoming_none_left (settings : DraftSettings) (picks : list Pick)
  (count : Z) :
  (1 <= leagueSize settings ∧ 1 <= draftSlot settings <= leagueSize settings
   ∧ 1 <= count
   ∧ rounds settings * leagueSize settings <= Z.of_nat (length picks))
  ∨ leagueSize settings = 0 →
  Walk.getUpcomingPickIndexes settings (length picks) count = []
  ∧ Scan.getUpcomingPickIndexes settings (length picks) count = []
  ∧ (count = 12 → picksUntil settings picks = None).
Proof.
  intros Hcase.
  assert (Hwalk : Walk.getUpcomingPickIndexes settings (length picks) count = []).
  { destruct Hcase as [(HL & Hslot & Hcount & Hover)|HL0].
    - rewrite upcoming_take by done. rewrite seqZ_nil by lia.
      by rewrite filter_nil, take_nil.
    - unfold Walk.getUpcomingPickIndexes, ceilDiv. rewrite HL0. simpl.
      by destruct (Z.ltb_spec 0 (Z.of_nat (length picks) + 1)); [|lia]. }
  split; [done|]. split.
  - destruct Hcase as [(HL & Hslot & Hcount & Hover)|HL0].
    + destruct (upcoming_versions_agree settings (length picks) count HL Hslot
                  Hcount) as [Hs Hw].
      by rewrite Hs, <- Hw.
    + unfold Scan.getUpcomingPickIndexes. rewrite HL0, Z.mul_0_r.
      by replace (Z.to_nat (0 - (Z.of_nat (length picks) + 1) + 1)) with 0%nat
        by lia.
  - intros ->. unfold picksUntil, nextOverall. by rewrite Hwalk.
Qed.

Lemma upcoming_none_left_witness :
  Walk.getUpcomingPickIndexes boardSettings (length (boardLog ++ boardLog)) 12
  = [].
Proof.
  apply (upcoming_none_left boardSettings (boardLog ++ boardLog) 12).
  left. simpl. lia.
Defined.

Local Open Scope Q_scope.

(** ** The ranking as a list *)

(** X14.  The ranking neither drops nor duplicates a candidate: its players
    are a rearrangement of the catalog entries that are untaken and below
    the engine's cap, and every entry carries the score and the breakdown
    computed for its player. *)
Theorem ranking_is_rearrangement (inp : ModelInputs) :
  rankedPlayers (rankPlayers inp)
  ≡ₚ filter (eligible inp) (in_playerPool inp)
  ∧ length (rankPlayers inp)
    = length (filter (eligible inp) (in_playerPool inp))
  ∧ (∀ s, s ∈ rankPlayers inp →
          score s = finalScore inp (player s)
          ∧ explain s = explainOf inp (player s)).
Proof.
  assert (Hperm : rankedPlayers (rankPlayers inp)
                  ≡ₚ filter (eligible inp) (in_playerPool inp)).
  { unfold rankedPlayers, rankPlayers.
    rewrite (sortDesc_perm score), scoredPlayers_eligible, map_map. simpl.
    by rewrite map_id. }
  split; [done|]. split.
  - rewrite <- Hperm. unfold rankedPlayers. by rewrite length_map.
  - intros s Hs. by apply rankPlayers_elem in Hs as (p & -> & _).
Qed.

Lemma ranking_is_rearrangement_witness :
  score (scoredOf inputsRoundOne rbEven) = finalScore inputsRoundOne rbEven.
Proof.
  destruct (ranking_is_rearrangement inputsRoundOne) as (_ & _ & H).
  apply (H (scoredOf inputsRoundOne rbEven)).
  apply rankPlayers_elem. exists rbEven. split; [reflexivity|].
  split; [right; left|]. split; [compute_done|reflexivity].
Defined.

Lemma insertDesc_tied {A : Type} (key : A → Q) (v : Q) (x : A) (l : list A) :
  filter (λ a, key a == v) (insertDesc key x l)
  = filter (λ a, key a == v) (x :: l).
Proof.
  induction l as [|y l IH]; [done|]. simpl.
  destruct (Qle_bool (key y) (key x)) eqn:Hle; [done|].
  assert (Hlt : key x < key y).
  { apply Qnot_le_lt. intros Hc. apply Qle_bool_iff in Hc. congruence. }
  rewrite (filter_cons _ y), IH, !filter_cons.
  destruct (decide (key y == v)) as [Hy|Hy]; [|done].
  destruct (decide (key x == v)) as [Hx|Hx]; [|done].
  rewrite Hx, Hy in Hlt. by apply Qlt_irrefl in Hlt.
Qed.

Lemma sortDesc_tied {A : Type} (key : A → Q) (v : Q) (l : list A) :
  filter (λ a, key a == v) (sortDesc key l) = filter (λ a, key a == v) l.
Proof.
  induction l as [|x l IH]; [done|]. simpl.
  by rewrite insertDesc_tied, !filter_cons, IH.
Qed.

(** X15.  The ranking is ordered by non-increasing score, and entries with
    the same score keep the order in which their players occur in the
    catalog. *)
Theorem ranking_order (inp : ModelInputs) (v : Q) :
  StronglySorted (λ a b, score b <= score a) (rankPlayers inp)
  ∧ tiedAt v (rankPlayers inp)
    = map (scoredOf inp)
        (filter (λ p, finalScore inp p == v)
           (filter (eligible inp) (in_playerPool inp))).
Proof.
  split; [apply (sortDesc_sorted score)|].
  unfold tiedAt, rankPlayers. rewrite sortDesc_tied, scoredPlayers_eligible.
  induction (filter (eligible inp) (in_playerPool inp)) as [|p l IH]; [done|].
  simpl. rewrite !filter_cons, IH. simpl.
  by destruct (decide (finalScore inp p == v)).
Qed.

(** ** Sign of the value over replacement *)

Lemma sorted_lookup_le (g : list Player) (i j : nat) (p q : Player) :
  StronglySorted byProjectionDesc g → (i ≤ j)%nat →
  g !! i = Some p → g !! j = Some q → projOf q <= projOf p.
Proof.
  intros Hs. revert i j. induction Hs as [|x l Hs IH Hall]; intros i j Hij Hi Hj.
  - by rewrite lookup_nil in Hi.
  - destruct i as [|i], j as [|j]; simpl in *; try lia.
    + injection Hi as <-. injection Hj as <-. apply Qle_refl.
    + injection Hi as <-. rewrite Forall_forall in Hall.
      apply Hall. by eapply list_elem_of_lookup_2.
    + eapply IH; [|done..]. lia.
Qed.

(** X16.  Among the untaken players of a position in ranking order, a
    player ranked at or above the replacement rank has a non-negative VOR
    and a player ranked at or below it has a non-positive VOR. *)
Theorem vor_sign (inp : ModelInputs) (pos : Position) (i : nat) (p : Player) :
  byPos inp pos !! i = Some p →
  ((Z.of_nat i < replacementRank pos)%Z → 0 <= vor inp p)
  ∧ ((replacementRank pos - 1 <= Z.of_nat i)%Z → vor inp p <= 0).
Proof.
  intros Hp.
  assert (Hpos : position p = pos)
    by (eapply byPos_position, list_elem_of_lookup_2; eauto).
  pose proof (lookup_lt_Some _ _ _ Hp) as Hlen.
  pose proof (byPos_sorted inp pos) as Hsorted.
  rewrite vor_spec, Hpos. unfold replacementValue.
  set (g := byPos inp pos) in *. set (rk := replacementRank pos).
  set (idx := Z.min (rk - 1) (Z.of_nat (length g) - 1)).
  pose proof (replacementRank_pos pos) as Hrk. fold rk in Hrk.
  destruct (Z.leb_spec 0 idx) as [Hidx|Hidx]; [|lia].
  destruct (lookup_lt_is_Some_2 g (Z.to_nat idx) ltac:(lia)) as [q Hq].
  rewrite Hq. split; intros Hi.
  - pose proof (sorted_lookup_le g i (Z.to_nat idx) p q Hsorted ltac:(lia) Hp Hq).
    lra.
  - pose proof (sorted_lookup_le g (Z.to_nat idx) i q p Hsorted ltac:(lia) Hq Hp).
    lra.
Qed.

Lemma vor_sign_witness : 0 <= vor inputsEmptyLog qb1.
Proof.
  destruct (vor_sign inputsEmptyLog QB 0 qb1) as [H _]; [reflexivity|].
  apply H. reflexivity.
Defined.

(** ** Bounds of the multipliers *)

Lemma prio_bounds (inp : ModelInputs) (p : Player) :
  0.05 <= prio inp p <= 1.25.
Proof.
  unfold prio, priorityWeight.
  destruct (currentRound inp) as [r| | |]; [|split; lra..].
  repeat match goal with
         | |- context [(?a =? ?b)%Z] => destruct (Z.eqb_spec a b)
         | |- context [(?a <=? ?b)%Z] => destruct (Z.leb_spec a b)
         end; simpl; destruct (position p); split; lra.
Qed.

Lemma needWeight_bounds (inp : ModelInputs) (p : Player) :
  1 <= 1 + 0.18 * Qmin 2 (needUnits inp p) <= 1.36.
Proof.
  pose proof (needUnits_nonneg inp p).
  destruct (Q.min_spec 2 (needUnits inp p)) as [[? Hm]|[? Hm]];
    rewrite Hm; split; lra.
Qed.

Lemma pivotBonus_bounds (inp : ModelInputs) (p : Player) :
  1 <= pivotBonus inp p <= 1.15.
Proof.
  unfold pivotBonus. name_minmax. split_minmax; split; lra.
Qed.

Lemma adpHelp_nonneg (p : Player) : 0 <= adpHelp p.
Proof.
  unfold adpHelp. destruct (adp p) as [a|]; [|lra].
  destruct (Qeq_bool a 0); [lra|]. apply Q.le_max_l.
Qed.

Lemma starter_or_bench (inp : ModelInputs) (p : Player) :
  (starterBoost inp p == 1.35 ∧ benchDamp inp p == 1)
  ∨ (starterBoost inp p == 1 ∧ benchDamp inp p == 0.93).
Proof.
  unfold starterBoost, benchDamp, startersLeft, startersRemaining.
  set (z := Z.max 0 _). assert (0 <= z)%Z by (unfold z; lia).
  destruct (Z.ltb_spec 0 z), (Z.eqb_spec z 0); try lia;
    [left|right]; split; reflexivity.
Qed.

(** X17.  Every multiplier of the final score stays within fixed positive
    bounds, exactly one of the starter boost (1.35) and the bench damping
    (0.93) applies, and the ADP help is never negative; so the final score
    exceeds the ADP help exactly when the score before the multipliers is
    positive, and never falls below the ADP help when that score is not
    negative. *)
Theorem multipliers_bounded (inp : ModelInputs) (p : Player) :
  1 <= 1 + 0.18 * Qmin 2 (needUnits inp p) <= 1.36
  ∧ ((starterBoost inp p == 1.35 ∧ benchDamp inp p == 1)
     ∨ (starterBoost inp p == 1 ∧ benchDamp inp p == 0.93))
  ∧ 1 <= pivotBonus inp p <= 1.15
  ∧ 0.05 <= prio inp p <= 1.25
  ∧ 0.94 <= byeAdj inp p <= 1
  ∧ 0 <= adpHelp p
  ∧ (0 < rawScore inp p ↔ adpHelp p < finalScore inp p)
  ∧ (0 <= rawScore inp p → 0 <= finalScore inp p).
Proof.
  pose proof (needWeight_bounds inp p) as Hneed.
  pose proof (starter_or_bench inp p) as Hsb.
  pose proof (pivotBonus_bounds inp p) as Hpivot.
  pose proof (prio_bounds inp p) as Hprio.
  pose proof (adpHelp_nonneg p) as Hadp.
  assert (Hbye : 0.94 <= byeAdj inp p <= 1)
    by (destruct (byeAdj_cases inp p) as [Hb|[Hb|Hb]]; rewrite Hb; split; lra).
  repeat (split; [done|]).
  assert (Hm : 0 < otherMultipliers inp p * prio inp p).
  { apply Qmult_lt_0_compat; [apply otherMultipliers_pos|lra]. }
  assert (Hsplit : finalScore inp p
                   == rawScore inp p * (otherMultipliers inp p * prio inp p)
                      + adpHelp p)
    by (rewrite finalScore_split; ring).
  set (m := otherMultipliers inp p * prio inp p) in *. clearbody m.
  set (x := rawScore inp p) in *. clearbody x.
  rewrite Hsplit. split.
  - split; intros Hx.
    + assert (0 < x * m) by (by apply Qmult_lt_0_compat). lra.
    + destruct (Qlt_le_dec 0 x) as [?|Hle]; [done|].
      assert (0 <= (- x) * m) by (apply Qmult_le_0_compat; lra). lra.
  - intros Hx. assert (0 <= x * m) by (apply Qmult_le_0_compat; lra). lra.
Qed.

Lemma multipliers_bounded_witness :
  0 <= finalScore inputsRoundOne qbEven.
Proof.
  destruct (multipliers_bounded inputsRoundOne qbEven)
    as (_ & _ & _ & _ & _ & _ & _ & H).
  apply H. discriminate.
Defined.

(** ** Run bias *)

(** In the rational model the expected shares add up to 1, so once a pick
    has been made the run biases of the six positions cancel. *)
Lemma runBias_cancel (inp : ModelInputs) :
  (0 < picksMade (in_picksByPos inp))%Z →
  runBias inp QB + runBias inp RB + runBias inp WR
  + runBias inp TE + runBias inp DST + runBias inp K == 0.
Proof.
  intros Hpicks. rewrite !runBias_spec. unfold runBiasOf, actualShare.
  rewrite decide_False by lia.
  set (c := in_picksByPos inp) in *.
  assert (Htotal : inject_Z (picksMade c)
                   == inject_Z (Z.of_nat (c QB)) + inject_Z (Z.of_nat (c RB))
                      + inject_Z (Z.of_nat (c WR)) + inject_Z (Z.of_nat (c TE))
                      + inject_Z (Z.of_nat (c DST)) + inject_Z (Z.of_nat (c K)))
    by (unfold picksMade; by rewrite !inject_Z_plus).
  assert (Hnz : ¬ inject_Z (picksMade c) == 0).
  { intros H0. unfold Qeq in H0. simpl in H0. lia. }
  set (t := inject_Z (picksMade c)) in *.
  set (a1 := inject_Z (Z.of_nat (c QB))) in *.
  set (a2 := inject_Z (Z.of_nat (c RB))) in *.
  set (a3 := inject_Z (Z.of_nat (c WR))) in *.
  set (a4 := inject_Z (Z.of_nat (c TE))) in *.
  set (a5 := inject_Z (Z.of_nat (c DST))) in *.
  set (a6 := inject_Z (Z.of_nat (c K))) in *.
  clearbody t a1 a2 a3 a4 a5 a6.
  assert (Hshares : a1 / t + a2 / t + a3 / t + a4 / t + a5 / t + a6 / t == 1).
  { transitivity ((a1 + a2 + a3 + a4 + a5 + a6) / t); [by field|].
    rewrite <- Htotal. by field. }
  simpl evenShare. set (rs := runSensitivity (in_settings inp)).
  match goal with
  | |- ?lhs == 0 =>
      assert (E : lhs == rs * ((a1 / t + a2 / t + a3 / t + a4 / t + a5 / t
                                + a6 / t) - 1)) by ring;
      rewrite E
  end.
  rewrite Hshares. ring.
Qed.

Lemma totalTaken_pos (inp : ModelInputs) : (0 < totalTaken inp)%Z.
Proof.
  unfold totalTaken. rewrite totalPicksMade_sum. unfold picksMade.
  destruct (Z.eqb_spec
    (Z.of_nat (in_picksByPos inp QB) + Z.of_nat (in_picksByPos inp RB)
     + Z.of_nat (in_picksByPos inp WR) + Z.of_nat (in_picksByPos inp TE)
     + Z.of_nat (in_picksByPos inp DST) + Z.of_nat (in_picksByPos inp K))%Z 0%Z);
    lia.
Qed.

Lemma runBias_share (inp : ModelInputs) (pos : Position) :
  runBias inp pos
  == runSensitivity (in_settings inp)
     * (inject_Z (Z.of_nat (in_picksByPos inp pos)) / inject_Z (totalTaken inp)
        - evenShare pos).
Proof.
  rewrite runBias_spec. unfold runBiasOf, actualShare.
  rewrite <- totalPicksMade_sum. unfold totalTaken.
  destruct (Z.eqb_spec (totalPicksMade inp) 0%Z) as [H|H].
  - by rewrite decide_True.
  - by rewrite decide_False.
Qed.

(** X18.  With a positive run sensitivity, the run bias of a position is
    positive exactly when the position's picks exceed its expected share of
    the picks counted; a position whose bias is not positive keeps the full
    pivot bonus of 1.15.  The expected shares add up to 1, so the positions
    cannot all be ahead of their share: at every moment some position has a
    bias of at most 0, and once a pick is counted some position has a bias
    of at least 0. *)
Theorem run_bias_sign (inp : ModelInputs) :
  0 < runSensitivity (in_settings inp) →
  (∀ pos, 0 < runBias inp pos
          ↔ evenShare pos * inject_Z (totalTaken inp)
            < inject_Z (Z.of_nat (in_picksByPos inp pos)))
  ∧ (∀ p, runBias inp (position p) <= 0 → pivotBonus inp p == 1.15)
  ∧ (∃ pos, runBias inp pos <= 0)
  ∧ ((0 < totalPicksMade inp)%Z → ∃ pos, 0 <= runBias inp pos).
Proof.
  intros Hs.
  assert (Ht : 0 < inject_Z (totalTaken inp)).
  { pose proof (totalTaken_pos inp). unfold Qlt. simpl. lia. }
  assert (Hsign : ∀ pos, 0 < runBias inp pos
            ↔ evenShare pos * inject_Z (totalTaken inp)
              < inject_Z (Z.of_nat (in_picksByPos inp pos))).
  { intros pos. rewrite runBias_share.
    set (c := inject_Z (Z.of_nat (in_picksByPos inp pos))).
    set (t := inject_Z (totalTaken inp)) in *.
    set (e := evenShare pos). set (s := runSensitivity (in_settings inp)) in *.
    clearbody c t e s.
    assert (Hdiv : c / t - e == (c - e * t) / t) by (field; lra).
    rewrite Hdiv. split; intros H.
    - destruct (Qlt_le_dec (e * t) c) as [?|Hle]; [done|].
      assert (0 <= s * ((e * t - c) / t)).
      { apply Qmult_le_0_compat; [lra|]. apply Qle_shift_div_l; lra. }
      assert (s * ((c - e * t) / t) == - (s * ((e * t - c) / t)))
        by (field; lra).
      lra.
    - apply Qmult_lt_0_compat; [done|]. apply Qlt_shift_div_l; lra. }
  split; [done|]. split; [|split].
  - intros p Hp. unfold pivotBonus.
    assert (E : Qmax 0 (runBias inp (position p)) == 0) by (by apply Q.max_l).
    rewrite E. by compute.
  - destruct (Z.eq_dec (totalPicksMade inp) 0%Z) as [H0|Hne].
    + exists QB. rewrite runBias_share.
      rewrite totalPicksMade_sum in H0. unfold picksMade in H0.
      replace (in_picksByPos inp QB) with 0%nat by lia.
      set (t := inject_Z (totalTaken inp)) in *. clearbody t.
      set (s := runSensitivity (in_settings inp)) in *. clearbody s.
      simpl evenShare.
      assert (E : s * (inject_Z (Z.of_nat 0) / t - 0.17) == - (s * 0.17))
        by (simpl; field; lra).
      rewrite E. assert (0 < s * 0.17) by (apply Qmult_lt_0_compat; lra). lra.
    + pose proof (runBias_cancel inp) as Hsum.
      rewrite totalPicksMade_sum in Hne.
      assert (Hpos : (0 < picksMade (in_picksByPos inp))%Z)
        by (unfold picksMade in *; lia).
      specialize (Hsum Hpos).
      destruct (Qlt_le_dec 0 (runBias inp QB)); [|by exists QB].
      destruct (Qlt_le_dec 0 (runBias inp RB)); [|by exists RB].
      destruct (Qlt_le_dec 0 (runBias inp WR)); [|by exists WR].
      destruct (Qlt_le_dec 0 (runBias inp TE)); [|by exists TE].
      destruct (Qlt_le_dec 0 (runBias inp DST)); [|by exists DST].
      exists K. lra.
  - intros Hpicks. pose proof (runBias_cancel inp) as Hsum.
    rewrite totalPicksMade_sum in Hpicks. specialize (Hsum Hpicks).
    destruct (Qlt_le_dec (runBias inp QB) 0); [|by exists QB].
    destruct (Qlt_le_dec (runBias inp RB) 0); [|by exists RB].
    destruct (Qlt_le_dec (runBias inp WR) 0); [|by exists WR].
    destruct (Qlt_le_dec (runBias inp TE) 0); [|by exists TE].
    destruct (Qlt_le_dec (runBias inp DST) 0); [|by exists DST].
    exists K. lra.
Qed.

Lemma run_bias_sign_witness :
  0 < runBias inputsTwoTightEnds RB
  ∧ pivotBonus inputsTwoTightEnds wr1 == 1.15.
Proof.
  destruct (run_bias_sign inputsTwoTightEnds) as (Hsign & Hpivot & _);
    [reflexivity|].
  split; [by apply Hsign|]. apply Hpivot. by vm_compute.
Defined.

(** ** Position panels *)

Lemma pushByPos_fold (l : list Player) (acc : Position → list Player)
  (pos : Position) :
  fold_left (λ m p, pset m (position p) (m (position p) ++ [p])) l acc pos
  = acc pos ++ filter (λ p, position p = pos) l.
Proof.
  revert acc. induction l as [|p l IH]; intros acc; simpl.
  - by rewrite app_nil_r.
  - rewrite IH, filter_cons. unfold pset.
    destruct (decide (pos = position p)) as [->|Hne].
    + rewrite decide_True by done. by rewrite <- (assoc_L (++)).
    + by rewrite decide_False by done.
Qed.

(** X19.  The list a position panel shows is the list the engine ranks for
    the replacement baseline of that position: the untaken catalog players
    of the position, by decreasing projection. *)
Theorem playersByPos_byPos (settings : DraftSettings) (players : list Player)
  (picks : list Pick) (counts : Position → nat) (pos : Position) :
  playersByPos players picks pos
  = byPos (appInputs settings players picks counts) pos
  ∧ playersByPos players picks pos
    ≡ₚ untakenAt (takenSet picks) players pos
  ∧ StronglySorted byProjectionDesc (playersByPos players picks pos).
Proof.
  assert (Heq : playersByPos players picks pos
                = byPos (appInputs settings players picks counts) pos).
  { unfold playersByPos, byPos. f_equal.
    rewrite grouped_untaken, pushByPos_fold. simpl.
    unfold availablePlayers, untakenAt. rewrite list_filter_filter.
    apply filter_ext_elem. intros p _. tauto. }
  split; [done|]. rewrite Heq. split; [apply byPos_perm|apply byPos_sorted].
Qed.

(** ** The earlier ranking engine *)

Lemma legacy_scoreStep_fold (inp : ModelInputs) (l : list Player)
  (acc : list Scored) :
  fold_left (Legacy.scoreStep inp) l acc
  = acc ++ map (λ p, mkScored p (Legacy.finalScore inp p)
                       (Legacy.explainOf inp p))
             (filter (λ p, player_id p ∉ in_takenIds inp) l).
Proof.
  revert acc. induction l as [|p l IH]; intros acc; simpl.
  - by rewrite app_nil_r.
  - rewrite IH, filter_cons. unfold Legacy.scoreStep.
    destruct (decide (player_id p ∈ in_takenIds inp)) as [Hin|Hout].
    + by rewrite decide_False by tauto.
    + rewrite decide_True by done. simpl. by rewrite <- (assoc_L (++)).
Qed.

Lemma legacy_needCount_nonneg (inp : ModelInputs) (pos : Position) :
  0 <= Legacy.needCount inp pos.
Proof. unfold Legacy.needCount. cbv zeta. apply Q.le_max_l. Qed.

(** X20.  The earlier engine ranks every untaken catalog player, capped or
    not, so every player the current engine ranks was ranked by it too; its
    roster count is the one of the current engine; and its need boost lies
    between 1 and 1.25. *)
Theorem legacy_ranking (inp : ModelInputs) :
  rankedPlayers (Legacy.rankPlayers inp)
  ≡ₚ filter (λ p, player_id p ∉ in_takenIds inp) (in_playerPool inp)
  ∧ (∀ p, p ∈ rankedPlayers (rankPlayers inp) →
          p ∈ rankedPlayers (Legacy.rankPlayers inp))
  ∧ (∀ pos, Legacy.countOnRoster inp pos = countOnRoster inp pos)
  ∧ (∀ p, 1 <= Legacy.needBoost inp p <= 1.25).
Proof.
  assert (Hperm : rankedPlayers (Legacy.rankPlayers inp)
                  ≡ₚ filter (λ p, player_id p ∉ in_takenIds inp)
                       (in_playerPool inp)).
  { unfold rankedPlayers, Legacy.rankPlayers.
    rewrite (sortDesc_perm score), legacy_scoreStep_fold. simpl.
    rewrite map_map. simpl. by rewrite map_id. }
  split; [done|]. split; [|split].
  - intros p Hp. rewrite Hperm. apply list_elem_of_filter.
    apply rankPlayers_players in Hp as (Hpool & Hfree & _). done.
  - intros pos. unfold Legacy.countOnRoster, countOnRoster. cbv zeta.
    destruct (bool_decide (pos ≠ DST)), (bool_decide (pos ≠ K)); simpl;
      try reflexivity.
    destruct (Z.eqb_spec (Z.of_nat (length (filter (λ q, position q = pos)
                                              (in_yourRoster inp FLEX)))) 0)
      as [->|?]; reflexivity.
  - intros p. unfold Legacy.needBoost.
    pose proof (legacy_needCount_nonneg inp (position p)).
    destruct (Q.min_spec 1.25 (1 + 0.2 * Legacy.needCount inp (position p)))
      as [[? Hm]|[? Hm]]; rewrite Hm; split; lra.
Qed.

Lemma legacy_ranking_witness :
  te3 ∈ rankedPlayers (Legacy.rankPlayers inputsTwoTightEnds).
Proof.
  destruct (legacy_ranking inputsTwoTightEnds) as (_ & H & _).
  apply H. apply rankPlayers_players.
  split; [|split; [compute_done|reflexivity]].
  apply list_elem_of_In. simpl. tauto.
Defined.
